(** * Batch generation pipeline of the COMSOL automation skill

    A shallow embedding of the two batch-generator scripts
    ([batch_generator_fixed.py], class [COMSOLBatchGenerator], and
    [batch_demo.py], class [COMSOLBatchGeneratorDemo]) together with the
    properties their design document states about them.

    Conventions.
    - A Python [float] is an IEEE binary64 number: Rocq's primitive [float].
      JSON numbers of the configuration are taken as the binary64 value they
      denote; every integer literal of the scripts that meets a float
      ([5], [9], [1]) is exactly representable, so the mixed comparisons and
      divisions of Python coincide with the binary64 ones. The exact value
      of a float is a rational number ([Q]).
    - A Python [dict] is an association list in insertion order whose keys
      are pairwise different.
    - A function that may raise returns a [result]. *)

From Stdlib Require Import List ZArith Lia Bool Arith PeanoNat.
From Stdlib Require Import Strings.String Strings.Ascii.
From Stdlib Require Import Sorting.Permutation.
From Stdlib Require Import Floats.
From Stdlib Require Import QArith Qabs Qpower Lqa.
Import ListNotations.
Close Scope Q_scope.

Set Warnings "-inexact-float,-register-all".

Local Open Scope string_scope.
Local Open Scope list_scope.

(** ** Python values the scripts rely on *)

Module Py.

(** The exceptions the modelled code can raise. [KeyboardInterrupt] is the
    only one that does not derive from [Exception]. *)
Inductive exn : Type :=
| KeyError (key : string)
| ZeroDivisionError
| OverflowError
| ValueError
| EngineError (msg : string)
| OSError (msg : string)
| KeyboardInterrupt.

Definition is_Exception (e : exn) : bool :=
  match e with
  | KeyboardInterrupt => false
  | _ => true
  end.

Inductive result (A : Type) : Type :=
| Ok (a : A)
| Raise (e : exn).
Arguments Ok {A} a.
Arguments Raise {A} e.

Definition bind {A B} (r : result A) (k : A -> result B) : result B :=
  match r with
  | Ok a => k a
  | Raise e => Raise e
  end.

(** *** dict *)

Definition dict (V : Type) : Type := list (string * V).

Fixpoint get {V} (d : dict V) (k : string) : option V :=
  match d with
  | [] => None
  | (k', v) :: d' => if String.eqb k k' then Some v else get d' k
  end.

(** [d[k]] *)
Definition getitem {V} (d : dict V) (k : string) : result V :=
  match get d k with
  | Some v => Ok v
  | None => Raise (KeyError k)
  end.

(** [d[k] = v]: an existing key keeps its place. *)
Fixpoint setitem {V} (d : dict V) (k : string) (v : V) : dict V :=
  match d with
  | [] => [(k, v)]
  | (k', v') :: d' =>
      if String.eqb k k' then (k', v) :: d' else (k', v') :: setitem d' k v
  end.

(** [dict(pairs)] *)
Definition dict_of {V} (pairs : list (string * V)) : dict V :=
  fold_left (fun d kv => setitem d (fst kv) (snd kv)) pairs [].

Definition keys {V} (d : dict V) : list string := map fst d.
Definition values {V} (d : dict V) : list V := map snd d.

(** The representation invariant of a dict. *)
Definition wf {V} (d : dict V) : Prop := NoDup (keys d).

(** [zip(xs, ys)] *)
Definition zip {A B} (xs : list A) (ys : list B) : list (A * B) := combine xs ys.

(** [itertools.product] applied to the unpacked pools, after the reference implementation of the
    library documentation:
    [result = [[]]; for pool in pools: result = [x+[y] for x in result for y in pool]]. *)
Definition product_step {A} (res : list (list A)) (pool : list A) : list (list A) :=
  flat_map (fun x => map (fun y => x ++ [y]) pool) res.

Definition product {A} (pools : list (list A)) : list (list A) :=
  fold_left product_step pools [[]].

(** [l[:n]] for an integer [n] of either sign. *)
Definition slice_to {A} (l : list A) (n : Z) : list A :=
  if (n <? 0)%Z then firstn (Z.to_nat (Z.of_nat (List.length l) + n)) l
  else firstn (Z.to_nat n) l.

End Py.

Notation "x <- r ;; k" := (Py.bind r (fun x => k))
  (at level 61, r at next level, right associativity).
Notation "' p <- r ;; k" := (Py.bind r (fun p => k))
  (at level 61, p pattern, r at next level, right associativity).

(** ** Combination Generator *)

(** [generate_parameter_combinations], the enumeration part shared by both
    scripts: [names = list(parameters.keys())],
    [pools = list(parameters.values())], then one [dict(zip(names, values))]
    per tuple of the product of the pools. *)
Definition all_combinations {V} (parameters : Py.dict (list V)) : list (Py.dict V) :=
  let param_names := Py.keys parameters in
  let param_values := Py.values parameters in
  map (fun values => Py.dict_of (Py.zip param_names values)) (Py.product param_values).

(** Product of the list lengths [k1 * ... * kn]. *)
Definition size_product {V} (pools : list (list V)) : nat :=
  fold_right Nat.mul 1 (map (@List.length V) pools).

(** Index tuples: one index per parameter. *)
Definition valid_index {V} (pools : list (list V)) (idx : list nat) : Prop :=
  Forall2 (fun i pool => i < List.length pool) idx pools.

(** Rank of an index tuple in the mixed-radix system of the list lengths,
    first parameter most significant. *)
Fixpoint position {V} (pools : list (list V)) (idx : list nat) : nat :=
  match pools, idx with
  | _ :: pools', i :: idx' => i * size_product pools' + position pools' idx'
  | _, _ => 0
  end.

(** Lexicographic order on index tuples of equal length. *)
Fixpoint lex_lt (I J : list nat) : Prop :=
  match I, J with
  | i :: I', j :: J' => i < j \/ (i = j /\ lex_lt I' J')
  | _, _ => False
  end.

(** The values an index tuple selects. *)
Fixpoint select {V} (pools : list (list V)) (idx : list nat) : option (list V) :=
  match pools, idx with
  | [], [] => Some []
  | pool :: pools', i :: idx' =>
      match nth_error pool i, select pools' idx' with
      | Some v, Some vs => Some (v :: vs)
      | _, _ => None
      end
  | _, _ => None
  end.

(** The Cartesian product by recursion on the pools, first pool outermost:
    the specification [Py.product] is compared with. *)
Fixpoint cartesian {V} (pools : list (list V)) : list (list V) :=
  match pools with
  | [] => [[]]
  | pool :: pools' => flat_map (fun y => map (cons y) (cartesian pools')) pool
  end.

(** The parameter space of the design document's end-to-end scenario. *)
Definition scenario_parameters : Py.dict (list float) :=
  [("K_ch", [1.0; 3.0]); ("W_ch", [1.0; 3.0]); ("W_rib", [5.0; 10.0])]%float.

(** A parameter space whose only value list repeats a value. *)
Definition repeated_parameters : Py.dict (list float) :=
  [("K_ch", [1.0; 1.0])]%float.

(** ** The random source

    The module-level generator of [random] is the only hidden state of the
    pipeline. It is modelled as the sequence of its future outcomes: the
    numbers [random.random()] will return, each in [0.0, 1.0), and the raw
    draws behind [_randbelow], which [shuffle] reduces below its bound. An
    exhausted sequence answers [0]. *)
Record rng : Type := {
  uniforms : list float;
  draws : list nat
}.

Definition in_unit_interval (r : float) : bool :=
  (PrimFloat.leb 0 r && PrimFloat.ltb r 1)%bool.

(** What the library guarantees about [random.random()]. *)
Definition rng_ok (g : rng) : Prop :=
  Forall (fun r => in_unit_interval r = true) (uniforms g).

Definition random (g : rng) : float * rng :=
  match uniforms g with
  | [] => (0%float, g)
  | r :: rs => (r, {| uniforms := rs; draws := draws g |})
  end.

Definition randbelow (n : nat) (g : rng) : nat * rng :=
  match draws g with
  | [] => (0, g)
  | j :: js => (j mod n, {| uniforms := uniforms g; draws := js |})
  end.

(** [x[n] = a], for [n] in range. *)
Fixpoint set_nth {A} (x : list A) (n : nat) (a : A) : list A :=
  match x, n with
  | [], _ => []
  | _ :: x', 0 => a :: x'
  | b :: x', S n' => b :: set_nth x' n' a
  end.

(** [x[i], x[j] = x[j], x[i]]; both indices are in range wherever [shuffle]
    uses it. *)
Definition swap {A} (i j : nat) (x : list A) : list A :=
  match nth_error x i, nth_error x j with
  | Some a, Some b => set_nth (set_nth x i b) j a
  | _, _ => x
  end.

(** [random.shuffle(x)]:
    [for i in reversed(range(1, len(x))): j = randbelow(i + 1); swap]. *)
Fixpoint shuffle_from {A} (i : nat) (x : list A) (g : rng) : list A * rng :=
  match i with
  | 0 => (x, g)
  | S i' =>
      let (j, g') := randbelow (i + 1) g in
      shuffle_from i' (swap i j x) g'
  end.

Definition shuffle {A} (x : list A) (g : rng) : list A * rng :=
  shuffle_from (List.length x - 1) x g.

(** ** Configuration *)

(** A JSON value, for the entries the scripts read but do not interpret. *)
Inductive json : Type :=
| JNull
| JBool (b : bool)
| JInt (z : Z)
| JFloat (f : float)
| JStr (s : string)
| JList (l : list json)
| JDict (d : list (string * json)).

(** A combination: one value per parameter name. *)
Definition combination : Type := Py.dict float.

(** The [batch_filtering] object. A field is [None] when its key is absent;
    [other_entries] holds the keys the scripts never read. *)
Record filtering_config : Type := {
  exclude_condition : option json;
  sample_rate : option float;
  target_count : option Z;
  other_entries : Py.dict json
}.

(** The [{}] that [config.get('batch_filtering', {})] falls back to. *)
Definition empty_filtering : filtering_config :=
  {| exclude_condition := None; sample_rate := None; target_count := None;
     other_entries := [] |}.

(** [bool(filtering_config)]: a dict is true when it has a key. *)
Definition nonempty (fc : filtering_config) : bool :=
  match exclude_condition fc, sample_rate fc, target_count fc, other_entries fc with
  | None, None, None, [] => false
  | _, _, _, _ => true
  end.

(** A parsed [str.format] template: literal text and [{name}] fields. *)
Inductive segment : Type :=
| Lit (text : string)
| Field (name : string).

Record naming_config : Type := {
  format : option (list segment);
  extension : option string
}.

(** An entry of [mesh_settings] as [calculate_mesh_parameters] of the batch
    generator reads it. *)
Inductive mesh_setting : Type :=
| Quotient (param_name : string) (divisor : option float)
    (* a string [name/divisor]; the divisor is [None] when [float] rejects it *)
| ManySlashes
    (* a string with several [/]: unpacking the split raises [ValueError] *)
| Opaque.
    (* not a string, or a string without [/]: skipped *)

Record config : Type := {
  parameters : option (Py.dict (list float));
  batch_filtering : option filtering_config;
  file_naming : option naming_config;
  template_model : option string;
  output_directory : option string;
  error_tolerance : option string;
  verify_output : option bool;
  mesh_settings : option (list (string * mesh_setting))
}.

(** [d.get(key, default)] on a field. *)
Definition get_default {A} (field : option A) (default : A) : A :=
  match field with
  | Some a => a
  | None => default
  end.

(** [config[key]] *)
Definition require {A} (key : string) (field : option A) : Py.result A :=
  match field with
  | Some a => Py.Ok a
  | None => Py.Raise (Py.KeyError key)
  end.

(** ** Filter/Sampler *)

(** [combo["K_ch"] > 2.4 and combo["W_ch"] > 2.4 and combo["W_rib"] > 9];
    [and] evaluates its right operand only when the left one is true. *)
Definition exclusion_predicate (combo : combination) : Py.result bool :=
  k_ch <- Py.getitem combo "K_ch" ;;
  if PrimFloat.ltb 2.4 k_ch then
    w_ch <- Py.getitem combo "W_ch" ;;
    if PrimFloat.ltb 2.4 w_ch then
      w_rib <- Py.getitem combo "W_rib" ;;
      Py.Ok (PrimFloat.ltb 9 w_rib)
    else Py.Ok false
  else Py.Ok false.

(** The loop shared by both scripts: a matching combination is skipped when
    [random.random() < rate], every other one is appended. The state is
    [(filtered, excluded_count, generator)]. *)
Fixpoint thinning_loop (combos : list combination) (rate : float)
    (st : list combination * nat * rng) : Py.result (list combination * nat * rng) :=
  match combos with
  | [] => Py.Ok st
  | combo :: rest =>
      let '(filtered, excluded_count, g) := st in
      hit <- exclusion_predicate combo ;;
      if hit then
        let (r, g') := random g in
        if PrimFloat.ltb r rate
        then thinning_loop rest rate (filtered, excluded_count + 1, g')
        else thinning_loop rest rate (filtered ++ [combo], excluded_count, g')
      else thinning_loop rest rate (filtered ++ [combo], excluded_count, g)
  end.

(** The cap shared by both scripts:
    [if len(l) > target_count: random.shuffle(l); l = l[:target_count]]. *)
Definition cap (l : list combination) (target : Z) (g : rng) : list combination * rng :=
  if (Z.of_nat (List.length l) >? target)%Z then
    let (shuffled, g') := shuffle l g in
    (Py.slice_to shuffled target, g')
  else (l, g).



(** ** Vocabulary of the filter properties *)

(** The predicate can be evaluated on the combination: no key it reaches is
    missing. *)
Definition evaluates (c : combination) : Prop :=
  exists b, exclusion_predicate c = Py.Ok b.

(** The predicate is true of the combination. *)
Definition matches (c : combination) : bool :=
  match exclusion_predicate c with
  | Py.Ok true => true
  | _ => false
  end.

Definition with_exclude_condition (fc : filtering_config) (v : option json)
    : filtering_config :=
  {| exclude_condition := v; sample_rate := sample_rate fc;
     target_count := target_count fc; other_entries := other_entries fc |}.


Definition filtering_only (fc : filtering_config) : config :=
  {| parameters := Some scenario_parameters; batch_filtering := Some fc;
     file_naming := None; template_model := None; output_directory := None;
     error_tolerance := None; verify_output := None;
     mesh_settings := None |}.

(** The configuration of the end-to-end filter scenario:
    [sample_rate = 1.0], [target_count = 100]. *)
Definition scenario_config : config :=
  filtering_only {| exclude_condition := None; sample_rate := Some 1%float;
                    target_count := Some 100%Z; other_entries := [] |}.

(** The seven combinations of the scenario other than (3.0, 3.0, 10.0), in
    generation order. *)
Definition scenario_survivors : list combination :=
  [ [("K_ch", 1.0); ("W_ch", 1.0); ("W_rib", 5.0)];
    [("K_ch", 1.0); ("W_ch", 1.0); ("W_rib", 10.0)];
    [("K_ch", 1.0); ("W_ch", 3.0); ("W_rib", 5.0)];
    [("K_ch", 1.0); ("W_ch", 3.0); ("W_rib", 10.0)];
    [("K_ch", 3.0); ("W_ch", 1.0); ("W_rib", 5.0)];
    [("K_ch", 3.0); ("W_ch", 1.0); ("W_rib", 10.0)];
    [("K_ch", 3.0); ("W_ch", 3.0); ("W_rib", 5.0)] ]%float.

(** A configuration with a negative [target_count]. *)
Definition negative_target_config : config :=
  filtering_only {| exclude_condition := None; sample_rate := Some 0%float;
                    target_count := Some (-1)%Z; other_entries := [] |}.

(** A configuration without [batch_filtering]. *)
Definition unfiltered_config : config :=
  {| parameters := Some scenario_parameters; batch_filtering := None;
     file_naming := None; template_model := None; output_directory := None;
     error_tolerance := None; verify_output := None;
     mesh_settings := None |}.

(** A generator whose outcomes are all used up. *)
Definition spent : rng := {| uniforms := []; draws := [] |}.

(** The scenario with the default rate and a target of three. *)
Definition cut_config : config :=
  filtering_only {| exclude_condition := None; sample_rate := None;
                    target_count := Some 3%Z; other_entries := [] |}.

(** A generator that answers 0.75 to [random.random()] and has seven draws
    for the shuffle. *)
Definition cut_source : rng :=
  {| uniforms := [0.75%float]; draws := [2; 0; 5; 1; 3; 0; 1] |}.





(** A combination without [W_ch] and [W_rib] whose [K_ch] is not above 2.4. *)
Definition lone_channel : combination := [("K_ch", 1.0%float)].

(** ** Arithmetic of Python numbers *)

(** [a / b] on floats: a zero divisor raises, anything else is the binary64
    quotient. *)
Definition truediv (a b : float) : Py.result float :=
  if PrimFloat.eqb b 0 then Py.Raise Py.ZeroDivisionError
  else Py.Ok (a / b)%float.

(** Nearest integer to [n / d] for [d > 0], ties to the even one. *)
Definition round_div (n d : Z) : Z :=
  let q := (n / d)%Z in
  let twice_rest := (2 * (n mod d))%Z in
  if (twice_rest <? d)%Z then q
  else if (d <? twice_rest)%Z then (q + 1)%Z
  else if Z.even q then q else (q + 1)%Z.

(** The exact value [m * 2^e] of a finite float as a fraction. *)
Definition exact_fraction (m : positive) (e : Z) : Z * Z :=
  if (0 <=? e)%Z then (Zpos m * 2 ^ e, 1)%Z else (Zpos m, 2 ^ (- e))%Z.

(** [round(x)] on a float: the nearest integer to the exact value of [x],
    ties to even; NaN raises [ValueError] and an infinity [OverflowError]. *)
Definition round (x : float) : Py.result Z :=
  match Prim2SF x with
  | S754_nan => Py.Raise Py.ValueError
  | S754_infinity _ => Py.Raise Py.OverflowError
  | S754_zero _ => Py.Ok 0%Z
  | S754_finite s m e =>
      let (num, den) := exact_fraction m e in
      let magnitude := round_div num den in
      Py.Ok (if s then (- magnitude)%Z else magnitude)
  end.

(** The float an integer operand is converted to in [float / int]: the
    nearest binary64 number, [OverflowError] beyond the largest one. *)
Definition float_of_int (n : Z) : Py.result float :=
  match binary_normalize prec emax n 0 false with
  | S754_infinity _ => Py.Raise Py.OverflowError
  | sf => Py.Ok (SF2Prim sf)
  end.

(** [x / n] for a float [x] and an int [n]. *)
Definition truediv_int (x : float) (n : Z) : Py.result float :=
  if (n =? 0)%Z then Py.Raise Py.ZeroDivisionError
  else d <- float_of_int n ;; truediv x d.

(** ** Mesh Parameter Calculator *)

(** The [mesh_params] dict of the demo script: its five keys. *)
Record mesh_params : Type := {
  interior_mesh_size : float;
  stream_width_mesh_size : float;
  stream_width_cells : Z;
  stream_depth_mesh_size : float;
  stream_depth_cells : Z
}.


(** What the calculator derives for one axis of dimension [D]. *)
Definition axis_derivation (D interior : float) (cells : Z) (size : float) : Prop :=
  exists raw_cells rounded,
    truediv D interior = Py.Ok raw_cells
    /\ round raw_cells = Py.Ok rounded
    /\ cells = Z.max 1 rounded
    /\ (1 <= cells)%Z
    /\ truediv_int D cells = Py.Ok size.

(** The magnitude [m * 2^e] of a finite float. *)
Definition magnitude (m : positive) (e : Z) : Q := (inject_Z (Zpos m) * 2 ^ e)%Q.

(** The exact value of a float that is a number; [0] stands in for NaN and
    the infinities. *)
Definition exact (x : float) : Q :=
  match Prim2SF x with
  | S754_finite s m e => if s then (- magnitude m e)%Q else magnitude m e
  | _ => 0%Q
  end.

(** The float is a number: neither NaN nor an infinity. *)
Definition is_number (x : float) : bool :=
  match Prim2SF x with
  | S754_zero _ | S754_finite _ _ _ => true
  | _ => false
  end.

(** What the rounding of one binary64 division may cost on a quotient of
    [D]: [|D| / (2^52 - 1) + 2^(-50)]. *)
Definition rounding_allowance (D : Q) : Q :=
  (Qabs D * (1 # 4503599627370495) + 2 ^ (-50))%Q.

(** [axis_mesh_size * actual_cells], the product the design document
    compares with the dimension, as binary64 computes it. *)
Definition reproduced (size : float) (cells : Z) : Py.result float :=
  c <- float_of_int cells ;; Py.Ok (size * c)%float.

(** A dimension between [1e-6] and [1e6]. *)
Definition moderate (D : float) : Prop :=
  (1 # 1000000 <= exact D <= 1000000)%Q.

(** [axis_mesh_size * actual_cells] is within [1e-9] of the dimension [D]:
    the mesh size is a number, the exact product of the two numbers misses
    [D] by less than [1e-9], and so does their binary64 product, which is
    a number. *)
Definition within_tolerance (D : float) (cells : Z) (size : float) : Prop :=
  is_number size = true
  /\ (Qabs (exact size * inject_Z cells - exact D) < 1 # 1000000000)%Q
  /\ exists p,
       reproduced size cells = Py.Ok p
       /\ is_number p = true
       /\ (Qabs (exact p - exact D) < 1 # 1000000000)%Q.

(** How [axis_mesh_size * actual_cells] reproduces the dimension [D] up to
    rounding. The mesh size is the binary64 quotient of [D] and the float
    [nf] that [actual_cells] converts to in a product with a float, which
    is [actual_cells] itself below [2^53]; the product of the two, taken
    exactly, misses [D] by no more than the rounding allowance whenever the
    mesh size is a number; and for [|D|] up to a million the mesh size is a
    number and both the exact product and the binary64 product, which is a
    number, are within [1e-9] of [D]. *)
Definition reproduces (D : float) (cells : Z) (size : float) : Prop :=
  exists nf,
    float_of_int cells = Py.Ok nf
    /\ size = (D / nf)%float
    /\ ((cells < 2 ^ 53)%Z -> (exact nf == inject_Z cells)%Q)
    /\ (is_number size = true ->
        (Qabs (exact size * exact nf - exact D) <= rounding_allowance (exact D))%Q)
    /\ ((Qabs (exact D) <= 1000000)%Q ->
        is_number size = true
        /\ (Qabs (exact size * exact nf - exact D) < 1 # 1000000000)%Q
        /\ exists p,
             reproduced size cells = Py.Ok p
             /\ is_number p = true
             /\ (Qabs (exact p - exact D) < 1 # 1000000000)%Q).

Definition mesh_scenario : combination := [("K_ch", 2.5); ("W_ch", 3.0)]%float.
Definition mesh_inexact : combination := [("K_ch", 1.7); ("W_ch", 1.7)]%float.
Definition mesh_large : combination :=
  [("K_ch", 0x1.b333333333333p+67); ("W_ch", 0x1.b333333333333p+67)]%float.
Definition mesh_tiny : combination := [("K_ch", 5e-324); ("W_ch", 3.0)]%float.

(** ** Filename Encoder *)

(** A Python [str] as its characters. *)
Definition str : Type := list ascii.
Definition chars (s : string) : str := list_ascii_of_string s.

Definition digit_char (d : Z) : ascii := ascii_of_nat (48 + Z.to_nat d).

Fixpoint decimal_fuel (fuel : nat) (n : Z) (acc : str) : str :=
  match fuel with
  | 0 => acc
  | S fuel' =>
      let acc' := digit_char (n mod 10) :: acc in
      if (n <? 10)%Z then acc' else decimal_fuel fuel' (n / 10) acc'
  end.

(** The decimal digits of a natural number, no leading zero. *)
Definition decimal (n : Z) : str :=
  decimal_fuel (S (Z.to_nat (Z.log2 n))) n [].

(** Three decimal digits. *)
Definition pad3 (n : Z) : str :=
  [digit_char (n / 100 mod 10); digit_char (n / 10 mod 10); digit_char (n mod 10)].

(** The exponent field of the [e] presentation: at least two digits. *)
Definition exponent_digits (x : Z) : str :=
  if (x <? 10)%Z then digit_char 0 :: decimal x else decimal x.

Definition sign_str (negative : bool) : str :=
  if negative then chars "-" else [].

(** [k] with [10^k <= num / den < 10^(k+1)], for [0 < den <= num]. *)
Fixpoint count_up (fuel : nat) (num den : Z) : Z :=
  match fuel with
  | 0 => 0
  | S fuel' =>
      if (den * 10 <=? num)%Z then (1 + count_up fuel' num (den * 10))%Z else 0%Z
  end.

(** [k] with [10^(-k) <= num / den < 10^(-k+1)], for [0 < num < den]. *)
Fixpoint count_down (fuel : nat) (num den : Z) : Z :=
  match fuel with
  | 0 => 0
  | S fuel' =>
      if (num <? den)%Z then (1 + count_down fuel' (num * 10) den)%Z else 0%Z
  end.

(** The decimal exponent of the positive fraction [num / den]. *)
Definition decimal_exponent (num den : Z) : Z :=
  if (den <=? num)%Z then count_up (S (Z.to_nat (Z.log2 num))) num den
  else (- count_down (S (S (Z.to_nat (Z.log2 den)))) num den)%Z.

(** Nearest integer to [(num / den) / 10^k], ties to even. *)
Definition scaled_round (num den k : Z) : Z :=
  if (0 <=? k)%Z then round_div num (den * 10 ^ k)
  else round_div (num * 10 ^ (- k)) den.

(** [f"{x:.3f}"] *)
Definition format_fixed3 (x : float) : str :=
  match Prim2SF x with
  | S754_nan => chars "nan"
  | S754_infinity s => sign_str s ++ chars "inf"
  | S754_zero s => sign_str s ++ chars "0.000"
  | S754_finite s m e =>
      let (num, den) := exact_fraction m e in
      let thousandths := scaled_round num den (-3) in
      sign_str s ++ decimal (thousandths / 1000) ++ chars "."
        ++ pad3 (thousandths mod 1000)
  end.

(** [f"{x:.3e}"] *)
Definition format_sci3 (x : float) : str :=
  match Prim2SF x with
  | S754_nan => chars "nan"
  | S754_infinity s => sign_str s ++ chars "inf"
  | S754_zero s => sign_str s ++ chars "0.000e+00"
  | S754_finite s m e =>
      let (num, den) := exact_fraction m e in
      let x0 := decimal_exponent num den in
      let d0 := scaled_round num den (x0 - 3) in
      let '(digits, exponent) :=
        if (10000 <=? d0)%Z then ((d0 / 10)%Z, (x0 + 1)%Z) else (d0, x0) in
      sign_str s ++ decimal (digits / 1000) ++ chars "." ++ pad3 (digits mod 1000)
        ++ chars "e" ++ chars (if (exponent <? 0)%Z then "-" else "+")
        ++ exponent_digits (Z.abs exponent)
  end.

(** [str.replace("e+", "e")]: occurrences are replaced left to right; two
    occurrences of ["e+"] cannot overlap. *)
Fixpoint replace_eplus (s : str) : str :=
  match s with
  | [] => []
  | c :: rest =>
      match rest with
      | c' :: rest' =>
          if (Ascii.eqb c "e" && Ascii.eqb c' "+")%bool
          then c :: replace_eplus rest'
          else c :: replace_eplus rest
      | [] => [c]
      end
  end.

(** The presentation of one value: scientific below 0.01 and above 1e6 in
    magnitude, fixed-point otherwise. *)
Definition render (value : float) : str :=
  if (PrimFloat.ltb (PrimFloat.abs value) 1e-2
      || PrimFloat.ltb 1e6 (PrimFloat.abs value))%bool
  then format_sci3 value
  else format_fixed3 value.

(** [format_str.format] with keyword arguments, on a parsed template, left
    to right; a
    field without argument raises [KeyError], arguments without field are
    ignored. *)
Fixpoint str_format (template : list segment) (kwargs : Py.dict str) : Py.result str :=
  match template with
  | [] => Py.Ok []
  | Lit text :: rest =>
      tail <- str_format rest kwargs ;;
      Py.Ok (chars text ++ tail)
  | Field name :: rest =>
      v <- Py.getitem kwargs name ;;
      tail <- str_format rest kwargs ;;
      Py.Ok (v ++ tail)
  end.

(** The keyword arguments [generate_filename] passes to [format]. *)
Definition formatted_params (param_values : combination) : Py.dict str :=
  map (fun kv => (fst kv, render (snd kv))) param_values.

(** ['batch_model_Kch_{K_ch}_Wch_{W_ch}_Wrib_{W_rib}'] *)
Definition default_format : list segment :=
  [Lit "batch_model_Kch_"; Field "K_ch"; Lit "_Wch_"; Field "W_ch";
   Lit "_Wrib_"; Field "W_rib"].

Definition empty_naming : naming_config := {| format := None; extension := None |}.

Definition naming_format (cfg : config) : list segment :=
  get_default (format (get_default (file_naming cfg) empty_naming)) default_format.

Definition naming_extension (cfg : config) : string :=
  get_default (extension (get_default (file_naming cfg) empty_naming)) ".mph".


(** ** The external world

    The Model Engine, the file system, the standard output and the interrupt
    signal are outside the program. Each call into them is answered by the
    next entry of a script, which stands for whatever the world does: the
    call completes, it raises an [Exception], or the interrupt signal arrives
    during it. An exhausted script answers [Done]. Every call is recorded
    with its answer. [PrintLine] is the [print()] that opens a run of the
    demo generator, [PrintResults] the [print] statements that close it. *)
Inductive outcome : Type := Done | Fails | Interrupted.

Inductive call : Type :=
| MakeDirs
| Connect (port : option Z)
| TemplateExists
| Load (idx : nat)
| SetupParameters (idx : nat)
| RunMesh (idx : nat)
| MeshStatistics (idx : nat)
| Save (idx : nat) (path : str)
| VerifyOutput (idx : nat)
| OutputSize (idx : nat)
| Remove (idx : nat)
| Disconnect
| WriteMetadata (idx : nat)
| WriteModel (idx : nat)
| CheckOutput (idx : nat)
| WriteSummary (total successful failed : nat)
| PrintLine
| PrintResults.

Record world : Type := {
  script : list outcome;
  trace : list (call * outcome)
}.

(** Code that calls into the world and may raise. *)
Definition M (A : Type) : Type := world -> Py.result A * world.

Definition retM {A} (a : A) : M A := fun w => (Py.Ok a, w).

Definition bindM {A B} (m : M A) (k : A -> M B) : M B :=
  fun w =>
    match m w with
    | (Py.Ok a, w') => k a w'
    | (Py.Raise e, w') => (Py.Raise e, w')
    end.

Notation "x <~ m ;; k" := (bindM m (fun x => k))
  (at level 61, m at next level, right associativity).

(** A pure step that may raise. *)
Definition lift {A} (r : Py.result A) : M A := fun w => (r, w).

Definition perform (c : call) : world -> outcome * world :=
  fun w =>
    match script w with
    | [] => (Done, {| script := []; trace := trace w ++ [(c, Done)] |})
    | o :: rest => (o, {| script := rest; trace := trace w ++ [(c, o)] |})
    end.

(** A call that raises when it fails. *)
Definition engine (c : call) : M unit :=
  fun w =>
    match perform c w with
    | (Done, w') => (Py.Ok tt, w')
    | (Fails, w') => (Py.Raise (Py.EngineError ""), w')
    | (Interrupted, w') => (Py.Raise Py.KeyboardInterrupt, w')
    end.

(** A call that answers [False] when it fails, as [os.path.exists] does. *)
Definition probe (c : call) : M bool :=
  fun w =>
    match perform c w with
    | (Done, w') => (Py.Ok true, w')
    | (Fails, w') => (Py.Ok false, w')
    | (Interrupted, w') => (Py.Raise Py.KeyboardInterrupt, w')
    end.

(** [try: body  except Exception as e: handler(e)] *)
Definition catch {A} (body : M A) (handler : Py.exn -> M A) : M A :=
  fun w =>
    match body w with
    | (Py.Raise e, w') =>
        if Py.is_Exception e then handler e w' else (Py.Raise e, w')
    | ok => ok
    end.

(** [try: body  finally: final]: an exception of [final] replaces the
    result of [body]. *)
Definition ensure {A} (body : M A) (final : M unit) : M A :=
  fun w =>
    let (r, w1) := body w in
    match final w1 with
    | (Py.Ok _, w2) => (r, w2)
    | (Py.Raise e, w2) => (Py.Raise e, w2)
    end.

(** The counters of the orchestration loop, with the values [success] took. *)
Record tally : Type := {
  success_count : nat;
  error_count : nat;
  outcomes : list bool
}.

Definition empty_tally : tally :=
  {| success_count := 0; error_count := 0; outcomes := [] |}.

(** [if success: success_count += 1  else: error_count += 1] *)
Definition count (success : bool) (t : tally) : tally :=
  if success
  then {| success_count := success_count t + 1; error_count := error_count t;
          outcomes := outcomes t ++ [true] |}
  else {| success_count := success_count t; error_count := error_count t + 1;
          outcomes := outcomes t ++ [false] |}.

Definition starts_with_slash (s : str) : bool :=
  match s with
  | c :: _ => Ascii.eqb c "/"
  | [] => false
  end.

Definition ends_with_slash (s : str) : bool :=
  match rev s with
  | c :: _ => Ascii.eqb c "/"
  | [] => false
  end.

(** [os.path.join(directory, filename)] as [posixpath] defines it, the
    scripts' paths being POSIX ones: a file name that begins with a slash
    replaces the directory, and no slash is put after an empty directory or
    after one that ends with a slash. *)
Definition path_join (directory : string) (filename : str) : str :=
  if starts_with_slash filename then filename
  else if (match chars directory with [] => true | _ :: _ => false end
           || ends_with_slash (chars directory))%bool
       then chars directory ++ filename
       else chars directory ++ chars "/" ++ filename.

(** [create_output_directory], the same in both scripts. *)
Definition create_output_directory (cfg : config) : M bool :=
  output_dir <~ lift (require "output_directory" (output_directory cfg)) ;;
  catch (_ <~ engine MakeDirs ;; retM true) (fun _ => retM false).

Module Fixed.

(** [COMSOLBatchGenerator._apply_filtering] *)
Definition _apply_filtering (combinations : list combination)
    (filtering_config : filtering_config) (g : rng) : Py.result (list combination * rng) :=
  let exclude_condition := get_default (exclude_condition filtering_config) (JDict []) in
  let sample_rate := get_default (sample_rate filtering_config) 0.5%float in
  '(filtered, excluded_count, g') <- thinning_loop combinations sample_rate ([], 0, g) ;;
  Py.Ok (filtered, g').

(** The thinning stage of [generate_parameter_combinations]. *)
Definition retained (cfg : config) (g : rng) : Py.result (list combination * rng) :=
  parameters <- require "parameters" (parameters cfg) ;;
  let all_combinations := all_combinations parameters in
  let filtering_config := get_default (batch_filtering cfg) empty_filtering in
  if nonempty filtering_config
  then _apply_filtering all_combinations filtering_config g
  else Py.Ok (all_combinations, g).

Definition effective_target (cfg : config) : Z :=
  get_default (target_count (get_default (batch_filtering cfg) empty_filtering)) 868%Z.

(** [COMSOLBatchGenerator.generate_parameter_combinations] *)
Definition generate_parameter_combinations (cfg : config) (g : rng)
    : Py.result (list combination * rng) :=
  '(filtered_combinations, g') <- retained cfg g ;;
  Py.Ok (cap filtered_combinations (effective_target cfg) g').

(** ['batch_model_param1_{param1}_param2_{param2}'] *)
Definition default_format : list segment :=
  [Lit "batch_model_param1_"; Field "param1"; Lit "_param2_"; Field "param2"].

Section Orchestrator.

(** [str(x)] for a float, which [format] applies to a value without format
    specification: part of Python, not of the scripts. *)
Variable str_of_float : float -> str.

(** [COMSOLBatchGenerator.generate_filename]: the values are passed to
    [format] as they are. *)
Definition generate_filename (cfg : config) (param_values : combination)
    : Py.result str :=
  let naming_config := get_default (file_naming cfg) empty_naming in
  let format_str := get_default (format naming_config) default_format in
  let extension := get_default (extension naming_config) ".mph" in
  filename <- str_format format_str
                (map (fun kv => (fst kv, str_of_float (snd kv))) param_values) ;;
  Py.Ok (filename ++ chars extension).

(** The loop of [COMSOLBatchGenerator.calculate_mesh_parameters]. *)
Fixpoint mesh_loop (settings : list (string * mesh_setting))
    (geom_params : combination) (mesh_params : Py.dict float)
    : Py.result (Py.dict float) :=
  match settings with
  | [] => Py.Ok mesh_params
  | (config_key, config_value) :: rest =>
      match config_value with
      | Opaque => mesh_loop rest geom_params mesh_params
      | ManySlashes => Py.Raise Py.ValueError
      | Quotient param_name divisor =>
          match Py.get geom_params param_name with
          | None => mesh_loop rest geom_params mesh_params
          | Some x =>
              d <- match divisor with
                   | Some d => Py.Ok d
                   | None => Py.Raise Py.ValueError
                   end ;;
              q <- truediv x d ;;
              mesh_loop rest geom_params (Py.setitem mesh_params config_key q)
          end
      end
  end.

(** [COMSOLBatchGenerator.calculate_mesh_parameters] *)
Definition calculate_mesh_parameters (cfg : config) (geom_params : combination)
    : Py.result (Py.dict float) :=
  mesh_loop (get_default (mesh_settings cfg) []) geom_params [].

(** [generate_mesh_for_model]: a failure of the mesh run is tolerated when
    [error_tolerance] is ["continue"], raised again otherwise. *)
Definition generate_mesh_for_model (cfg : config) (idx : nat) : M bool :=
  catch (_ <~ engine (RunMesh idx) ;; retM true)
        (fun e =>
           match error_tolerance cfg with
           | Some tolerance =>
               if String.eqb tolerance "continue" then retM false
               else lift (Py.Raise e)
           | None => lift (Py.Raise e)
           end).

(** [verify_mesh_quality]: a failure is only a warning. *)
Definition verify_mesh_quality (idx : nat) : M unit :=
  catch (engine (MeshStatistics idx)) (fun _ => retM tt).

(** [verify_output_file]: [os.path.exists], then [os.path.getsize] of a file
    that exists; the rest is logging. *)
Definition verify_output_file (idx : nat) : M unit :=
  found <~ probe (VerifyOutput idx) ;;
  if found then engine (OutputSize idx) else retM tt.

(** The [try] block of [process_single_combination] up to and including
    [model = self.client.load(template_path)]: [Some] handle when the model
    is loaded, [None] when the template file is missing ([return False]). *)
Definition acquire (cfg : config) (idx : nat) : M (option nat) :=
  template_path <~ lift (require "template_model" (template_model cfg)) ;;
  found <~ probe TemplateExists ;;
  if found then (_ <~ engine (Load idx) ;; retM (Some idx)) else retM None.

(** The rest of the [try] block, with the model loaded. *)
Definition build (cfg : config) (param_values : combination) (idx : nat) : M bool :=
  _ <~ engine (SetupParameters idx) ;;
  mesh_params <~ lift (calculate_mesh_parameters cfg param_values) ;;
  mesh_success <~ generate_mesh_for_model cfg idx ;;
  _ <~ (if mesh_success then verify_mesh_quality idx else retM tt) ;;
  filename <~ lift (generate_filename cfg param_values) ;;
  output_directory <~ lift (require "output_directory" (output_directory cfg)) ;;
  _ <~ engine (Save idx (path_join output_directory filename)) ;;
  _ <~ (if get_default (verify_output cfg) true
        then verify_output_file idx else retM tt) ;;
  retM true.

(** The [finally] clause with [model] not [None]:
    [try: self.client.remove(model)  except Exception: warning]. *)
Definition release (model : nat) : M unit :=
  catch (engine (Remove model)) (fun _ => retM tt).

(** [COMSOLBatchGenerator.process_single_combination]. The [try] block is
    cut at [client.load], the only assignment to [model]: before it the
    [finally] clause finds [model is None] and does nothing. *)
Definition process_single_combination (cfg : config) (param_values : combination)
    (idx total : nat) : M bool :=
  fun w =>
    match acquire cfg idx w with
    | (Py.Ok (Some model), w1) =>
        ensure (catch (build cfg param_values idx) (fun _ => retM false))
               (release model) w1
    | (Py.Ok None, w1) => (Py.Ok false, w1)
    | (Py.Raise e, w1) =>
        if Py.is_Exception e then (Py.Ok false, w1) else (Py.Raise e, w1)
    end.

(** The loop of [run_batch_generation]:
    [for idx, param_values in enumerate(combinations, 1)]. *)
Fixpoint process_all (cfg : config) (combinations : list combination)
    (idx total : nat) (t : tally) : M tally :=
  match combinations with
  | [] => retM t
  | param_values :: rest =>
      success <~ process_single_combination cfg param_values idx total ;;
      process_all cfg rest (S idx) total (count success t)
  end.

(** [connect_comsol_server]: a second attempt on port 8080. *)
Definition connect_comsol_server : M bool :=
  catch (_ <~ catch (engine (Connect None)) (fun _ => engine (Connect (Some 8080%Z))) ;;
         retM true)
        (fun _ => retM false).

(** Both [except] clauses of [run_batch_generation] return [False]. *)
Definition returning_false (body : M bool) : M bool :=
  fun w =>
    match body w with
    | (Py.Raise _, w') => (Py.Ok false, w')
    | ok => ok
    end.

(** The [finally] clause with [self.client] set. *)
Definition disconnect : M unit :=
  catch (engine Disconnect) (fun _ => retM tt).

(** The [try] block of [run_batch_generation] after the connection. *)
Definition generate_and_process (cfg : config) (g : rng) : M tally :=
  generated <~ lift (generate_parameter_combinations cfg g) ;;
  let combinations := fst generated in
  process_all cfg combinations 1 (List.length combinations) empty_tally.

(** [COMSOLBatchGenerator.run_batch_generation]. The [try] block is cut at
    the assignment of [self.client] in [connect_comsol_server]: before it the
    [finally] clause has nothing to disconnect. *)
Definition run_batch_generation (cfg : config) (g : rng) : M bool :=
  fun w =>
    match returning_false (create_output_directory cfg) w with
    | (Py.Ok true, w1) =>
        match returning_false connect_comsol_server w1 with
        | (Py.Ok true, w2) =>
            ensure (returning_false (_ <~ generate_and_process cfg g ;; retM true))
                   disconnect w2
        | other => other
        end
    | other => other
    end.

End Orchestrator.

End Fixed.

Module Demo.

(** The thinning stage of
    [COMSOLBatchGeneratorDemo.generate_parameter_combinations]: the rate is
    the literal [0.5]. *)
Definition retained (cfg : config) (g : rng) : Py.result (list combination * rng) :=
  parameters <- require "parameters" (parameters cfg) ;;
  let all_combinations := all_combinations parameters in
  '(parameter_combinations, _, g') <- thinning_loop all_combinations 0.5%float ([], 0, g) ;;
  Py.Ok (parameter_combinations, g').

Definition effective_target (cfg : config) : Z :=
  get_default (target_count (get_default (batch_filtering cfg) empty_filtering)) 868%Z.

(** [COMSOLBatchGeneratorDemo.generate_parameter_combinations] *)
Definition generate_parameter_combinations (cfg : config) (g : rng)
    : Py.result (list combination * rng) :=
  '(parameter_combinations, g') <- retained cfg g ;;
  Py.Ok (cap parameter_combinations (effective_target cfg) g').


(** [COMSOLBatchGeneratorDemo.calculate_mesh_parameters] *)
Definition calculate_mesh_parameters (geom_params : combination)
    : Py.result mesh_params :=
  K_ch <- Py.getitem geom_params "K_ch" ;;
  interior_mesh_size <- truediv K_ch 5 ;;
  stream_width_cells <- truediv K_ch interior_mesh_size ;;
  rounded_width <- round stream_width_cells ;;
  let actual_stream_width_cells := Z.max 1 rounded_width in
  stream_width_mesh_size <- truediv_int K_ch actual_stream_width_cells ;;
  W_ch <- Py.getitem geom_params "W_ch" ;;
  stream_depth_cells <- truediv W_ch interior_mesh_size ;;
  rounded_depth <- round stream_depth_cells ;;
  let actual_stream_depth_cells := Z.max 1 rounded_depth in
  stream_depth_mesh_size <- truediv_int W_ch actual_stream_depth_cells ;;
  Py.Ok {| interior_mesh_size := interior_mesh_size;
           stream_width_mesh_size := stream_width_mesh_size;
           stream_width_cells := actual_stream_width_cells;
           stream_depth_mesh_size := stream_depth_mesh_size;
           stream_depth_cells := actual_stream_depth_cells |}.


(** [COMSOLBatchGeneratorDemo.generate_filename] *)
Definition generate_filename (cfg : config) (param_values : combination)
    : Py.result str :=
  let format_str := naming_format cfg in
  let extension := naming_extension cfg in
  let formatted_params := formatted_params param_values in
  filename <- str_format format_str formatted_params ;;
  Py.Ok (replace_eplus (filename ++ chars extension)).

(** [COMSOLBatchGeneratorDemo.process_single_combination]: no engine, the
    metadata and a placeholder model file are written instead. *)
Definition process_single_combination (cfg : config) (param_values : combination)
    (idx total : nat) : M bool :=
  catch (template <~ lift (require "template_model" (template_model cfg)) ;;
         mesh_params <~ lift (calculate_mesh_parameters param_values) ;;
         filename <~ lift (generate_filename cfg param_values) ;;
         output_directory <~ lift (require "output_directory" (output_directory cfg)) ;;
         _ <~ engine (WriteMetadata idx) ;;
         _ <~ engine (WriteModel idx) ;;
         found <~ probe (CheckOutput idx) ;;
         if found then (_ <~ engine (OutputSize idx) ;; retM true) else retM false)
        (fun _ => retM false).

Fixpoint process_all (cfg : config) (combinations : list combination)
    (idx total : nat) (t : tally) : M tally :=
  match combinations with
  | [] => retM t
  | param_values :: rest =>
      success <~ process_single_combination cfg param_values idx total ;;
      process_all cfg rest (S idx) total (count success t)
  end.

(** [create_summary_report]: one file with the three counts. *)
Definition create_summary_report (success_count error_count total : nat) : M unit :=
  engine (WriteSummary total success_count error_count).

(** [COMSOLBatchGeneratorDemo.run_batch_generation]: a [print()] before the
    [try] block; inside it only [Exception] is handled, the summary is
    written after the loop, and the final results are printed between the
    summary and [return True]. *)
Definition run_batch_generation (cfg : config) (g : rng) : M bool :=
  _ <~ engine PrintLine ;;
  catch (created <~ create_output_directory cfg ;;
         if negb created then retM false else
         generated <~ lift (generate_parameter_combinations cfg g) ;;
         let combinations := fst generated in
         t <~ process_all cfg combinations 1 (List.length combinations) empty_tally ;;
         _ <~ create_summary_report (success_count t) (error_count t)
                (List.length combinations) ;;
         _ <~ engine PrintResults ;;
         retM true)
        (fun _ => retM false).

End Demo.

(** ** Vocabulary of the encoder properties *)

Definition is_digit (c : ascii) : bool :=
  (Nat.leb 48 (nat_of_ascii c) && Nat.leb (nat_of_ascii c) 57)%bool.

Definition all_digits (s : str) : Prop := Forall (fun c => is_digit c = true) s.

Definition is_sign (s : str) : Prop := s = [] \/ s = chars "-".

(** The presentations of NaN and the infinities. *)
Definition special (r : str) : Prop :=
  r = chars "nan" \/ r = chars "inf" \/ r = chars "-inf".

(** [sign digits . ddd] *)
Definition fixed_shape (r : str) : Prop :=
  exists sign whole frac,
    r = sign ++ whole ++ chars "." ++ frac
    /\ is_sign sign /\ all_digits whole /\ whole <> []
    /\ all_digits frac /\ List.length frac = 3.

(** [r] is [sign digits . ddd e(+|-) dd...] and [elided] is the same text
    without the [+] of a positive exponent. *)
Definition sci_shape (r elided : str) : Prop :=
  exists sign lead frac (negative : bool) ex,
    r = sign ++ lead ++ chars "." ++ frac ++ chars "e"
          ++ chars (if negative then "-" else "+") ++ ex
    /\ elided = sign ++ lead ++ chars "." ++ frac ++ chars "e"
          ++ chars (if negative then "-" else "") ++ ex
    /\ is_sign sign /\ all_digits lead /\ lead <> []
    /\ all_digits frac /\ List.length frac = 3
    /\ all_digits ex /\ 2 <= List.length ex.

Definition default_naming_config : config :=
  {| parameters := None; batch_filtering := None; file_naming := None;
     template_model := None; output_directory := None;
     error_tolerance := None; verify_output := None;
     mesh_settings := None |}.

Definition small_and_large : combination :=
  [("K_ch", 0.0034); ("W_ch", 2.5); ("W_rib", 1e7)]%float.

(** The characters a rendered value can contain. *)
Definition num_char (c : ascii) : bool :=
  (is_digit c
   || Ascii.eqb c "." || Ascii.eqb c "e" || Ascii.eqb c "+" || Ascii.eqb c "-"
   || Ascii.eqb c "i" || Ascii.eqb c "n" || Ascii.eqb c "f" || Ascii.eqb c "a")%bool.

Definition starts_with_plus (s : str) : bool :=
  match s with
  | c :: _ => Ascii.eqb c "+"
  | [] => false
  end.

Fixpoint ends_with_e (s : str) : bool :=
  match s with
  | [] => false
  | c :: rest =>
      match rest with
      | [] => Ascii.eqb c "e"
      | _ :: _ => ends_with_e rest
      end
  end.

(** The placeholder names of a template, in order. *)
Fixpoint fields (template : list segment) : list string :=
  match template with
  | [] => []
  | Lit _ :: rest => fields rest
  | Field name :: rest => name :: fields rest
  end.

(** Every placeholder is either the last one, or directly followed by
    literal text that begins with a character no rendered value contains. *)
Fixpoint separated (template : list segment) : Prop :=
  match template with
  | [] => True
  | Lit _ :: rest => separated rest
  | Field _ :: rest =>
      (fields rest = []
       \/ exists c text rest', rest = Lit (String c text) :: rest' /\ num_char c = false)
      /\ separated rest
  end.

(** A naming configuration whose two placeholders touch. *)
Definition adjacent_naming_config : config :=
  {| parameters := None; batch_filtering := None;
     file_naming := Some {| format := Some [Field "K_ch"; Field "W_ch"];
                            extension := None |};
     template_model := None; output_directory := None;
     error_tolerance := None; verify_output := None;
     mesh_settings := None |}.

Definition adjacent_first : combination := [("K_ch", 1e-10); ("W_ch", 12.0)]%float.
Definition adjacent_second : combination := [("K_ch", 1e-101); ("W_ch", 2.0)]%float.

(** Text of a mantissa, or of a whole presentation without exponent. *)
Definition mantissa_like (b : str) : Prop :=
  Forall (fun c => c <> "e"%char) b
  /\ Forall (fun c => num_char c = true) b
  /\ starts_with_plus b = false
  /\ b <> [].

(** The two forms of a rendered value: without exponent, or a mantissa, [e],
    a sign and exponent digits. The second component is what
    [replace("e+", "e")] makes of it. *)
Definition rendered (r elided : str) : Prop :=
  (mantissa_like r /\ elided = r)
  \/ (exists b (negative : bool) ex,
        mantissa_like b /\ all_digits ex /\ ex <> []
        /\ r = b ++ "e"%char :: (if negative then "-"%char else "+"%char) :: ex
        /\ elided = b ++ "e"%char :: (if negative then "-"%char :: ex else ex)).


(** ** Vocabulary of the orchestrator properties *)

(** The computation does not look at the calls made before it: started
    after any history it answers as after none, and appends its calls. *)
Definition framed {A} (m : M A) : Prop :=
  forall s t,
    m {| script := s; trace := t |}
    = (fst (m {| script := s; trace := [] |}),
       {| script := script (snd (m {| script := s; trace := [] |}));
          trace := t ++ trace (snd (m {| script := s; trace := [] |})) |}).

(** What a run makes of a script, started with an empty record of calls. *)
Definition from_script {A} (m : M A) (s : list outcome) : Py.result A * world :=
  m {| script := s; trace := [] |}.

Definition is_interrupted (ev : call * outcome) : bool :=
  match snd ev with
  | Interrupted => true
  | _ => false
  end.

Definition is_load_done (idx : nat) (ev : call * outcome) : bool :=
  match ev with
  | (Load i, Done) => Nat.eqb i idx
  | _ => false
  end.

Definition is_remove (idx : nat) (ev : call * outcome) : bool :=
  match ev with
  | (Remove i, _) => Nat.eqb i idx
  | _ => false
  end.

Definition is_save_done (idx : nat) (ev : call * outcome) : bool :=
  match ev with
  | (Save i _, Done) => Nat.eqb i idx
  | _ => false
  end.

Definition is_summary (ev : call * outcome) : bool :=
  match fst ev with
  | WriteSummary _ _ _ => true
  | _ => false
  end.

(** The calls that only give a resource back. *)
Definition is_cleanup (ev : call * outcome) : bool :=
  match fst ev with
  | Remove _ | Disconnect => true
  | _ => false
  end.

(** The combination a call belongs to, if any. *)
Definition call_index (c : call) : option nat :=
  match c with
  | Load i | SetupParameters i | RunMesh i | MeshStatistics i | Save i _
  | VerifyOutput i | OutputSize i | Remove i | WriteMetadata i | WriteModel i | CheckOutput i => Some i
  | _ => None
  end.

(** The call is made while combination [idx] is processed. *)
Definition within (idx : nat) (ev : call * outcome) : bool :=
  match fst ev with
  | TemplateExists => true
  | c => match call_index c with
         | Some i => Nat.eqb i idx
         | None => false
         end
  end.

Definition occurrences (p : call * outcome -> bool) (evs : list (call * outcome)) : nat :=
  List.length (filter p evs).

(** Every call after the first interrupted one is a cleanup call. *)
Fixpoint stops_at_interrupt (evs : list (call * outcome)) : bool :=
  match evs with
  | [] => true
  | ev :: rest =>
      if is_interrupted ev then forallb is_cleanup rest
      else stops_at_interrupt rest
  end.

(** No interrupt signal arrives. *)
Definition calm (s : list outcome) : Prop := ~ In Interrupted s.

(** A pure step raises nothing but an [Exception]. *)
Definition ordinary {A} (r : Py.result A) : Prop :=
  match r with
  | Py.Ok _ => True
  | Py.Raise e => Py.is_Exception e = true
  end.

(** A failure that no setting tolerates: of the load, of the parameter
    setup, of the save or of the size query of combination [idx]. *)
Definition is_fatal (idx : nat) (ev : call * outcome) : bool :=
  match ev with
  | (Load i, Fails) | (SetupParameters i, Fails) | (Save i _, Fails)
  | (OutputSize i, Fails) => Nat.eqb i idx
  | _ => false
  end.

(** The model of combination [idx] was saved and none of these failures
    happened to it. *)
Definition completed (idx : nat) (evs : list (call * outcome)) : bool :=
  existsb (is_save_done idx) evs && negb (existsb (is_fatal idx) evs).

(** The last call gives the model of combination [idx] back. *)
Definition ends_with_remove (idx : nat) (evs : list (call * outcome)) : bool :=
  match rev evs with
  | ev :: _ => is_remove idx ev
  | [] => false
  end.

(** What processing combination [idx] does with the script [s]: its result
    [r] and the world [w'] it leaves, started with an empty record. *)
Definition single_spec (idx : nat) (s : list outcome) (r : Py.result bool)
    (w' : world) : Prop :=
  let evs := trace w' in
  forallb (within idx) evs = true
  /\ occurrences (is_remove idx) evs = occurrences (is_load_done idx) evs
  /\ occurrences (is_load_done idx) evs <= 1
  /\ (occurrences (is_load_done idx) evs = 1 -> ends_with_remove idx evs = true)
  /\ stops_at_interrupt evs = true
  /\ (exists k, script w' = skipn k s)
  /\ (existsb is_interrupted evs = true -> In Interrupted s)
  /\ existsb is_summary evs = false
  /\ match r with
     | Py.Ok success =>
         existsb is_interrupted evs = false
         /\ success = completed idx evs
     | Py.Raise e =>
         e = Py.KeyboardInterrupt /\ existsb is_interrupted evs = true
     end.

(** The call belongs to a combination numbered [first] or later. *)
Definition from_index (first : nat) (ev : call * outcome) : bool :=
  match fst ev with
  | TemplateExists => true
  | c => match call_index c with
         | Some i => Nat.leb first i
         | None => false
         end
  end.

(** A family of tests, each of which recognises calls of one combination. *)
Definition indexed (p : nat -> call * outcome -> bool) : Prop :=
  forall i ev, p i ev = true -> call_index (fst ev) = Some i.

(** What the loop does with the script [s], started at combination [first]
    with [n] combinations to go and the counters [t]. *)
Definition loop_spec (first n : nat) (s : list outcome) (t : tally)
    (r : Py.result tally) (w' : world) : Prop :=
  let evs := trace w' in
  forallb (from_index first) evs = true
  /\ (forall i, occurrences (is_remove i) evs = occurrences (is_load_done i) evs
                /\ occurrences (is_load_done i) evs <= 1)
  /\ stops_at_interrupt evs = true
  /\ existsb is_summary evs = false
  /\ (exists k, script w' = skipn k s)
  /\ (existsb is_interrupted evs = true -> In Interrupted s)
  /\ match r with
     | Py.Ok t' =>
         existsb is_interrupted evs = false
         /\ exists new,
              outcomes t' = outcomes t ++ new
              /\ List.length new = n
              /\ success_count t' = success_count t + count_occ bool_dec new true
              /\ error_count t' = error_count t + count_occ bool_dec new false
              /\ (forall j, j < n ->
                    nth_error new j = Some (completed (first + j) evs))
     | Py.Raise e =>
         e = Py.KeyboardInterrupt /\ existsb is_interrupted evs = true
     end.



(** ** Vocabulary of interrupted runs *)

Definition is_summary_done (ev : call * outcome) : bool :=
  match ev with
  | (WriteSummary _ _ _, Done) => true
  | _ => false
  end.

Definition is_connect_done (ev : call * outcome) : bool :=
  match ev with
  | (Connect _, Done) => true
  | _ => false
  end.

Definition is_disconnect (ev : call * outcome) : bool :=
  match fst ev with
  | Disconnect => true
  | _ => false
  end.

Definition ends_with_disconnect (evs : list (call * outcome)) : bool :=
  match rev evs with
  | ev :: _ => is_disconnect ev
  | [] => false
  end.

(** The calls made before the loop. *)
Definition is_setup (ev : call * outcome) : bool :=
  match fst ev with
  | MakeDirs | Connect _ => true
  | _ => false
  end.

(** No call at all follows an interrupted one. *)
Fixpoint halts_at_interrupt (evs : list (call * outcome)) : bool :=
  match evs with
  | [] => true
  | ev :: rest =>
      if is_interrupted ev
      then match rest with [] => true | _ :: _ => false end
      else halts_at_interrupt rest
  end.

(** The result is the interrupt, passed on to the caller. *)
Definition interrupted {A} (r : Py.result A) : bool :=
  match r with
  | Py.Raise Py.KeyboardInterrupt => true
  | _ => false
  end.

(** Code without a [finally] clause and without a handler for the interrupt:
    it makes only calls that [allowed] accepts, and an interrupted call is
    its last one and its result. *)
Definition orderly {A} (allowed : call * outcome -> bool) (m : M A) : Prop :=
  forall s,
    let evs := trace (snd (from_script m s)) in
    forallb allowed evs = true
    /\ halts_at_interrupt evs = true
    /\ existsb is_interrupted evs = interrupted (fst (from_script m s)).

Definition no_summary (ev : call * outcome) : bool := negb (is_summary ev).

(** A call made before the report is due: neither the summary write nor the
    prints of the final results. *)
Definition before_report (ev : call * outcome) : bool :=
  match fst ev with
  | WriteSummary _ _ _ | PrintResults => false
  | _ => true
  end.

Definition is_disconnect_interrupted (ev : call * outcome) : bool :=
  match ev with
  | (Disconnect, Interrupted) => true
  | _ => false
  end.


(** ** A small sweep

    Two combinations, a template, an output directory and a name format
    with a placeholder the combinations have. *)
Definition sweep_config : config :=
  {| parameters := Some [("K_ch", [1.0; 2.0]); ("W_ch", [1.0]); ("W_rib", [5.0])]%float;
     batch_filtering := None;
     file_naming := Some {| format := Some [Lit "model_"; Field "K_ch"];
                            extension := None |};
     template_model := Some "template.mph"; output_directory := Some "out";
     error_tolerance := None; verify_output := None; mesh_settings := None |}.

Definition sweep : list combination :=
  [[("K_ch", 1.0); ("W_ch", 1.0); ("W_rib", 5.0)];
   [("K_ch", 2.0); ("W_ch", 1.0); ("W_rib", 5.0)]]%float.

(** [str(x)] for a float whose value is a whole number of magnitude below
    1e16, as the values of this sweep are: the digits of the number followed
    by [.0]. *)
Definition str_of_whole (x : float) : str :=
  match Prim2SF x with
  | S754_nan => chars "nan"
  | S754_infinity s => sign_str s ++ chars "inf"
  | S754_zero s => sign_str s ++ chars "0.0"
  | S754_finite s m e =>
      let (num, den) := exact_fraction m e in
      sign_str s ++ decimal (num / den) ++ chars ".0"
  end.

(** The parameter setup of the first combination fails. *)
Definition setup_fault : list outcome := [Done; Done; Fails].

(** The interrupt signal arrives during call number [n + 1]. *)
Definition interrupt_after (n : nat) : list outcome := repeat Done n ++ [Interrupted].

(** ** Vocabulary of the sampler's further properties *)

(** [l1] is [l2] with some elements left out, the others in their order. *)
Inductive subsequence {A : Type} : list A -> list A -> Prop :=
| sub_nil : subsequence [] []
| sub_skip (x : A) (l1 l2 : list A) : subsequence l1 l2 -> subsequence l1 (x :: l2)
| sub_keep (x : A) (l1 l2 : list A) : subsequence l1 l2 -> subsequence (x :: l1) (x :: l2).

(** The number of combinations the predicate is true of. *)
Definition hits (combos : list combination) : nat :=
  List.length (filter matches combos).

(** A sweep over [W_ch] alone. *)
Definition depth_only_parameters : Py.dict (list float) :=
  [("W_ch", [1.0; 2.0])]%float.

Definition depth_only_config : config :=
  {| parameters := Some depth_only_parameters; batch_filtering := None;
     file_naming := None; template_model := None; output_directory := None;
     error_tolerance := None; verify_output := None;
     mesh_settings := None |}.

(** A [batch_filtering] object that only sets the target. *)
Definition target_only (n : Z) : filtering_config :=
  {| exclude_condition := None; sample_rate := None; target_count := Some n;
     other_entries := [] |}.

(** ** Vocabulary of the further naming and mesh properties *)

(** The first placeholder of the template that the mapping has no value for. *)
Fixpoint first_missing {V} (template : list segment) (kwargs : Py.dict V)
    : option string :=
  match template with
  | [] => None
  | Lit _ :: rest => first_missing rest kwargs
  | Field name :: rest =>
      match Py.get kwargs name with
      | Some _ => first_missing rest kwargs
      | None => Some name
      end
  end.

(** The text a segment of the template stands for: a literal for itself, a
    placeholder for the presentation of the combination's value. *)
Definition piece_of (present : float -> str) (c : combination) (seg : segment)
    (piece : str) : Prop :=
  match seg with
  | Lit text => piece = chars text
  | Field name => exists v, Py.get c name = Some v /\ piece = present v
  end.

(** A character that every file system takes in a file name: a letter, a
    digit, an underscore, a dot or a hyphen. *)
Definition portable (c : ascii) : bool :=
  let n := nat_of_ascii c in
  (is_digit c
   || (Nat.leb 65 n && Nat.leb n 90) || (Nat.leb 97 n && Nat.leb n 122)
   || Ascii.eqb c "_" || Ascii.eqb c "." || Ascii.eqb c "-")%bool.

(** What an entry of [mesh_settings] contributes for the geometry [geom]. *)
Definition quotient_of (geom : combination) (setting : mesh_setting) : option float :=
  match setting with
  | Quotient param_name (Some divisor) =>
      option_map (fun x => (x / divisor)%float) (Py.get geom param_name)
  | _ => None
  end.

(** The configuration with another [mesh_settings] entry. *)
Definition with_mesh_settings (cfg : config)
    (settings : option (list (string * mesh_setting))) : config :=
  {| parameters := parameters cfg; batch_filtering := batch_filtering cfg;
     file_naming := file_naming cfg; template_model := template_model cfg;
     output_directory := output_directory cfg;
     error_tolerance := error_tolerance cfg; verify_output := verify_output cfg;
     mesh_settings := settings |}.

(** Mesh settings as the example configuration writes them, with an entry
    that is no quotient and one on a parameter the sweep does not have. *)
Definition example_mesh_settings : list (string * mesh_setting) :=
  [("interior_mesh_size", Quotient "K_ch" (Some 5%float));
   ("element_order", Opaque);
   ("rib_mesh_size", Quotient "W_rib" (Some 2%float))].

(** A combination whose channel width is zero. *)
Definition closed_channel : combination := [("K_ch", 0.0); ("W_ch", 3.0)]%float.

(** ** Vocabulary of the further orchestrator properties *)

(** The calls the batch generator makes for combination [idx], in the order
    of [process_single_combination]. *)
Definition protocol (idx : nat) (path : str) : list call :=
  [TemplateExists; Load idx; SetupParameters idx; RunMesh idx; MeshStatistics idx;
   Save idx path; VerifyOutput idx; OutputSize idx; Remove idx].

(** The calls the demo generator makes for combination [idx]. *)
Definition demo_protocol (idx : nat) : list call :=
  [WriteMetadata idx; WriteModel idx; CheckOutput idx; OutputSize idx].

(** [error_tolerance == 'continue'] *)
Definition tolerant (cfg : config) : bool :=
  match error_tolerance cfg with
  | Some tolerance => String.eqb tolerance "continue"
  | None => false
  end.

Definition is_mesh_failed (idx : nat) (ev : call * outcome) : bool :=
  match ev with
  | (RunMesh i, Fails) => Nat.eqb i idx
  | _ => false
  end.

Definition is_statistics (idx : nat) (ev : call * outcome) : bool :=
  match fst ev with
  | MeshStatistics i => Nat.eqb i idx
  | _ => false
  end.

Definition is_save (idx : nat) (ev : call * outcome) : bool :=
  match fst ev with
  | Save i _ => Nat.eqb i idx
  | _ => false
  end.

(** The combinations the calls belong to, call by call. *)
Definition indices (evs : list (call * outcome)) : list nat :=
  flat_map (fun ev => match call_index (fst ev) with
                      | Some i => [i]
                      | None => []
                      end) evs.

(** The mesh run of the first combination fails. *)
Definition mesh_fault : list outcome := [Done; Done; Done; Fails].

(** The sweep configuration with [error_tolerance] set to ["continue"]. *)
Definition tolerant_sweep_config : config :=
  {| parameters := parameters sweep_config; batch_filtering := None;
     file_naming := file_naming sweep_config;
     template_model := template_model sweep_config;
     output_directory := output_directory sweep_config;
     error_tolerance := Some "continue"; verify_output := None;
     mesh_settings := None |}.

(** ** The simulation runner

    [simulation_runner.py]. A text is a list of characters with code points
    below 256. The file system is what the code asks it: which paths exist,
    which files a directory lists and what reading each gives. *)
Module Runner.

Definition common_paths : list string :=
  ["/Applications/COMSOL/COMSOL56/Multiphysics";
   "/usr/local/comsol56/multiphysics";
   "C:/Program Files/COMSOL/COMSOL56/Multiphysics"]%string.

(** [COMSOLSimulationRunner._find_comsol]: [path_exists] is [os.path.exists],
    [comsol_env] the value of [COMSOL_PATH] if it is set. An empty string is
    false to [and]. *)
Definition _find_comsol (path_exists : string -> bool) (comsol_env : option string)
    : option string :=
  match find path_exists common_paths with
  | Some path => Some path
  | None =>
      match comsol_env with
      | Some path =>
          if (negb (String.eqb path "") && path_exists path)%bool
          then Some path else None
      | None => None
      end
  end.

(** [__init__]: [self.comsol_path = comsol_path or self._find_comsol()]. *)
Definition init (comsol_path : option string) (path_exists : string -> bool)
    (comsol_env : option string) : option string :=
  match comsol_path with
  | Some path =>
      if String.eqb path "" then _find_comsol path_exists comsol_env else Some path
  | None => _find_comsol path_exists comsol_env
  end.

(** [c.isspace()] *)
Definition is_space (c : ascii) : bool :=
  let n := nat_of_ascii c in
  ((Nat.leb 9 n && Nat.leb n 13) || (Nat.leb 28 n && Nat.leb n 32)
   || Nat.eqb n 133 || Nat.eqb n 160)%bool.

Fixpoint lstrip (s : str) : str :=
  match s with
  | [] => []
  | c :: rest => if is_space c then lstrip rest else s
  end.

Definition rstrip (s : str) : str := rev (lstrip (rev s)).

(** [s.strip()] *)
Definition strip (s : str) : str := rstrip (lstrip s).

Definition newline : ascii := ascii_of_nat 10.

(** [s.split('\n')] *)
Fixpoint split_lines (s : str) : list str :=
  match s with
  | [] => [[]]
  | c :: rest =>
      if Ascii.eqb c newline then [] :: split_lines rest
      else match split_lines rest with
           | line :: lines => (c :: line) :: lines
           | [] => [[c]]
           end
  end.

Fixpoint str_eqb (a b : str) : bool :=
  match a, b with
  | [], [] => true
  | x :: a', y :: b' => (Ascii.eqb x y && str_eqb a' b')%bool
  | _, _ => false
  end.

(** [s.endswith(suffix)] *)
Definition endswith (s suffix : str) : bool :=
  (Nat.leb (List.length suffix) (List.length s)
   && str_eqb (skipn (List.length s - List.length suffix) s) suffix)%bool.

(** What [open(file_path).read()] gives: the text, or an [Exception] with
    its message. *)
Inductive content : Type :=
| Text (data : str)
| Unreadable (message : str).

(** The dictionary [_process_results] returns; [data_points] and
    [read_errors] are the entries of its [summary], the latter those under
    the keys [error_reading_<file>], in the order they were set. *)
Record results : Type := {
  files_generated : list str;
  solution_data : option str;
  mesh_data : option str;
  data_points : option nat;
  read_errors : list (str * str)
}.

Definition initial : results :=
  {| files_generated := []; solution_data := None; mesh_data := None;
     data_points := None; read_errors := [] |}.

(** The body of the loop over [os.listdir(results_dir)]. *)
Definition process_file (r : results) (entry : str * content) : results :=
  let (file, read) := entry in
  let listed := files_generated r ++ [file] in
  if endswith file (chars ".txt") then
    match read with
    | Text data =>
        {| files_generated := listed;
           solution_data := Some (firstn 1000 data);
           mesh_data := mesh_data r;
           data_points := Some (List.length (split_lines (strip data)));
           read_errors := read_errors r |}
    | Unreadable message =>
        {| files_generated := listed; solution_data := solution_data r;
           mesh_data := mesh_data r; data_points := data_points r;
           read_errors := read_errors r ++ [(file, message)] |}
    end
  else
    {| files_generated := listed; solution_data := solution_data r;
       mesh_data := mesh_data r; data_points := data_points r;
       read_errors := read_errors r |}.

(** [COMSOLSimulationRunner._process_results], on the listing of the
    directory with what reading each file gives. *)
Definition _process_results (listing : list (str * content)) : results :=
  fold_left process_file listing initial.

(** The text of the last file of the listing that is named [*.txt] and can
    be read. *)
Fixpoint last_text (listing : list (str * content)) : option str :=
  match listing with
  | [] => None
  | (file, read) :: rest =>
      match last_text rest with
      | Some data => Some data
      | None =>
          match read with
          | Text data => if endswith file (chars ".txt") then Some data else None
          | Unreadable _ => None
          end
      end
  end.

(** The files named [*.txt] that cannot be read, with the messages. *)
Definition unreadable (listing : list (str * content)) : list (str * str) :=
  flat_map (fun entry =>
              match snd entry with
              | Unreadable message =>
                  if endswith (fst entry) (chars ".txt")
                  then [(fst entry, message)] else []
              | Text _ => []
              end) listing.

(** The data preview of [ResultProcessor.generate_summary_report]:
    [for i, line in enumerate(lines[:10])], with [total = len(lines)]. *)
Fixpoint preview_from (i : nat) (shown : list str) (total : nat) : list str :=
  match shown with
  | [] => []
  | line :: rest =>
      chars "```" :: line :: chars "```"
      :: (if Nat.ltb i (Nat.min 9 (total - 1)) then [[]] else [])
         ++ preview_from (S i) rest total
  end.

Definition data_preview (lines : list str) : list str :=
  preview_from 0 (firstn 10 lines) (List.length lines).

(** Blocks with one empty line between neighbours. *)
Fixpoint separated_blocks (blocks : list (list str)) : list str :=
  match blocks with
  | [] => []
  | [block] => block
  | block :: rest => block ++ [[]] ++ separated_blocks rest
  end.

Definition fenced (line : str) : list str := [chars "```"; line; chars "```"].

(** The update of the base configuration in [run_parameter_sweep]:
    [if "parameters" not in config: config["parameters"] = {}], then
    [config["parameters"][parameter] = value]. [None] stands for the
    [TypeError] that a configuration or a [parameters] entry other than an
    object raises. *)
Definition update_config (config : json) (parameter : string) (value : json)
    : option json :=
  match config with
  | JDict d =>
      let d1 := match Py.get d "parameters" with
                | Some _ => d
                | None => Py.setitem d "parameters" (JDict [])
                end in
      match Py.get d1 "parameters" with
      | Some (JDict ps) =>
          Some (JDict (Py.setitem d1 "parameters"
                         (JDict (Py.setitem ps parameter value))))
      | _ => None
      end
  | _ => None
  end.

(** An installation only the environment variable points to. *)
Definition only_env (path : string) : bool := String.eqb path "/opt/comsol".

(** A results directory: a log, an unreadable text file and two solutions. *)
Definition example_listing : list (str * content) :=
  [(chars "run.log", Text (chars "started"));
   (chars "locked.txt", Unreadable (chars "Permission denied"));
   (chars "first.txt", Text (chars "1 2"));
   (chars "solution_data.txt",
    Text [ascii_of_nat 10; "x"%char; ascii_of_nat 10; "y"%char; ascii_of_nat 10])].

End Runner.

(* ================================================================= *)
(** * Properties *)

(** ** itertools.product *)

Section ProductFacts.
Context {V : Type}.
Implicit Types (pool : list V) (pools : list (list V)) (idx : list nat).

Lemma product_step_cartesian pool (rest : list (list V)) (x : list V) :
  flat_map (fun z => map (app z) rest) (map (fun y => x ++ [y]) pool)
  = map (app x) (flat_map (fun y => map (cons y) rest) pool).
Proof.
  induction pool as [|y pool IH]; simpl; [reflexivity|].
  rewrite IH, map_app, map_map. f_equal.
  apply map_ext. intros r. now rewrite <- app_assoc.
Qed.

Lemma fold_product_step pools : forall res : list (list V),
  fold_left Py.product_step pools res
  = flat_map (fun x => map (app x) (cartesian pools)) res.
Proof.
  induction pools as [|pool pools IH]; intros res; simpl.
  - induction res as [|x res IHres]; simpl; [reflexivity|].
    now rewrite app_nil_r, <- IHres.
  - rewrite IH. unfold Py.product_step.
    induction res as [|x res IHres]; simpl; [reflexivity|].
    now rewrite flat_map_app, IHres, product_step_cartesian.
Qed.

Lemma product_cartesian pools : Py.product pools = cartesian pools.
Proof.
  unfold Py.product. rewrite fold_product_step. simpl.
  rewrite app_nil_r. apply map_id.
Qed.

Lemma cartesian_length pools :
  List.length (cartesian pools) = size_product pools.
Proof.
  induction pools as [|pool pools IH]; simpl; [reflexivity|].
  rewrite (flat_map_constant_length (c := size_product pools)).
  - reflexivity.
  - intros y _. now rewrite length_map.
Qed.

Lemma cartesian_tuple_length pools (vs : list V) :
  In vs (cartesian pools) -> List.length vs = List.length pools.
Proof.
  revert vs. induction pools as [|pool pools IH]; simpl; intros vs Hin.
  - destruct Hin as [<-|[]]. reflexivity.
  - apply in_flat_map in Hin as (y & _ & Hin).
    apply in_map_iff in Hin as (r & <- & Hr). simpl. f_equal. now apply IH.
Qed.

Lemma cartesian_members pools (vs : list V) :
  In vs (cartesian pools) -> Forall2 (fun v pool => In v pool) vs pools.
Proof.
  revert vs. induction pools as [|pool pools IH]; simpl; intros vs Hin.
  - destruct Hin as [<-|[]]. constructor.
  - apply in_flat_map in Hin as (y & Hy & Hin).
    apply in_map_iff in Hin as (r & <- & Hr). constructor; auto.
Qed.

Lemma position_bound pools idx :
  valid_index pools idx -> position pools idx < size_product pools.
Proof.
  unfold valid_index. intros H. induction H as [|i pool idx pools Hi _ IH]; simpl.
  - unfold size_product. simpl. lia.
  - change (fold_right Nat.mul 1 (map (@List.length V) (pool :: pools)))
      with (List.length pool * size_product pools).
    change (size_product (pool :: pools)) with (List.length pool * size_product pools).
    nia.
Qed.

Lemma nth_error_block (rest : list (list V)) pool i j v r :
  nth_error pool i = Some v -> nth_error rest j = Some r ->
  nth_error (flat_map (fun y => map (cons y) rest) pool) (i * List.length rest + j)
  = Some (v :: r).
Proof.
  revert i. induction pool as [|y pool IH]; intros i Hv Hr.
  - destruct i; discriminate.
  - assert (Hj : j < List.length rest) by (apply nth_error_Some; congruence).
    destruct i as [|i]; simpl in *.
    + injection Hv as ->. rewrite nth_error_app1 by (rewrite length_map; exact Hj).
      now rewrite nth_error_map, Hr.
    + rewrite nth_error_app2 by (rewrite length_map; lia).
      rewrite length_map.
      replace (List.length rest + i * List.length rest + j - List.length rest)
        with (i * List.length rest + j) by lia.
      now apply IH.
Qed.

Lemma cartesian_at pools idx :
  valid_index pools idx ->
  exists vs, select pools idx = Some vs
             /\ nth_error (cartesian pools) (position pools idx) = Some vs.
Proof.
  unfold valid_index. intros H. induction H as [|i pool idx pools Hi _ IH].
  - exists []. split; reflexivity.
  - destruct IH as (vs & Hsel & Hnth).
    destruct (nth_error pool i) as [v|] eqn:Hv.
    2:{ apply nth_error_None in Hv. lia. }
    exists (v :: vs). simpl. rewrite Hv, Hsel. split; [reflexivity|].
    rewrite <- cartesian_length. now apply nth_error_block.
Qed.

Lemma position_lex pools I J :
  valid_index pools I -> valid_index pools J ->
  (lex_lt I J <-> position pools I < position pools J).
Proof.
  unfold valid_index. intros HI. revert J.
  induction HI as [|i pool I pools Hi HI IH]; intros J HJ.
  - inversion HJ; subst. simpl. split; [tauto|lia].
  - inversion HJ as [|j pool' J' pools' Hj HJ']; subst. simpl.
    pose proof (position_bound pools I HI) as BI.
    pose proof (position_bound pools J' HJ') as BJ.
    specialize (IH J' HJ'). split.
    + intros [Hlt|[-> Hlex]]; [nia|]. apply IH in Hlex. lia.
    + intros Hpos. destruct (Nat.lt_trichotomy i j) as [Hlt|[->|Hgt]].
      * now left.
      * right. split; [reflexivity|]. apply IH. lia.
      * exfalso. nia.
Qed.

Lemma cartesian_NoDup pools :
  Forall (@NoDup V) pools -> NoDup (cartesian pools).
Proof.
  induction 1 as [|pool pools Hpool _ IH]; simpl.
  - constructor; [intros []|constructor].
  - induction Hpool as [|y pool Hy _ IHpool]; simpl; [constructor|].
    apply NoDup_app.
    + apply NoDup_map_NoDup_ForallPairs; [|exact IH].
      intros a b _ _ Heq. now injection Heq.
    + exact IHpool.
    + intros t Ht Ht'. apply in_map_iff in Ht as (r & <- & _).
      apply in_flat_map in Ht' as (y' & Hy' & Ht').
      apply in_map_iff in Ht' as (r' & Heq & _). injection Heq as -> _.
      contradiction.
Qed.

End ProductFacts.

(** ** dict built from a zip *)

Lemma map_fst_combine {A B} (xs : list A) (ys : list B) :
  List.length xs = List.length ys -> map fst (combine xs ys) = xs.
Proof.
  revert ys. induction xs as [|x xs IH]; intros [|y ys]; simpl; try discriminate.
  - reflexivity.
  - intros [= H]. now rewrite IH.
Qed.

Lemma map_snd_combine {A B} (xs : list A) (ys : list B) :
  List.length xs = List.length ys -> map snd (combine xs ys) = ys.
Proof.
  revert ys. induction xs as [|x xs IH]; intros [|y ys]; simpl; try discriminate.
  - reflexivity.
  - intros [= H]. now rewrite IH.
Qed.

Section DictFacts.
Context {V : Type}.
Implicit Types (d : Py.dict V) (k : string) (v : V).

Lemma setitem_fresh d k v :
  ~ In k (Py.keys d) -> Py.setitem d k v = d ++ [(k, v)].
Proof.
  induction d as [|[k' v'] d IH]; simpl; intros Hk; [reflexivity|].
  destruct (String.eqb_spec k k') as [->|_]; [tauto|].
  f_equal. apply IH. tauto.
Qed.

Lemma dict_of_fresh (pairs : list (string * V)) : forall d,
  NoDup (Py.keys d ++ map fst pairs) ->
  fold_left (fun d kv => Py.setitem d (fst kv) (snd kv)) pairs d = d ++ pairs.
Proof.
  induction pairs as [|[k v] pairs IH]; intros d Hnd; simpl.
  - now rewrite app_nil_r.
  - simpl in Hnd. rewrite setitem_fresh.
    + rewrite IH; [now rewrite <- app_assoc|].
      unfold Py.keys. rewrite map_app, <- app_assoc. exact Hnd.
    + apply NoDup_remove_2 in Hnd. intros Hin. apply Hnd, in_or_app. now left.
Qed.

Lemma dict_of_zip (names : list string) (vs : list V) :
  NoDup names -> List.length vs = List.length names ->
  Py.dict_of (Py.zip names vs) = combine names vs.
Proof.
  intros Hnd Hlen. unfold Py.dict_of, Py.zip.
  rewrite dict_of_fresh; [reflexivity|]. simpl.
  rewrite map_fst_combine; [exact Hnd|lia].
Qed.

Lemma get_In d k v : Py.get d k = Some v -> In (k, v) d.
Proof.
  induction d as [|[k' v'] d IH]; simpl; [discriminate|].
  destruct (String.eqb_spec k k') as [->|_].
  - intros [= ->]. now left.
  - intros H. right. now apply IH.
Qed.

Lemma get_None d k : Py.get d k = None <-> ~ In k (Py.keys d).
Proof.
  induction d as [|[k' v'] d IH]; simpl; [tauto|].
  destruct (String.eqb_spec k k') as [->|Hne].
  - split; [discriminate|tauto].
  - rewrite IH. split; [intros H [E|I]; [congruence|tauto]|tauto].
Qed.

End DictFacts.

(** ** Combination Generator *)

(** C1, amended. For every parameter dict with value lists of lengths
    [k1..kn] the generator returns exactly [k1 * ... * kn] combinations; each
    one has exactly the parameter names as keys, in order, with a value drawn
    from the list of its name; the combination of an index tuple sits at the
    rank of the tuple, and ranks grow exactly with the lexicographic order of
    (index into P1, index into P2, ...). The combinations are pairwise
    different when no value list repeats a value. *)
Theorem generator_cartesian_product {V} (parameters : Py.dict (list V)) :
  Py.wf parameters ->
  let pools := Py.values parameters in
  let combos := all_combinations parameters in
  List.length combos = size_product pools
  /\ (forall c, In c combos ->
        Py.keys c = Py.keys parameters
        /\ Forall2 (fun v pool => In v pool) (Py.values c) pools)
  /\ (forall idx, valid_index pools idx ->
        exists vs, select pools idx = Some vs
                   /\ nth_error combos (position pools idx)
                      = Some (Py.zip (Py.keys parameters) vs))
  /\ (forall I J, valid_index pools I -> valid_index pools J ->
        (lex_lt I J <-> position pools I < position pools J))
  /\ (Forall (@NoDup V) pools -> NoDup combos).
Proof.
  intros Hwf pools combos. subst combos. unfold all_combinations. fold pools.
  rewrite product_cartesian.
  assert (Hlen : List.length pools = List.length (Py.keys parameters))
    by (unfold pools, Py.values, Py.keys; now rewrite !length_map).
  assert (Hdict : forall vs, In vs (cartesian pools) ->
            Py.dict_of (Py.zip (Py.keys parameters) vs)
            = combine (Py.keys parameters) vs).
  { intros vs Hvs. apply dict_of_zip; [exact Hwf|].
    rewrite (cartesian_tuple_length _ _ Hvs). exact Hlen. }
  repeat split.
  - now rewrite length_map, cartesian_length.
  - apply in_map_iff in H as (vs & <- & Hvs). rewrite (Hdict _ Hvs).
    apply map_fst_combine. rewrite (cartesian_tuple_length _ _ Hvs). lia.
  - apply in_map_iff in H as (vs & <- & Hvs). rewrite (Hdict _ Hvs).
    unfold Py.values at 1. rewrite map_snd_combine.
    + now apply cartesian_members.
    + rewrite (cartesian_tuple_length _ _ Hvs). lia.
  - intros idx Hidx. destruct (cartesian_at pools idx Hidx) as (vs & Hsel & Hnth).
    exists vs. split; [exact Hsel|]. rewrite nth_error_map, Hnth. simpl.
    f_equal. apply Hdict. eapply nth_error_In; eassumption.
  - now apply position_lex.
  - now apply position_lex.
  - intros Hnd. apply NoDup_map_NoDup_ForallPairs; [|now apply cartesian_NoDup].
    intros a b Ha Hb. rewrite (Hdict _ Ha), (Hdict _ Hb). intros Heq.
    apply (f_equal (map snd)) in Heq.
    rewrite !map_snd_combine in Heq; [exact Heq| |];
      rewrite (cartesian_tuple_length _ _ Hb) || rewrite (cartesian_tuple_length _ _ Ha); lia.
Qed.

Ltac solve_wf :=
  unfold Py.wf, Py.keys; simpl;
  repeat (constructor; [simpl; intuition discriminate|]); constructor.

Lemma generator_cartesian_product_witness :
  Py.wf scenario_parameters
  /\ List.length (all_combinations scenario_parameters) = 8
  /\ NoDup (all_combinations scenario_parameters).
Proof.
  assert (Hwf : Py.wf scenario_parameters) by solve_wf.
  destruct (generator_cartesian_product scenario_parameters Hwf)
    as (Hlen & _ & _ & _ & Hnd).
  split; [exact Hwf|]. split; [exact Hlen|].
  apply Hnd. simpl.
  repeat (constructor; [repeat (constructor; [simpl; intuition discriminate|]); constructor|]).
  constructor.
Defined.

(** C1 as stated fails: with the value list [[1.0, 1.0]] the generator returns
    two combinations, and they are the same mapping. *)
Lemma generator_repeats_combination :
  Py.wf repeated_parameters
  /\ List.length (all_combinations repeated_parameters) = 2
  /\ nth_error (all_combinations repeated_parameters) 0
     = nth_error (all_combinations repeated_parameters) 1.
Proof.
  split; [solve_wf|]. split; reflexivity.
Qed.

(** ** The random source *)

Lemma unit_interval_not_below_zero (r : float) :
  in_unit_interval r = true -> PrimFloat.ltb r 0 = false.
Proof.
  unfold in_unit_interval. intros H. apply andb_prop in H as [H0 _].
  rewrite leb_spec in H0. rewrite ltb_spec.
  change (Prim2SF 0) with (S754_zero false) in *.
  unfold SFleb, SFltb in *.
  destruct (Prim2SF r) as [s|s| |s m e]; simpl in *;
    try destruct s; simpl in *; congruence.
Qed.

Lemma unit_interval_below_one (r : float) :
  in_unit_interval r = true -> PrimFloat.ltb r 1 = true.
Proof.
  unfold in_unit_interval. intros H. now apply andb_prop in H.
Qed.

Lemma random_ok (g : rng) :
  rng_ok g -> in_unit_interval (fst (random g)) = true /\ rng_ok (snd (random g)).
Proof.
  unfold rng_ok, random. intros H.
  destruct (uniforms g) as [|r rs] eqn:E; simpl.
  - split; [reflexivity|]. now rewrite E.
  - inversion H; subst. split; assumption.
Qed.

Lemma set_nth_length {A} (x : list A) n a :
  List.length (set_nth x n a) = List.length x.
Proof.
  revert n. induction x as [|b x IH]; intros [|n]; simpl; auto.
Qed.

Lemma set_nth_same {A} (x : list A) n a b :
  nth_error x n = Some b -> nth_error (set_nth x n a) n = Some a.
Proof.
  revert n. induction x as [|c x IH]; intros [|n]; simpl; try discriminate; auto.
Qed.

Lemma set_nth_other {A} (x : list A) n m a :
  n <> m -> nth_error (set_nth x n a) m = nth_error x m.
Proof.
  revert n m. induction x as [|c x IH]; intros [|n] [|m] Hne; simpl; auto;
    congruence.
Qed.

Lemma set_nth_Permutation {A} (x : list A) n a b :
  nth_error x n = Some a -> Permutation (b :: x) (a :: set_nth x n b).
Proof.
  revert n. induction x as [|c x IH]; intros [|n]; simpl; try discriminate.
  - intros [= ->]. apply perm_swap.
  - intros H. eapply perm_trans; [apply perm_swap|].
    eapply perm_trans; [apply perm_skip, (IH _ H)|]. apply perm_swap.
Qed.

Lemma swap_Permutation {A} (i j : nat) (x : list A) : Permutation x (swap i j x).
Proof.
  unfold swap.
  destruct (nth_error x i) as [a|] eqn:Hi; [|reflexivity].
  destruct (nth_error x j) as [b|] eqn:Hj; [|reflexivity].
  apply (Permutation_cons_inv (a := b)).
  eapply perm_trans; [apply (set_nth_Permutation x i a b Hi)|].
  apply set_nth_Permutation.
  destruct (Nat.eq_dec i j) as [->|Hne].
  - erewrite set_nth_same by eassumption. congruence.
  - now rewrite set_nth_other.
Qed.

Lemma shuffle_from_Permutation {A} (i : nat) : forall (x : list A) (g : rng),
  Permutation x (fst (shuffle_from i x g)).
Proof.
  induction i as [|i IH]; intros x g; cbn [shuffle_from]; [reflexivity|].
  destruct (randbelow (S i + 1) g) as [j g'].
  eapply perm_trans; [apply (swap_Permutation (S i) j)|]. apply IH.
Qed.

Lemma shuffle_Permutation {A} (x : list A) (g : rng) :
  Permutation x (fst (shuffle x g)).
Proof. apply shuffle_from_Permutation. Qed.

Lemma nth_error_middle {A} (l1 l2 : list A) (a : A) :
  nth_error (l1 ++ a :: l2) (List.length l1) = Some a.
Proof. rewrite nth_error_app2 by lia. now rewrite Nat.sub_diag. Qed.

Lemma set_nth_middle {A} (l1 l2 : list A) (a b : A) :
  set_nth (l1 ++ a :: l2) (List.length l1) b = l1 ++ b :: l2.
Proof. induction l1 as [|c l1 IH]; simpl; [reflexivity|now rewrite IH]. Qed.

(** Exchanging two elements of a list, by position. *)
Lemma swap_apart {A} (l1 l2 l3 : list A) (a b : A) :
  swap (List.length l1 + S (List.length l2)) (List.length l1)
    (l1 ++ a :: l2 ++ b :: l3)
  = l1 ++ b :: l2 ++ a :: l3.
Proof.
  unfold swap.
  assert (Hi : nth_error (l1 ++ a :: l2 ++ b :: l3)
                 (List.length l1 + S (List.length l2)) = Some b).
  { replace (l1 ++ a :: l2 ++ b :: l3) with ((l1 ++ a :: l2) ++ b :: l3)
      by (rewrite <- app_assoc; reflexivity).
    replace (List.length l1 + S (List.length l2)) with (List.length (l1 ++ a :: l2))
      by (rewrite length_app; simpl; lia).
    apply nth_error_middle. }
  rewrite Hi, nth_error_middle.
  replace (l1 ++ a :: l2 ++ b :: l3) with ((l1 ++ a :: l2) ++ b :: l3)
    by (rewrite <- app_assoc; reflexivity).
  replace (List.length l1 + S (List.length l2)) with (List.length (l1 ++ a :: l2))
    by (rewrite length_app; simpl; lia).
  rewrite set_nth_middle, <- app_assoc. cbn [app].
  now rewrite set_nth_middle.
Qed.

Lemma swap_same {A} (i : nat) (x : list A) : swap i i x = x.
Proof.
  unfold swap. destruct (nth_error x i) as [a|] eqn:Hi; [|reflexivity].
  apply nth_error_split in Hi as (l1 & l2 & -> & <-).
  now rewrite !set_nth_middle.
Qed.

Lemma randbelow_draw (n j : nat) (us : list float) (ds : list nat) :
  j < n ->
  randbelow n {| uniforms := us; draws := j :: ds |}
  = (j, {| uniforms := us; draws := ds |}).
Proof. intros Hj. unfold randbelow. cbn. now rewrite Nat.mod_small. Qed.

(** [shuffle] can produce every arrangement: whatever order of the first
    [i + 1] elements is wanted, some sequence of [i] draws gives it. *)
Lemma shuffle_from_reaches {A} (i : nat) : forall (front front' back : list A),
  List.length front = S i ->
  Permutation front front' ->
  exists ds,
    List.length ds = i
    /\ forall us, shuffle_from i (front ++ back) {| uniforms := us; draws := ds |}
                  = (front' ++ back, {| uniforms := us; draws := [] |}).
Proof.
  induction i as [|i IH]; intros front front' back Hlen Hperm.
  - exists []. split; [reflexivity|]. intros us. cbn [shuffle_from].
    destruct front as [|a [|b front]]; try discriminate Hlen.
    now apply Permutation_length_1_inv in Hperm as ->.
  - assert (Hlen' : List.length front' = S (S i))
      by (rewrite <- (Permutation_length Hperm); exact Hlen).
    destruct (exists_last (l := front')) as (f' & a & ->);
      [intros ->; discriminate Hlen'|].
    rewrite length_app in Hlen'. cbn in Hlen'.
    assert (Hin : In a front).
    { apply (Permutation_in a (Permutation_sym Hperm)), in_or_app. right. now left. }
    apply in_split in Hin as (l1 & l2 & ->).
    induction l2 as [|b l2' _] using rev_ind.
    + (* the wanted element is already the last one *)
      rewrite length_app in Hlen. cbn in Hlen.
      assert (Hrest : Permutation l1 f').
      { apply (Permutation_app_inv_r [a]). exact Hperm. }
      destruct (IH l1 f' (a :: back) ltac:(lia) Hrest) as (ds & Hds & Hrun).
      exists (S i :: ds). split; [cbn; lia|]. intros us. cbn [shuffle_from].
      rewrite randbelow_draw by lia. rewrite swap_same.
      rewrite <- !app_assoc. cbn [app]. apply Hrun.
    + rewrite !length_app in Hlen. cbn in Hlen. rewrite length_app in Hlen. cbn in Hlen.
      assert (Hrest : Permutation (l1 ++ b :: l2') f').
      { apply (Permutation_app_inv_r [a]).
        eapply perm_trans; [|exact Hperm].
        rewrite <- !app_assoc. cbn [app].
        apply Permutation_app_head.
        replace (b :: l2' ++ [a]) with ((b :: l2') ++ [a]) by reflexivity.
        replace (a :: l2' ++ [b]) with ([a] ++ l2' ++ [b]) by reflexivity.
        eapply perm_trans; [apply Permutation_app_comm|]. cbn [app].
        apply perm_skip. apply Permutation_cons_append. }
      destruct (IH (l1 ++ b :: l2') f' (a :: back)
                  ltac:(rewrite length_app; cbn; lia) Hrest) as (ds & Hds & Hrun).
      exists (List.length l1 :: ds). split; [cbn; lia|]. intros us. cbn [shuffle_from].
      rewrite randbelow_draw by lia.
      replace (S i) with (List.length l1 + S (List.length l2')) by lia.
      replace ((l1 ++ a :: l2' ++ [b]) ++ back) with (l1 ++ a :: l2' ++ b :: back)
        by (rewrite <- !app_assoc; cbn [app]; rewrite <- app_assoc; reflexivity).
      rewrite swap_apart.
      replace (l1 ++ b :: l2' ++ a :: back) with ((l1 ++ b :: l2') ++ a :: back)
        by (rewrite <- app_assoc; reflexivity).
      replace ((f' ++ [a]) ++ back) with (f' ++ a :: back)
        by (rewrite <- app_assoc; reflexivity).
      apply Hrun.
Qed.

Lemma shuffle_reaches {A} (x perm : list A) :
  Permutation x perm ->
  exists ds,
    List.length ds = List.length x - 1
    /\ forall us, shuffle x {| uniforms := us; draws := ds |}
                  = (perm, {| uniforms := us; draws := [] |}).
Proof.
  intros Hperm. unfold shuffle. destruct x as [|a x].
  - apply Permutation_nil in Hperm as ->. exists []. split; reflexivity.
  - destruct (shuffle_from_reaches (List.length x) (a :: x) perm [] eq_refl Hperm)
      as (ds & Hds & Hrun).
    exists ds. cbn [List.length]. replace (S (List.length x) - 1) with (List.length x) by lia.
    split; [exact Hds|].
    intros us. specialize (Hrun us). now rewrite !app_nil_r in Hrun.
Qed.

Lemma randbelow_consumes (n : nat) (g : rng) :
  draws (snd (randbelow n g)) = skipn 1 (draws g).
Proof. unfold randbelow. destruct (draws g) eqn:E; simpl; auto. Qed.

Lemma shuffle_from_consumes {A} (i : nat) : forall (x : list A) (g : rng),
  draws (snd (shuffle_from i x g)) = skipn i (draws g).
Proof.
  induction i as [|i IH]; intros x g; cbn [shuffle_from]; [reflexivity|].
  pose proof (randbelow_consumes (S i + 1) g) as Hd.
  destruct (randbelow (S i + 1) g) as [j g']. cbn [snd] in Hd.
  rewrite IH, Hd, skipn_skipn. f_equal. lia.
Qed.

(** ** Thinning *)

Ltac step_predicate c :=
  let E := fresh "Epred" in
  destruct (exclusion_predicate c) as [[|]|?] eqn:E; cbn [Py.bind] in *.

Lemma thinning_loop_kept (combos : list combination) (rate : float) :
  forall f n g f' n' g',
  thinning_loop combos rate (f, n, g) = Py.Ok (f', n', g') ->
  exists kept, f' = f ++ kept
    /\ (forall c, In c kept -> In c combos)
    /\ (forall c, In c combos -> matches c = false -> In c kept)
    /\ List.length kept <= List.length combos.
Proof.
  induction combos as [|c combos IH]; intros f n g f' n' g' H.
  - cbn [thinning_loop] in H. injection H as <- _ _. exists []. rewrite app_nil_r.
    repeat split; auto; intros ? [].
  - cbn [thinning_loop] in H. unfold matches.
    step_predicate c; [| |discriminate H].
    + destruct (random g) as [r g1].
      destruct (PrimFloat.ltb r rate).
      * apply IH in H as (kept & -> & Hin & Hkeep & Hlen). exists kept.
        repeat split; [|intros x [<-|Hx] Hm| simpl; lia].
        -- intros x Hx. right. auto.
        -- unfold matches in Hm. rewrite Epred in Hm. discriminate.
        -- auto.
      * apply IH in H as (kept & -> & Hin & Hkeep & Hlen). exists (c :: kept).
        rewrite <- app_assoc. repeat split; [|intros x [<-|Hx] Hm| simpl; lia].
        -- intros x [<-|Hx]; [now left|right; auto].
        -- now left.
        -- right. auto.
    + apply IH in H as (kept & -> & Hin & Hkeep & Hlen). exists (c :: kept).
      rewrite <- app_assoc. repeat split; [|intros x [<-|Hx] Hm| simpl; lia].
      * intros x [<-|Hx]; [now left|right; auto].
      * now left.
      * right. auto.
Qed.

Lemma thinning_loop_total (combos : list combination) (rate : float) :
  Forall evaluates combos ->
  forall st, exists res, thinning_loop combos rate st = Py.Ok res.
Proof.
  induction 1 as [|c combos [b Hb] _ IH]; intros [[f n] g].
  - eexists. reflexivity.
  - cbn [thinning_loop]. rewrite Hb. cbn [Py.bind].
    destruct b; [destruct (random g) as [r g1]; destruct (PrimFloat.ltb r rate)|];
      apply IH.
Qed.

Lemma thinning_loop_raises (combos : list combination) (rate : float) (e : Py.exn) :
  forall st,
  thinning_loop combos rate st = Py.Raise e <->
  exists pre c post, combos = pre ++ c :: post
    /\ Forall evaluates pre /\ exclusion_predicate c = Py.Raise e.
Proof.
  induction combos as [|c combos IH]; intros [[f n] g].
  - split; [discriminate|]. intros (pre & c & post & H & _). now destruct pre.
  - assert (Hcons : forall b,
      exclusion_predicate c = Py.Ok b ->
      (exists pre c0 post, combos = pre ++ c0 :: post
         /\ Forall evaluates pre /\ exclusion_predicate c0 = Py.Raise e) <->
      (exists pre c0 post, c :: combos = pre ++ c0 :: post
         /\ Forall evaluates pre /\ exclusion_predicate c0 = Py.Raise e)).
    { intros b Hb. split.
      - intros (pre & c0 & post & -> & Hpre & Hc0).
        exists (c :: pre), c0, post. repeat split; auto.
        constructor; [now exists b|exact Hpre].
      - intros (pre & c0 & post & Heq & Hpre & Hc0).
        destruct pre as [|p pre]; simpl in Heq; injection Heq as <- ->.
        + congruence.
        + inversion Hpre; subst. now exists pre, c0, post. }
    cbn [thinning_loop]. step_predicate c.
    + destruct (random g) as [r g1]. rewrite <- (Hcons true eq_refl).
      destruct (PrimFloat.ltb r rate); apply IH.
    + rewrite <- (Hcons false eq_refl). apply IH.
    + split.
      * intros [= ->]. exists [], c, combos. repeat split; auto.
      * intros (pre & c0 & post & Heq & Hpre & Hc0).
        destruct pre as [|p pre]; simpl in Heq; injection Heq as <- ->.
        -- congruence.
        -- inversion Hpre as [|? ? [b Hb] _]; subst. congruence.
Qed.

Lemma thinning_loop_rate_zero (combos : list combination) :
  Forall evaluates combos ->
  forall f n g, rng_ok g ->
  exists g', thinning_loop combos 0 (f, n, g) = Py.Ok (f ++ combos, n, g').
Proof.
  induction 1 as [|c combos [b Hb] _ IH]; intros f n g Hg.
  - exists g. now rewrite app_nil_r.
  - cbn [thinning_loop]. rewrite Hb. cbn [Py.bind].
    replace (f ++ c :: combos) with ((f ++ [c]) ++ combos)
      by now rewrite <- app_assoc.
    destruct b; [|now apply IH].
    destruct (random_ok g Hg) as [Hr Hg1]. destruct (random g) as [r g1].
    simpl in Hr, Hg1. rewrite (unit_interval_not_below_zero r Hr). now apply IH.
Qed.

Lemma thinning_loop_rate_one (combos : list combination) :
  Forall evaluates combos ->
  forall f n g, rng_ok g ->
  exists n' g',
    thinning_loop combos 1 (f, n, g)
    = Py.Ok (f ++ filter (fun c => negb (matches c)) combos, n', g').
Proof.
  induction 1 as [|c combos [b Hb] _ IH]; intros f n g Hg.
  - exists n, g. simpl. now rewrite app_nil_r.
  - cbn [thinning_loop filter]. unfold matches at 1. rewrite Hb. cbn [Py.bind].
    destruct b; cbn [negb].
    + destruct (random_ok g Hg) as [Hr Hg1]. destruct (random g) as [r g1].
      simpl in Hr, Hg1. rewrite (unit_interval_below_one r Hr). now apply IH.
    + replace (f ++ c :: filter (fun c => negb (matches c)) combos)
        with ((f ++ [c]) ++ filter (fun c => negb (matches c)) combos)
        by now rewrite <- app_assoc.
      now apply IH.
Qed.

(** ** The cap *)

Lemma cap_spec (l : list combination) (target : Z) (g : rng) :
  (0 <= target)%Z ->
  (Z.of_nat (List.length (fst (cap l target g))) <= target)%Z
  /\ ((target < Z.of_nat (List.length l))%Z ->
      cap l target g = (firstn (Z.to_nat target) (fst (shuffle l g)), snd (shuffle l g))
      /\ Z.of_nat (List.length (fst (cap l target g))) = target)
  /\ ((Z.of_nat (List.length l) <= target)%Z -> cap l target g = (l, g)).
Proof.
  intros Htarget. unfold cap, Py.slice_to.
  destruct (Z.ltb_spec target 0) as [Hneg|_]; [lia|].
  rewrite Z.gtb_ltb.
  destruct (Z.ltb_spec target (Z.of_nat (List.length l))) as [Hlt|Hge].
  - pose proof (shuffle_Permutation l g) as Hperm.
    destruct (shuffle l g) as [shuffled g']. simpl in *.
    pose proof (Permutation_length Hperm) as Hlen.
    rewrite length_firstn.
    split; [lia|]. split; [|lia].
    intros _. split; [reflexivity|lia].
  - simpl. split; [lia|]. split; [lia|reflexivity].
Qed.

(** C3, amended. For every configuration whose [target_count] is not
    negative and every outcome of the random source, the sampler fails exactly
    when the thinning stage fails, and otherwise returns at most
    [target_count] combinations. A retained list longer than the target is
    shuffled and cut to exactly [target_count]: the result is the beginning
    of the arrangement that [random.shuffle] makes of the retained list with
    one draw for each position but the first, and the draws decide it, since
    for every arrangement of the retained list there are draws on which the
    sampler returns the beginning of that one. A retained list at or below
    the target is returned as it is, without any draw. *)
Theorem sampler_respects_target (cfg : config) (g : rng) :
  (0 <= Fixed.effective_target cfg)%Z ->
  match Fixed.retained cfg g with
  | Py.Raise e => Fixed.generate_parameter_combinations cfg g = Py.Raise e
  | Py.Ok (kept, g1) =>
      exists combos g2,
        Fixed.generate_parameter_combinations cfg g = Py.Ok (combos, g2)
        /\ (Z.of_nat (List.length combos) <= Fixed.effective_target cfg)%Z
        /\ ((Fixed.effective_target cfg < Z.of_nat (List.length kept))%Z ->
            combos = firstn (Z.to_nat (Fixed.effective_target cfg)) (fst (shuffle kept g1))
            /\ g2 = snd (shuffle kept g1)
            /\ Permutation kept (fst (shuffle kept g1))
            /\ Z.of_nat (List.length combos) = Fixed.effective_target cfg
            /\ draws g2 = skipn (List.length kept - 1) (draws g1)
            /\ forall arrangement, Permutation kept arrangement ->
                 exists ds,
                   List.length ds = List.length kept - 1
                   /\ fst (cap kept (Fixed.effective_target cfg)
                             {| uniforms := uniforms g1; draws := ds |})
                      = firstn (Z.to_nat (Fixed.effective_target cfg)) arrangement)
        /\ ((Z.of_nat (List.length kept) <= Fixed.effective_target cfg)%Z ->
            combos = kept /\ g2 = g1)
  end.
Proof.
  intros Htarget. unfold Fixed.generate_parameter_combinations.
  destruct (Fixed.retained cfg g) as [[kept g1]|e]; cbn [Py.bind]; [|reflexivity].
  destruct (cap_spec kept (Fixed.effective_target cfg) g1 Htarget) as (Hle & Hcut & Hall).
  destruct (cap kept (Fixed.effective_target cfg) g1) as [combos g2] eqn:Ecap.
  exists combos, g2. cbn [fst] in *.
  split; [reflexivity|]. split; [exact Hle|]. split.
  - intros Hlong. destruct (Hcut Hlong) as [Heq Hlen].
    injection Heq as -> ->.
    split; [reflexivity|]. split; [reflexivity|].
    split; [apply shuffle_Permutation|]. split; [exact Hlen|].
    split; [apply shuffle_from_consumes|].
    intros arrangement Hperm.
    destruct (shuffle_reaches kept arrangement Hperm) as (ds & Hds & Hrun).
    exists ds. split; [exact Hds|].
    destruct (cap_spec kept (Fixed.effective_target cfg)
                {| uniforms := uniforms g1; draws := ds |} Htarget) as (_ & Hcut' & _).
    destruct (Hcut' Hlong) as [-> _]. cbn [fst]. now rewrite Hrun.
  - intros Hfit. injection (Hall Hfit) as -> ->. now split.
Qed.

Lemma sampler_respects_target_witness :
  (0 <= Fixed.effective_target cut_config)%Z
  /\ Fixed.retained cut_config cut_source
     = Py.Ok (all_combinations scenario_parameters,
              {| uniforms := []; draws := [2; 0; 5; 1; 3; 0; 1] |})
  /\ exists g2,
       Fixed.generate_parameter_combinations cut_config cut_source
       = Py.Ok ([[("K_ch", 3.0); ("W_ch", 3.0); ("W_rib", 10.0)];
                 [("K_ch", 3.0); ("W_ch", 1.0); ("W_rib", 5.0)];
                 [("K_ch", 3.0); ("W_ch", 3.0); ("W_rib", 5.0)]]%float, g2)
       /\ draws g2 = [].
Proof.
  assert (H : (0 <= Fixed.effective_target cut_config)%Z)
    by (vm_compute; discriminate).
  assert (Hret : Fixed.retained cut_config cut_source
                 = Py.Ok (all_combinations scenario_parameters,
                          {| uniforms := []; draws := [2; 0; 5; 1; 3; 0; 1] |}))
    by (vm_compute; reflexivity).
  split; [exact H|]. split; [exact Hret|].
  pose proof (sampler_respects_target cut_config cut_source H) as Hs.
  rewrite Hret in Hs.
  destruct Hs as (combos & g2 & Hgen & _ & Hcut & _).
  destruct Hcut as (-> & -> & _ & _ & Hdraws & _); [vm_compute; reflexivity|].
  eexists. split; [exact Hgen|]. exact Hdraws.
Defined.

(** C3 as stated fails for a negative [target_count]: the list is shuffled
    and the slice [l[:-1]] drops its last element only, so 7 of the 8
    retained combinations are returned although the target is -1. *)
Lemma negative_target_exceeded :
  exists g',
    Fixed.generate_parameter_combinations negative_target_config spent
    = Py.Ok ([[("K_ch", 1.0); ("W_ch", 1.0); ("W_rib", 10.0)];
              [("K_ch", 1.0); ("W_ch", 3.0); ("W_rib", 5.0)];
              [("K_ch", 1.0); ("W_ch", 3.0); ("W_rib", 10.0)];
              [("K_ch", 3.0); ("W_ch", 1.0); ("W_rib", 5.0)];
              [("K_ch", 3.0); ("W_ch", 1.0); ("W_rib", 10.0)];
              [("K_ch", 3.0); ("W_ch", 3.0); ("W_rib", 5.0)];
              [("K_ch", 3.0); ("W_ch", 3.0); ("W_rib", 10.0)]]%float, g')
    /\ Fixed.effective_target negative_target_config = (-1)%Z.
Proof.
  eexists. split; [vm_compute; reflexivity|reflexivity].
Qed.

(** ** Thinning rates *)

Lemma scenario_evaluates : Forall evaluates (all_combinations scenario_parameters).
Proof.
  let l := eval vm_compute in (all_combinations scenario_parameters) in
  change (all_combinations scenario_parameters) with l.
  repeat (constructor; [eexists; vm_compute; reflexivity|]). constructor.
Qed.

(** C4. Whatever the random source does, a combination on which the
    predicate is false is retained; with [sample_rate = 0] nothing is dropped;
    with [sample_rate = 1] exactly the combinations on which the predicate is
    true are dropped. In the scenario of the design document
    ([sample_rate = 1.0], [target_count = 100]) the generator returns the
    seven combinations other than (3.0, 3.0, 10.0). *)
Theorem thinning_rates (combos : list combination) (fc : filtering_config) (g : rng) :
  rng_ok g ->
  Forall evaluates combos ->
  (exists filtered g',
     Fixed._apply_filtering combos fc g = Py.Ok (filtered, g')
     /\ (forall c, In c combos -> matches c = false -> In c filtered)
     /\ (sample_rate fc = Some 0%float -> filtered = combos)
     /\ (sample_rate fc = Some 1%float ->
         filtered = filter (fun c => negb (matches c)) combos))
  /\ (exists g',
        Fixed.generate_parameter_combinations scenario_config g
        = Py.Ok (scenario_survivors, g')).
Proof.
  intros Hg Hcombos. split.
  - unfold Fixed._apply_filtering.
    destruct (thinning_loop_total combos (get_default (sample_rate fc) 0.5%float)
                Hcombos ([], 0, g)) as [[[filtered n] g'] Hloop].
    rewrite Hloop. cbn [Py.bind]. exists filtered, g'.
    split; [reflexivity|].
    destruct (thinning_loop_kept _ _ _ _ _ _ _ _ Hloop) as (kept & -> & _ & Hkeep & _).
    split; [exact Hkeep|]. split; intros Hrate; rewrite Hrate in Hloop; simpl in Hloop.
    + destruct (thinning_loop_rate_zero combos Hcombos [] 0 g Hg) as [g0 H0].
      rewrite H0 in Hloop. now injection Hloop.
    + destruct (thinning_loop_rate_one combos Hcombos [] 0 g Hg) as (n1 & g1 & H1).
      rewrite H1 in Hloop. now injection Hloop.
  - unfold Fixed.generate_parameter_combinations, Fixed.retained, Fixed._apply_filtering.
    cbn [scenario_config filtering_only parameters batch_filtering require Py.bind
         get_default nonempty sample_rate exclude_condition target_count other_entries].
    destruct (thinning_loop_rate_one _ scenario_evaluates [] 0 g Hg) as (n1 & g1 & H1).
    rewrite H1. cbn [Py.bind]. exists g1. reflexivity.
Qed.

Lemma thinning_rates_witness :
  rng_ok spent
  /\ Forall evaluates scenario_survivors
  /\ exists g',
       Fixed.generate_parameter_combinations scenario_config spent
       = Py.Ok (scenario_survivors, g').
Proof.
  assert (Hg : rng_ok spent) by constructor.
  assert (Hc : Forall evaluates scenario_survivors).
  { repeat (constructor; [eexists; vm_compute; reflexivity|]). constructor. }
  split; [exact Hg|]. split; [exact Hc|].
  exact (proj2 (thinning_rates scenario_survivors empty_filtering spent Hg Hc)).
Defined.

(** ** The fixed predicate *)

(** C9, amended. The decision of the filter is the fixed condition
    [K_ch > 2.4 and W_ch > 2.4 and W_rib > 9]: changing [exclude_condition]
    changes nothing. The filter fails with a key-lookup error exactly when
    some combination, reached after combinations that evaluate, raises one;
    and a combination raises one only for a key the short-circuit evaluation
    reaches: [K_ch] always, [W_ch] when [K_ch > 2.4], [W_rib] when both
    [K_ch > 2.4] and [W_ch > 2.4]. A combination whose [K_ch] is not above
    2.4 evaluates to false whatever keys it lacks besides. *)
Theorem exclusion_predicate_fixed :
  (forall combos fc v g,
     Fixed._apply_filtering combos (with_exclude_condition fc v) g
     = Fixed._apply_filtering combos fc g)
  /\ (forall combos fc g e,
        Fixed._apply_filtering combos fc g = Py.Raise e <->
        exists pre c post, combos = pre ++ c :: post
          /\ Forall evaluates pre /\ exclusion_predicate c = Py.Raise e)
  /\ (forall cfg g e,
        parameters cfg <> None ->
        (Demo.generate_parameter_combinations cfg g = Py.Raise e <->
         exists pre c post,
           option_map all_combinations (parameters cfg) = Some (pre ++ c :: post)
           /\ Forall evaluates pre /\ exclusion_predicate c = Py.Raise e))
  /\ (forall c : combination,
        match Py.get c "K_ch", Py.get c "W_ch", Py.get c "W_rib" with
        | None, _, _ => exclusion_predicate c = Py.Raise (Py.KeyError "K_ch")
        | Some k, None, _ =>
            exclusion_predicate c
            = if PrimFloat.ltb 2.4 k then Py.Raise (Py.KeyError "W_ch") else Py.Ok false
        | Some k, Some w, None =>
            exclusion_predicate c
            = if (PrimFloat.ltb 2.4 k && PrimFloat.ltb 2.4 w)%bool
              then Py.Raise (Py.KeyError "W_rib") else Py.Ok false
        | Some k, Some w, Some r =>
            exclusion_predicate c
            = Py.Ok (PrimFloat.ltb 2.4 k && PrimFloat.ltb 2.4 w && PrimFloat.ltb 9 r)%bool
        end).
Proof.
  split; [reflexivity|]. split; [|split].
  - intros combos fc g e. unfold Fixed._apply_filtering.
    rewrite <- (thinning_loop_raises combos (get_default (sample_rate fc) 0.5%float) e ([], 0, g)).
    destruct (thinning_loop combos _ _) as [[[f n] g']|e']; cbn [Py.bind];
      split; congruence.
  - intros cfg g e Hparams.
    unfold Demo.generate_parameter_combinations, Demo.retained.
    destruct (parameters cfg) as [params|]; [|congruence]. cbn [require Py.bind option_map].
    assert (Hloop := thinning_loop_raises (all_combinations params) 0.5%float e ([], 0, g)).
    destruct (thinning_loop (all_combinations params) _ _) as [[[f n] g']|e'];
      cbn [Py.bind].
    + split; [discriminate|]. intros (pre & c & post & [= Heq] & H).
      exfalso. enough (Hno : Py.Ok (f, n, g') = Py.Raise e) by discriminate.
      apply Hloop. now exists pre, c, post.
    + split.
      * intros [= ->]. destruct (proj1 Hloop eq_refl) as (pre & c & post & Heq & H).
        exists pre, c, post. now rewrite Heq.
      * intros (pre & c & post & [= Heq] & H). f_equal.
        enough (Hsame : @Py.Raise (list combination * nat * rng) e' = Py.Raise e)
          by now injection Hsame.
        apply Hloop. now exists pre, c, post.
  - intros c. unfold exclusion_predicate, Py.getitem.
    destruct (Py.get c "K_ch") as [k|]; cbn [Py.bind]; [|reflexivity].
    destruct (Py.get c "W_ch") as [w|]; cbn [Py.bind].
    + destruct (Py.get c "W_rib") as [r|]; cbn [Py.bind];
        destruct (PrimFloat.ltb 2.4 k), (PrimFloat.ltb 2.4 w); reflexivity.
    + destruct (Py.get c "W_rib"); destruct (PrimFloat.ltb 2.4 k); reflexivity.
Qed.

(** C9 as stated fails: a combination that lacks [W_ch] and [W_rib] but has
    [K_ch = 1.0] is retained without any error, by both scripts' filter. *)
Lemma missing_keys_retained :
  Py.get lone_channel "W_ch" = None
  /\ Py.get lone_channel "W_rib" = None
  /\ Fixed._apply_filtering [lone_channel] empty_filtering spent
     = Py.Ok ([lone_channel], spent)
  /\ thinning_loop [lone_channel] 0.5%float ([], 0, spent)
     = Py.Ok ([lone_channel], 0, spent).
Proof. repeat split. Qed.

(** ** Defaults of the filter configuration *)




(** ** Rounding in binary64 *)

Section Rounding.
Local Open Scope Z_scope.

Lemma fexp_value (e : Z) : fexp prec emax e = Z.max (e - 53) (-1074).
Proof. reflexivity. Qed.

Lemma digits2_pos_bounds (p : positive) :
  2 ^ (Zpos (digits2_pos p) - 1) <= Zpos p < 2 ^ Zpos (digits2_pos p).
Proof.
  induction p as [p IH|p IH|]; cbn [digits2_pos].
  - rewrite Pos2Z.inj_succ.
    replace (Z.succ (Zpos (digits2_pos p)) - 1) with (Z.succ (Zpos (digits2_pos p) - 1)) by lia.
    rewrite !Z.pow_succ_r by lia. lia.
  - rewrite Pos2Z.inj_succ.
    replace (Z.succ (Zpos (digits2_pos p)) - 1) with (Z.succ (Zpos (digits2_pos p) - 1)) by lia.
    rewrite !Z.pow_succ_r by lia. lia.
  - cbn. lia.
Qed.

Lemma Zdigits2_bounds (m : Z) :
  0 < m -> 0 < Zdigits2 m /\ 2 ^ (Zdigits2 m - 1) <= m < 2 ^ Zdigits2 m.
Proof.
  destruct m as [|p|p]; try lia. intros _. cbn [Zdigits2].
  split; [lia|apply digits2_pos_bounds].
Qed.

Lemma Zdigits2_unique (m d : Z) :
  0 < m -> 2 ^ (d - 1) <= m < 2 ^ d -> Zdigits2 m = d.
Proof.
  intros Hm [Hlo Hhi]. destruct (Zdigits2_bounds m Hm) as (Hd & Hlo' & Hhi').
  assert (Hpos : 0 < d).
  { destruct (Z.ltb_spec 0 d) as [|Hle]; [assumption|].
    assert (2 ^ d <= 2 ^ 0) by (destruct (Z.eq_dec d 0) as [->|]; [lia|rewrite Z.pow_neg_r by lia; cbn; lia]).
    cbn in *. lia. }
  destruct (Z.lt_trichotomy (Zdigits2 m) d) as [Hlt|[Heq|Hgt]]; [|exact Heq|].
  - assert (2 ^ Zdigits2 m <= 2 ^ (d - 1)) by (apply Z.pow_le_mono_r; lia). lia.
  - assert (2 ^ d <= 2 ^ (Zdigits2 m - 1)) by (apply Z.pow_le_mono_r; lia). lia.
Qed.

Lemma Zdigits2_nonneg (m : Z) : 0 <= m -> 0 <= Zdigits2 m.
Proof. destruct m; cbn; lia. Qed.

(** *** Shifting right *)

Lemma shr_1_floor (r : shr_record) :
  0 <= shr_m r -> shr_m (shr_1 r) = shr_m r / 2.
Proof.
  destruct r as [m r s]. cbn [shr_m]. intros Hm. unfold shr_1.
  destruct m as [|[p|p|]|p]; cbn [shr_m]; try lia.
  - reflexivity.
  - apply Z.div_unique with 1; [lia|]. rewrite Pos2Z.inj_xI. lia.
  - apply Z.div_unique with 0; [lia|]. rewrite Pos2Z.inj_xO. lia.
  - reflexivity.
Qed.

Lemma pow2_xO (p : positive) : 2 ^ Zpos p~0 = 2 ^ Zpos p * 2 ^ Zpos p.
Proof.
  replace (Zpos p~0) with (Zpos p + Zpos p) by lia.
  apply Z.pow_add_r; lia.
Qed.

Lemma pow2_xI (p : positive) : 2 ^ Zpos p~1 = 2 * (2 ^ Zpos p * 2 ^ Zpos p).
Proof.
  replace (Zpos p~1) with (1 + (Zpos p + Zpos p)) by lia.
  rewrite !Z.pow_add_r by lia. reflexivity.
Qed.

Lemma iter_shr_1_floor (p : positive) : forall r : shr_record,
  0 <= shr_m r -> shr_m (SpecFloat.iter_pos shr_1 p r) = shr_m r / 2 ^ Zpos p.
Proof.
  induction p as [p IH|p IH|]; intros r Hr; cbn [SpecFloat.iter_pos].
  - assert (Hp : 0 < 2 ^ Zpos p) by (apply Z.pow_pos_nonneg; lia).
    assert (H1 : 0 <= shr_m (shr_1 r))
      by (rewrite shr_1_floor by exact Hr; apply Z.div_pos; lia).
    assert (H2 : 0 <= shr_m (SpecFloat.iter_pos shr_1 p (shr_1 r)))
      by (rewrite IH by exact H1; apply Z.div_pos; lia).
    rewrite IH by exact H2. rewrite IH by exact H1. rewrite shr_1_floor by exact Hr.
    rewrite pow2_xI. rewrite !Z.div_div by lia. reflexivity.
  - assert (Hp : 0 < 2 ^ Zpos p) by (apply Z.pow_pos_nonneg; lia).
    assert (H2 : 0 <= shr_m (SpecFloat.iter_pos shr_1 p r))
      by (rewrite IH by exact Hr; apply Z.div_pos; lia).
    rewrite IH by exact H2. rewrite IH by exact Hr.
    rewrite pow2_xO. rewrite Z.div_div by lia. reflexivity.
  - rewrite shr_1_floor by exact Hr. reflexivity.
Qed.

Lemma shr_floor (r : shr_record) (e n : Z) :
  0 <= shr_m r ->
  snd (shr r e n) = e + Z.max n 0
  /\ shr_m (fst (shr r e n)) = shr_m r / 2 ^ Z.max n 0.
Proof.
  intros Hr. unfold shr. destruct n as [|p|p]; cbn [fst snd].
  - cbn. rewrite Z.div_1_r. split; lia.
  - rewrite Z.max_l by lia. split; [reflexivity|now apply iter_shr_1_floor].
  - rewrite Z.max_r by lia. cbn. rewrite Z.div_1_r. split; lia.
Qed.

Lemma shr_m_of_loc (m : Z) (l : location) : shr_m (shr_record_of_loc m l) = m.
Proof. destruct l as [|[]]; reflexivity. Qed.

Lemma shr_fexp_floor (m e : Z) (l : location) :
  0 <= m ->
  let n := Z.max (fexp prec emax (Zdigits2 m + e) - e) 0 in
  snd (shr_fexp prec emax m e l) = e + n
  /\ shr_m (fst (shr_fexp prec emax m e l)) = m / 2 ^ n.
Proof.
  intros Hm n. unfold shr_fexp.
  pose proof (shr_floor (shr_record_of_loc m l) e (fexp prec emax (Zdigits2 m + e) - e)) as H.
  rewrite shr_m_of_loc in H. now apply H.
Qed.

Lemma round_nearest_even_cases (m : Z) (l : location) :
  round_nearest_even m l = m \/ round_nearest_even m l = m + 1.
Proof.
  unfold round_nearest_even. destruct l as [|[]]; auto. destruct (Z.even m); auto.
Qed.

(** The anatomy of [binary_round_aux] on a mantissa that is not negative:
    a shift right by [n], a step up by at most one, a shift right by [n2]. *)
Lemma binary_round_aux_anatomy (sx : bool) (mz ez : Z) (lz : location) :
  0 <= mz ->
  exists m' m'' m''' n n2,
    n = Z.max (fexp prec emax (Zdigits2 mz + ez) - ez) 0
    /\ m' = mz / 2 ^ n
    /\ (m'' = m' \/ m'' = m' + 1)
    /\ n2 = Z.max (fexp prec emax (Zdigits2 m'' + (ez + n)) - (ez + n)) 0
    /\ m''' = m'' / 2 ^ n2
    /\ 0 <= m' /\ 0 <= m''' 
    /\ binary_round_aux prec emax sx mz ez lz
       = match m''' with
         | Z0 => S754_zero sx
         | Zpos m => if ez + n + n2 <=? 971 then S754_finite sx m (ez + n + n2)
                     else S754_infinity sx
         | Zneg _ => S754_nan
         end.
Proof.
  intros Hmz. unfold binary_round_aux.
  destruct (shr_fexp_floor mz ez lz Hmz) as [He' Hm'].
  destruct (shr_fexp prec emax mz ez lz) as [mrs' e'] eqn:E1. cbn [fst snd] in He', Hm'.
  set (n := Z.max (fexp prec emax (Zdigits2 mz + ez) - ez) 0) in *.
  assert (Hm'nn : 0 <= shr_m mrs') by (rewrite Hm'; apply Z.div_pos; [lia|apply Z.pow_pos_nonneg; lia]).
  set (m'' := round_nearest_even (shr_m mrs') (loc_of_shr_record mrs')).
  assert (Hm'' : m'' = shr_m mrs' \/ m'' = shr_m mrs' + 1) by apply round_nearest_even_cases.
  assert (Hm''nn : 0 <= m'') by lia.
  destruct (shr_fexp_floor m'' e' loc_Exact Hm''nn) as [He'' Hm'''].
  destruct (shr_fexp prec emax m'' e' loc_Exact) as [mrs'' e''] eqn:E2.
  cbn [fst snd] in He'', Hm'''.
  exists (shr_m mrs'), m'', (shr_m mrs''), n,
    (Z.max (fexp prec emax (Zdigits2 m'' + (ez + n)) - (ez + n)) 0).
  rewrite <- He'. repeat split; auto.
  - rewrite Hm'''; apply Z.div_pos; [lia|apply Z.pow_pos_nonneg; lia].
  - rewrite He''. reflexivity.
Qed.

(** *** Digits of quotients and successors *)

Lemma pow2_pos (n : Z) : 0 <= n -> 0 < 2 ^ n.
Proof. intros. apply Z.pow_pos_nonneg; lia. Qed.

Lemma pow2_split (a b : Z) : 0 <= a -> 0 <= b -> 2 ^ (a + b) = 2 ^ a * 2 ^ b.
Proof. intros. apply Z.pow_add_r; lia. Qed.

Lemma div_pow2_bounds (m n : Z) :
  0 <= n -> m / 2 ^ n * 2 ^ n <= m < (m / 2 ^ n + 1) * 2 ^ n.
Proof.
  intros Hn. pose proof (pow2_pos n Hn) as Hp.
  pose proof (Z.mul_div_le m (2 ^ n) Hp).
  pose proof (Z.mul_succ_div_gt m (2 ^ n) Hp). lia.
Qed.

Lemma div_pow2_digits (m d n : Z) :
  0 < m -> Zdigits2 m = d -> 0 <= n < d ->
  0 < m / 2 ^ n /\ Zdigits2 (m / 2 ^ n) = d - n.
Proof.
  intros Hm Hd Hn. destruct (Zdigits2_bounds m Hm) as (_ & Hlo & Hhi). rewrite Hd in *.
  pose proof (pow2_pos n ltac:(lia)) as Hp.
  assert (Hlow : 2 ^ (d - n - 1) <= m / 2 ^ n).
  { apply Z.div_le_lower_bound; [exact Hp|].
    rewrite Z.mul_comm, <- pow2_split by lia.
    now replace (d - n - 1 + n) with (d - 1) by lia. }
  assert (Hup : m / 2 ^ n < 2 ^ (d - n)).
  { apply Z.div_lt_upper_bound; [exact Hp|].
    rewrite <- pow2_split by lia. now replace (n + (d - n)) with d by lia. }
  pose proof (pow2_pos (d - n - 1) ltac:(lia)).
  split; [lia|]. apply Zdigits2_unique; [lia|]. split; assumption.
Qed.

Lemma succ_digits (m d : Z) :
  0 < m -> Zdigits2 m = d ->
  (Zdigits2 (m + 1) = d /\ m + 1 < 2 ^ d) \/ (Zdigits2 (m + 1) = d + 1 /\ m + 1 = 2 ^ d).
Proof.
  intros Hm Hd. destruct (Zdigits2_bounds m Hm) as (Hpos & Hlo & Hhi). rewrite Hd in *.
  destruct (Z.eq_dec (m + 1) (2 ^ d)) as [Heq|Hne].
  - right. split; [|exact Heq]. apply Zdigits2_unique; [lia|].
    replace (d + 1 - 1) with d by lia. rewrite pow2_split by lia. cbn. lia.
  - left. split; [|lia]. apply Zdigits2_unique; lia.
Qed.

(** *** Rounding a mantissa that has digits enough *)

(** When the exponent [ez] is not above the one the format gives a number
    of this size, [binary_round_aux] returns a valid number: a zero only
    below the smallest subnormal number, an infinity only from [2^1023] on. *)
Lemma binary_round_aux_aligned (sx : bool) (mz ez : Z) (lz : location) :
  0 <= mz ->
  ez <= fexp prec emax (Zdigits2 mz + ez) ->
  let r := binary_round_aux prec emax sx mz ez lz in
  valid_binary r = true
  /\ match r with
     | S754_nan => False
     | S754_zero s => s = sx /\ ez <= -1074 /\ mz < 2 ^ (-1074 - ez)
     | S754_infinity s => s = sx /\ 0 < mz /\ 1024 <= Zdigits2 mz + ez
     | S754_finite s m e => s = sx /\ ez <= e <= 971
     end.
Proof.
  intros Hmz Hal. cbv zeta.
  destruct (binary_round_aux_anatomy sx mz ez lz Hmz)
    as (m' & m'' & m''' & n & n2 & Hn & Hm' & Hm'' & Hn2 & Hm''' & Hm'nn & Hm'''nn & ->).
  rewrite fexp_value in *.
  set (dz := Zdigits2 mz) in *.
  assert (Hdz : 0 <= dz) by (apply Zdigits2_nonneg; exact Hmz).
  assert (Hn' : n = Z.max (dz + ez - 53) (-1074) - ez) by lia.
  assert (Hnn : 0 <= n) by lia.
  pose proof (div_pow2_bounds mz n Hnn) as Hdiv. rewrite <- Hm' in Hdiv.
  destruct (Z.eq_dec m' 0) as [Hzero|Hpos].
  - (* the mantissa is shifted out *)
    assert (He' : ez + n = -1074).
    { destruct (Z.eq_dec mz 0) as [Hmz0|Hmz0].
      - subst dz. rewrite Hmz0 in *. cbn in Hn'. lia.
      - destruct (Zdigits2_bounds mz ltac:(lia)) as (_ & Hlo & _). fold dz in Hlo.
        assert (Hlt : 2 ^ (dz - 1) < 2 ^ n) by lia.
        apply Z.pow_lt_mono_r_iff in Hlt; lia. }
    assert (Hcases : m'' = 0 \/ m'' = 1) by lia.
    assert (Hn2z : n2 = 0).
    { rewrite Hn2, He'. destruct Hcases as [-> | ->]; cbn; lia. }
    rewrite Hn2z in *. cbn in Hm'''. rewrite Z.div_1_r in Hm'''. subst m'''.
    replace (ez + n + 0) with (-1074) by lia.
    destruct Hcases as [-> | ->]; cbv iota.
    + split; [reflexivity|]. split; [reflexivity|]. split; [lia|].
      replace (-1074 - ez) with n by lia. rewrite Hzero in Hdiv. lia.
    + change (-1074 <=? 971) with true. cbv iota.
      split; [reflexivity|]. split; [reflexivity|]. lia.
  - (* the shifted mantissa has at most 53 digits *)
    assert (Hmzpos : 0 < mz).
    { destruct (Z.eq_dec mz 0) as [Hmz0|]; [|lia].
      rewrite Hmz0 in Hm'. rewrite Z.div_0_l in Hm'; [lia|].
      pose proof (pow2_pos n Hnn). lia. }
    assert (Hlt : n < dz).
    { destruct (Z.lt_ge_cases n dz) as [|Hge]; [assumption|exfalso].
      destruct (Zdigits2_bounds mz Hmzpos) as (_ & _ & Hhi). fold dz in Hhi.
      assert (2 ^ dz <= 2 ^ n) by (apply Z.pow_le_mono_r; lia).
      assert (m' * 2 ^ n < 2 ^ n) by lia.
      pose proof (pow2_pos n Hnn). nia. }
    destruct (div_pow2_digits mz dz n Hmzpos eq_refl ltac:(lia)) as [Hm'pos Hd'].
    rewrite <- Hm' in Hm'pos, Hd'.
    set (e' := ez + n) in *.
    assert (He' : e' = Z.max (dz + ez - 53) (-1074)) by (subst e'; lia).
    assert (Hcanon : Z.max (Zdigits2 m' + e' - 53) (-1074) = e')
      by (rewrite Hd'; subst e'; lia).
    assert (Hd53 : Zdigits2 m' <= 53) by (rewrite Hd'; subst e'; lia).
    assert (Hfinal : exists e'',
               (e'' = e' \/ e'' = e' + 1)
               /\ e'' = e' + n2
               /\ 0 < m'''
               /\ Z.max (Zdigits2 m''' + e'' - 53) (-1074) = e'').
    { destruct Hm'' as [->|Hm''].
      - exists e'. assert (Hn2z : n2 = 0) by (rewrite Hn2; lia).
        rewrite Hn2z in *. cbn in Hm'''. rewrite Z.div_1_r in Hm'''. subst m'''.
        repeat split; auto; lia.
      - destruct (succ_digits m' (Zdigits2 m') Hm'pos eq_refl) as [[Hd'' Hin]|[Hd'' Heq]];
          rewrite <- Hm'' in Hd'', Hin || rewrite <- Hm'' in Hd'', Heq.
        + exists e'. assert (Hn2z : n2 = 0) by (rewrite Hn2, Hd''; lia).
          rewrite Hn2z in *. cbn in Hm'''. rewrite Z.div_1_r in Hm'''. subst m'''.
          rewrite Hd''. repeat split; auto; lia.
        + destruct (Z.eq_dec (Zdigits2 m') 53) as [H53|H53].
          * exists (e' + 1).
            assert (Hn2o : n2 = 1) by (rewrite Hn2, Hd'', H53; lia).
            rewrite Hn2o in *. rewrite Heq, H53 in Hm'''.
            change (2 ^ 53 / 2 ^ 1) with (2 ^ 52) in Hm'''. subst m'''.
            change (Zdigits2 (2 ^ 52)) with 53. repeat split; auto; lia.
          * exists e'.
            assert (Hn2z : n2 = 0) by (rewrite Hn2, Hd''; lia).
            rewrite Hn2z in *. cbn in Hm'''. rewrite Z.div_1_r in Hm'''. subst m'''.
            rewrite Hd''. repeat split; auto; lia. }
    destruct Hfinal as (e'' & Hrange & -> & Hpos''' & Hcanon'').
    destruct m''' as [|p|p]; try lia.
    destruct (Z.leb_spec (e' + n2) 971) as [Hle|Hgt]; cbn [valid_binary].
    + split.
      * unfold bounded, canonical_mantissa. rewrite fexp_value.
        apply andb_true_intro. split; [apply Z.eqb_eq; exact Hcanon''|apply Z.leb_le; exact Hle].
      * split; [reflexivity|]. subst e'. lia.
    + split; [reflexivity|]. split; [reflexivity|]. split; [exact Hmzpos|]. lia.
Qed.

(** *** The rounded mantissa is within one unit of the exact one *)

Lemma binary_round_aux_near (sx : bool) (mz ez : Z) (lz : location) (a b : Z)
    (s : bool) (m : positive) (e : Z) :
  0 <= mz -> 0 < b -> mz * b <= a < (mz + 1) * b ->
  binary_round_aux prec emax sx mz ez lz = S754_finite s m e ->
  exists N, 0 <= N /\ e = ez + N /\ Z.abs (Zpos m * 2 ^ N * b - a) <= 2 ^ N * b.
Proof.
  intros Hmz Hb Ha Hr.
  destruct (binary_round_aux_anatomy sx mz ez lz Hmz)
    as (m' & m'' & m''' & n & n2 & Hn & Hm' & Hm'' & Hn2 & Hm''' & Hm'nn & Hm'''nn & Heq).
  rewrite Heq in Hr.
  assert (Hnn : 0 <= n) by lia. assert (Hnn2 : 0 <= n2) by lia.
  pose proof (div_pow2_bounds mz n Hnn) as Hdiv. rewrite <- Hm' in Hdiv.
  pose proof (div_pow2_bounds m'' n2 Hnn2) as Hdiv2. rewrite <- Hm''' in Hdiv2.
  destruct m''' as [|p|p]; try discriminate Hr.
  destruct (ez + n + n2 <=? 971); [|discriminate Hr].
  injection Hr as _ <- <-.
  exists (n + n2). split; [lia|]. split; [lia|].
  rewrite pow2_split by lia.
  pose proof (pow2_pos n Hnn) as HP. pose proof (pow2_pos n2 Hnn2) as HP2.
  set (P := 2 ^ n) in *. set (P2 := 2 ^ n2) in *. set (q := Zpos p) in *.
  assert (Hup : q * P2 * P <= mz + P) by nia.
  assert (Hlow : mz + 1 <= (q + 1) * P2 * P) by nia.
  assert (Hupb : q * P2 * P * b <= (mz + P) * b) by (apply Z.mul_le_mono_nonneg_r; lia).
  assert (Hlowb : (mz + 1) * b <= (q + 1) * P2 * P * b)
    by (apply Z.mul_le_mono_nonneg_r; lia).
  assert (HPb : P * b <= P * P2 * b) by nia.
  apply Z.abs_le. nia.
Qed.

(** *** Division *)

Lemma SFdiv_core_spec (mx my : positive) (ex ey : Z) :
  exists q ez l s,
    SFdiv_core_binary prec emax (Zpos mx) ex (Zpos my) ey = (q, ez, l)
    /\ 0 <= s /\ ez = ex - ey - s /\ 0 <= q
    /\ q * Zpos my <= Zpos mx * 2 ^ s < (q + 1) * Zpos my
    /\ ez <= fexp prec emax (Zdigits2 q + ez).
Proof.
  unfold SFdiv_core_binary. rewrite !fexp_value.
  set (d1 := Zdigits2 (Zpos mx)). set (d2 := Zdigits2 (Zpos my)).
  set (ez := Z.min (Z.max (d1 + ex - (d2 + ey) - 53) (-1074)) (ex - ey)).
  set (s := ex - ey - ez).
  assert (Hs : 0 <= s) by (subst s ez; lia).
  set (m' := match s with Zpos _ => Z.shiftl (Zpos mx) s | Z0 => Zpos mx | Zneg _ => 0 end).
  assert (Hm' : m' = Zpos mx * 2 ^ s).
  { subst m'. destruct s as [|p|p] eqn:Es; [cbn; lia| |lia].
    rewrite Z.shiftl_mul_pow2 by lia. reflexivity. }
  pose proof (Z_div_mod m' (Zpos my) ltac:(lia)) as Hdm.
  destruct (Z.div_eucl m' (Zpos my)) as [q r]. destruct Hdm as [Hdm Hr].
  exists q, ez, (new_location (Zpos my) r), s.
  pose proof (pow2_pos s Hs) as HPs.
  assert (Hq : 0 <= q) by nia.
  split; [reflexivity|]. split; [exact Hs|]. split; [subst s; lia|]. split; [exact Hq|].
  split; [rewrite <- Hm'; lia|].
  rewrite fexp_value.
  destruct (Z.le_gt_cases ez (-1074)) as [Hsmall|Hbig]; [lia|].
  assert (Hs53 : 53 - d1 + d2 <= s) by (subst s ez; lia).
  destruct (Zdigits2_bounds (Zpos mx) ltac:(lia)) as (Hd1 & Hlo1 & _).
  destruct (Zdigits2_bounds (Zpos my) ltac:(lia)) as (Hd2 & _ & Hhi2).
  fold d1 in Hd1, Hlo1. fold d2 in Hd2, Hhi2.
  assert (Hbig' : 2 ^ 52 * 2 ^ d2 <= Zpos mx * 2 ^ s).
  { rewrite <- pow2_split by lia.
    apply Z.le_trans with (2 ^ (d1 - 1) * 2 ^ s).
    - rewrite <- pow2_split by lia. apply Z.pow_le_mono_r; lia.
    - apply Z.mul_le_mono_nonneg_r; lia. }
  assert (Hq52 : 2 ^ 52 <= q).
  { assert (2 ^ 52 * Zpos my < (q + 1) * Zpos my) by nia.
    assert (2 ^ 52 < q + 1) by (apply Z.mul_lt_mono_pos_r with (Zpos my); lia).
    lia. }
  destruct (Zdigits2_bounds q ltac:(lia)) as (Hdq & _ & Hhiq).
  assert (Hlt : 2 ^ 52 < 2 ^ Zdigits2 q) by lia.
  apply Z.pow_lt_mono_r_iff in Hlt; lia.
Qed.

(** The quotient of two finite numbers, against the exact one: with
    [x = mx * 2^ex] and [y = my * 2^ey], so that
    [x / y = (mx * 2^s / my) * 2^(ex - ey - s)]. *)
Lemma SFdiv_finite_spec (sx sy : bool) (mx my : positive) (ex ey : Z) :
  exists s, 0 <= s /\
    match SF64div (S754_finite sx mx ex) (S754_finite sy my ey) with
    | S754_nan => False
    | S754_zero sg =>
        sg = xorb sx sy /\ ex - ey - s <= -1074
        /\ Zpos mx * 2 ^ s < 2 ^ (-1074 - (ex - ey - s)) * Zpos my
    | S754_infinity sg =>
        sg = xorb sx sy
        /\ exists k, 0 <= k /\ 1023 <= k + (ex - ey - s)
                     /\ 2 ^ k * Zpos my <= Zpos mx * 2 ^ s
    | S754_finite sg m e =>
        sg = xorb sx sy
        /\ exists N, 0 <= N /\ e = ex - ey - s + N
                     /\ Z.abs (Zpos m * 2 ^ N * Zpos my - Zpos mx * 2 ^ s)
                        <= 2 ^ N * Zpos my
    end.
Proof.
  unfold SF64div, SFdiv.
  destruct (SFdiv_core_spec mx my ex ey)
    as (q & ez & l & s & -> & Hs & Hez & Hq & Hdiv & Hal).
  exists s. split; [exact Hs|]. rewrite <- Hez.
  pose proof (binary_round_aux_aligned (xorb sx sy) q ez l Hq Hal) as Haligned.
  cbv zeta in Haligned.
  pose proof (binary_round_aux_near (xorb sx sy) q ez l (Zpos mx * 2 ^ s) (Zpos my)) as Hnear.
  destruct (binary_round_aux prec emax (xorb sx sy) q ez l) as [sg|sg| |sg m e].
  - destruct Haligned as (_ & -> & Hsmall & Hq').
    split; [reflexivity|]. split; [exact Hsmall|].
    pose proof (pow2_pos (-1074 - ez) ltac:(lia)). nia.
  - destruct Haligned as (_ & -> & Hqpos & Hbig).
    split; [reflexivity|]. exists (Zdigits2 q - 1).
    destruct (Zdigits2_bounds q Hqpos) as (Hdq & Hlo & _).
    split; [lia|]. split; [lia|]. nia.
  - now destruct Haligned.
  - destruct Haligned as (_ & -> & _).
    split; [reflexivity|]. apply (Hnear (xorb sx sy) m e); auto; lia.
Qed.

(** *** The conversion of integers *)

Lemma iter_xO_value (d mx : positive) :
  Zpos (Pos.iter xO mx d) = Zpos mx * 2 ^ Zpos d.
Proof.
  induction d as [|d IH] using Pos.peano_ind.
  - cbn. lia.
  - rewrite Pos.iter_succ, Pos2Z.inj_xO, IH, Pos2Z.inj_succ, Z.pow_succ_r by lia. lia.
Qed.

Lemma binary_round_aux_exact (sx : bool) (m : positive) (e : Z) :
  fexp prec emax (Zdigits2 (Zpos m) + e) = e -> e <= 971 ->
  binary_round_aux prec emax sx (Zpos m) e loc_Exact = S754_finite sx m e.
Proof.
  intros Hcanon Hle. unfold binary_round_aux, shr_fexp.
  rewrite Hcanon, Z.sub_diag. cbn [shr shr_record_of_loc shr_m loc_of_shr_record
                                    round_nearest_even].
  rewrite Hcanon, Z.sub_diag. cbn [shr shr_record_of_loc shr_m].
  apply Z.leb_le in Hle. change (emax - prec) with 971. now rewrite Hle.
Qed.

(** What [shl_align] hands to the rounding in [binary_round]. *)
Lemma shl_align_spec (mx : positive) (ex : Z) :
  let ex' := fexp prec emax (Zpos (digits2_pos mx) + ex) in
  exists mz ez,
    shl_align mx ex ex' = (mz, ez)
    /\ Z.min ex ex' = ez
    /\ Zpos mz = Zpos mx * 2 ^ (ex - ez)
    /\ ez <= fexp prec emax (Zdigits2 (Zpos mz) + ez).
Proof.
  cbv zeta. rewrite fexp_value. unfold shl_align.
  set (d := Zpos (digits2_pos mx)).
  set (ex' := Z.max (d + ex - 53) (-1074)).
  destruct (ex' - ex) as [|p|p] eqn:Ediff.
  - exists mx, ex. replace (ex - ex) with 0 by lia. cbn [Z.pow].
    split; [reflexivity|]. split; [lia|]. split; [lia|].
    rewrite fexp_value. cbn [Zdigits2]. fold d. lia.
  - exists mx, ex. replace (ex - ex) with 0 by lia. cbn [Z.pow].
    split; [reflexivity|]. split; [lia|]. split; [lia|].
    rewrite fexp_value. cbn [Zdigits2]. fold d. lia.
  - exists (Pos.iter xO mx p), ex'.
    assert (Hval : Zpos (Pos.iter xO mx p) = Zpos mx * 2 ^ (ex - ex'))
      by (rewrite iter_xO_value; f_equal; f_equal; lia).
    split; [reflexivity|]. split; [lia|]. split; [exact Hval|].
    rewrite fexp_value.
    assert (Hd : Zdigits2 (Zpos (Pos.iter xO mx p)) = d + (ex - ex')).
    { apply Zdigits2_unique; [lia|]. rewrite Hval.
      pose proof (digits2_pos_bounds mx) as [Hlo Hhi]. fold d in Hlo, Hhi.
      assert (Hd0 : 0 < d) by (subst d; lia).
      pose proof (pow2_pos (ex - ex') ltac:(lia)).
      replace (d + (ex - ex') - 1) with (d - 1 + (ex - ex')) by lia.
      rewrite !pow2_split by lia. nia. }
    rewrite Hd. lia.
Qed.

Lemma binary_normalize_spec (n : Z) :
  1 <= n ->
  let r := binary_normalize prec emax n 0 false in
  valid_binary r = true
  /\ match r with
     | S754_finite s m e => s = false /\ -52 <= e
     | S754_infinity s => True
     | _ => False
     end
  /\ (n < 2 ^ 53 ->
      exists m e, r = S754_finite false m e /\ e <= 0 /\ Zpos m = n * 2 ^ (- e)).
Proof.
  intros Hn. destruct n as [|p|p]; try lia. cbv zeta.
  unfold binary_normalize, binary_round.
  destruct (shl_align_spec p 0) as (mz & ez & Halign & Hez & Hval & Hal).
  cbv zeta in Halign. rewrite Halign.
  assert (Hez52 : -52 <= ez <= 0).
  { rewrite fexp_value in Hez. pose proof (digits2_pos_bounds p). lia. }
  pose proof (binary_round_aux_aligned false (Zpos mz) ez loc_Exact ltac:(lia) Hal) as H.
  cbv zeta in H. destruct H as [Hvalid Hshape].
  split; [exact Hvalid|]. split.
  - destruct (binary_round_aux prec emax false (Zpos mz) ez loc_Exact) as [s|s| |s m e].
    + destruct Hshape as (_ & Hsmall & _). lia.
    + exact I.
    + exact Hshape.
    + destruct Hshape as (-> & Hle & _). split; [reflexivity|lia].
  - intros Hsmall. exists mz, ez.
    assert (Hd : Zdigits2 (Zpos p) <= 53).
    { destruct (Zdigits2_bounds (Zpos p) ltac:(lia)) as (Hd0 & Hlo & _).
      destruct (Z.le_gt_cases (Zdigits2 (Zpos p)) 53) as [|Hgt]; [assumption|exfalso].
      assert (2 ^ 53 <= 2 ^ (Zdigits2 (Zpos p) - 1)) by (apply Z.pow_le_mono_r; lia).
      lia. }
    cbn [Zdigits2] in Hd. rewrite fexp_value in Hez.
    assert (Hez' : ez = Zpos (digits2_pos p) - 53) by lia.
    split; [|split; [lia|rewrite Hval; f_equal; f_equal; lia]].
    apply binary_round_aux_exact; [|lia].
    rewrite fexp_value.
    assert (Hdz : Zdigits2 (Zpos mz) = 53).
    { apply Zdigits2_unique; [lia|]. rewrite Hval.
      pose proof (digits2_pos_bounds p) as [Hlo Hhi].
      pose proof (pow2_pos (0 - ez) ltac:(lia)).
      replace 53 with (Zpos (digits2_pos p) + (0 - ez)) at 2 by lia.
      replace (53 - 1) with (Zpos (digits2_pos p) - 1 + (0 - ez)) by lia.
      rewrite !pow2_split by lia. nia. }
    rewrite Hdz. lia.
Qed.

Lemma float_of_int_spec (n : Z) (nf : float) :
  1 <= n ->
  match binary_normalize prec emax n 0 false with
  | S754_infinity _ => True
  | sf =>
      SF2Prim sf = nf ->
      exists m e, Prim2SF nf = S754_finite false m e /\ -52 <= e
                  /\ (n < 2 ^ 53 -> e <= 0 /\ Zpos m = n * 2 ^ (- e))
  end.
Proof.
  intros Hn. destruct (binary_normalize_spec n Hn) as (Hvalid & Hshape & Hexact).
  destruct (binary_normalize prec emax n 0 false) as [s|s| |s m e] eqn:Er;
    try contradiction; [exact I|].
  intros <-. destruct Hshape as [-> He]. exists m, e.
  rewrite Prim2SF_SF2Prim by exact Hvalid. split; [reflexivity|]. split; [exact He|].
  intros Hsmall. destruct (Hexact Hsmall) as (m0 & e0 & [= <- <-] & Hle & Hm). auto.
Qed.

(** *** Exact values *)

Lemma two_not_zero : ~ (2 == 0)%Q.
Proof. intros H. discriminate H. Qed.

Lemma pow2Q_pos (e : Z) : (0 < 2 ^ e)%Q.
Proof. apply Qpower_0_lt. reflexivity. Qed.

Lemma pow2Q_plus (a b : Z) : (2 ^ (a + b) == 2 ^ a * 2 ^ b)%Q.
Proof. apply Qpower_plus, two_not_zero. Qed.

Lemma pow2Q_inject (n : Z) : (0 <= n)%Z -> (inject_Z (2 ^ n) == 2 ^ n)%Q.
Proof. intros Hn. now rewrite Zpower_Qpower. Qed.

Lemma pow2Q_le (a b : Z) : (a <= b)%Z -> (2 ^ a <= 2 ^ b)%Q.
Proof. intros Hab. apply Qpower_le_compat_l; [exact Hab|]. discriminate. Qed.

Lemma magnitude_pos (m : positive) (e : Z) : (0 < magnitude m e)%Q.
Proof.
  unfold magnitude. apply Qmult_lt_0_compat; [reflexivity|apply pow2Q_pos].
Qed.

Lemma scaled_difference (A B C : Z) (F : Q) :
  (Z.abs (A - B) <= C)%Z -> (0 <= F)%Q ->
  (Qabs (inject_Z A * F - inject_Z B * F) <= inject_Z C * F)%Q.
Proof.
  intros H HF.
  setoid_replace (inject_Z A * F - inject_Z B * F)%Q with (inject_Z (A - B) * F)%Q
    by (unfold Z.sub; rewrite inject_Z_plus, inject_Z_opp; ring).
  rewrite Qabs_Qmult, (Qabs_pos F) by exact HF.
  apply Qmult_le_compat_r; [|exact HF].
  change (Qabs (inject_Z (A - B))) with (inject_Z (Z.abs (A - B))).
  now rewrite <- Zle_Qle.
Qed.

Lemma magnitude_near (m mx my : positive) (e ex ey s N : Z) :
  (0 <= s)%Z -> (0 <= N)%Z -> e = (ex - ey - s + N)%Z ->
  (Z.abs (Zpos m * 2 ^ N * Zpos my - Zpos mx * 2 ^ s) <= 2 ^ N * Zpos my)%Z ->
  (Qabs (magnitude m e * magnitude my ey - magnitude mx ex) <= 2 ^ e * magnitude my ey)%Q.
Proof.
  intros Hs HN He H. unfold magnitude.
  set (u := (ex - ey - s)%Z).
  replace e with (u + N)%Z by lia. replace ex with (u + ey + s)%Z by lia.
  pose proof (scaled_difference _ _ _ (2 ^ u * 2 ^ ey)%Q H) as Hq.
  assert (HF : (0 <= 2 ^ u * 2 ^ ey)%Q)
    by (apply Qmult_le_0_compat; apply Qlt_le_weak, pow2Q_pos).
  specialize (Hq HF).
  rewrite !inject_Z_mult, !pow2Q_inject in Hq by assumption.
  rewrite !pow2Q_plus.
  setoid_replace (inject_Z (Zpos m) * (2 ^ u * 2 ^ N) * (inject_Z (Zpos my) * 2 ^ ey)
                  - inject_Z (Zpos mx) * (2 ^ u * 2 ^ ey * 2 ^ s))%Q
    with (inject_Z (Zpos m) * 2 ^ N * inject_Z (Zpos my) * (2 ^ u * 2 ^ ey)
          - inject_Z (Zpos mx) * 2 ^ s * (2 ^ u * 2 ^ ey))%Q by ring.
  setoid_replace (2 ^ u * 2 ^ N * (inject_Z (Zpos my) * 2 ^ ey))%Q
    with (2 ^ N * inject_Z (Zpos my) * (2 ^ u * 2 ^ ey))%Q by ring.
  exact Hq.
Qed.

Lemma magnitude_below (mx my : positive) (ex ey s : Z) :
  (0 <= s)%Z -> (ex - ey - s <= -1074)%Z ->
  (Zpos mx * 2 ^ s < 2 ^ (-1074 - (ex - ey - s)) * Zpos my)%Z ->
  (magnitude mx ex < 2 ^ (-1074) * magnitude my ey)%Q.
Proof.
  intros Hs Hez H. unfold magnitude.
  set (u := (ex - ey - s)%Z) in *.
  replace ex with (u + ey + s)%Z by lia.
  rewrite Zlt_Qlt in H.
  rewrite !inject_Z_mult, !pow2Q_inject in H by lia.
  apply (Qmult_lt_compat_r _ _ (2 ^ u * 2 ^ ey)%Q) in H;
    [|apply Qmult_lt_0_compat; apply pow2Q_pos].
  rewrite !pow2Q_plus.
  setoid_replace (inject_Z (Zpos mx) * (2 ^ u * 2 ^ ey * 2 ^ s))%Q
    with (inject_Z (Zpos mx) * 2 ^ s * (2 ^ u * 2 ^ ey))%Q by ring.
  eapply Qlt_le_trans; [exact H|].
  setoid_replace (2 ^ (-1074 - u) * inject_Z (Zpos my) * (2 ^ u * 2 ^ ey))%Q
    with ((2 ^ (-1074 - u) * 2 ^ u) * (inject_Z (Zpos my) * 2 ^ ey))%Q by ring.
  rewrite <- pow2Q_plus. replace (-1074 - u + u)%Z with (-1074)%Z by lia.
  apply Qle_refl.
Qed.

Lemma magnitude_above (mx my : positive) (ex ey s k : Z) :
  (0 <= s)%Z -> (0 <= k)%Z -> (1023 <= k + (ex - ey - s))%Z ->
  (2 ^ k * Zpos my <= Zpos mx * 2 ^ s)%Z ->
  (2 ^ 1023 * magnitude my ey <= magnitude mx ex)%Q.
Proof.
  intros Hs Hk Hbig H. unfold magnitude.
  set (u := (ex - ey - s)%Z) in *.
  replace ex with (u + ey + s)%Z by lia.
  rewrite Zle_Qle in H.
  rewrite !inject_Z_mult, !pow2Q_inject in H by lia.
  apply (Qmult_le_compat_r _ _ (2 ^ u * 2 ^ ey)%Q) in H;
    [|apply Qmult_le_0_compat; apply Qlt_le_weak, pow2Q_pos].
  rewrite !pow2Q_plus.
  setoid_replace (inject_Z (Zpos mx) * (2 ^ u * 2 ^ ey * 2 ^ s))%Q
    with (inject_Z (Zpos mx) * 2 ^ s * (2 ^ u * 2 ^ ey))%Q by ring.
  eapply Qle_trans; [|exact H].
  setoid_replace (2 ^ k * inject_Z (Zpos my) * (2 ^ u * 2 ^ ey))%Q
    with ((2 ^ k * 2 ^ u) * (inject_Z (Zpos my) * 2 ^ ey))%Q by ring.
  rewrite <- pow2Q_plus.
  apply Qmult_le_compat_r; [apply pow2Q_le; lia|].
  apply Qlt_le_weak, (magnitude_pos my ey).
Qed.

(** The binary64 quotient of two finite floats against their magnitudes. *)
Lemma quotient_near (x y : float) (sx sy : bool) (mx my : positive) (ex ey : Z) :
  Prim2SF x = S754_finite sx mx ex ->
  Prim2SF y = S754_finite sy my ey ->
  match Prim2SF (x / y) with
  | S754_nan => False
  | S754_zero _ => (magnitude mx ex < 2 ^ (-1074) * magnitude my ey)%Q
  | S754_infinity _ => (2 ^ 1023 * magnitude my ey <= magnitude mx ex)%Q
  | S754_finite s m e =>
      s = xorb sx sy
      /\ (Qabs (magnitude m e * magnitude my ey - magnitude mx ex)
          <= 2 ^ e * magnitude my ey)%Q
  end.
Proof.
  intros Hx Hy. rewrite div_spec, Hx, Hy.
  destruct (SFdiv_finite_spec sx sy mx my ex ey) as (s & Hs & H).
  destruct (SF64div (S754_finite sx mx ex) (S754_finite sy my ey)) as [sg|sg| |sg m e].
  - destruct H as (_ & Hez & Hlt). now apply (magnitude_below mx my ex ey s).
  - destruct H as (_ & k & Hk & Hbig & Hle). now apply (magnitude_above mx my ex ey s k).
  - exact H.
  - destruct H as (-> & N & HN & He & Hnear). split; [reflexivity|].
    now apply (magnitude_near m mx my e ex ey s N).
Qed.

(** *** Valid floats *)

Lemma valid_finite (s : bool) (m : positive) (e : Z) :
  valid_binary (S754_finite s m e) = true ->
  (Zpos m < 2 ^ 53 /\ -1074 <= e <= 971 /\ (2 ^ 52 <= Zpos m \/ e = -1074))%Z.
Proof.
  cbn [SpecFloat.valid_binary]. unfold bounded, canonical_mantissa.
  rewrite fexp_value. intros H. apply andb_prop in H as [Hc Hb].
  apply Z.eqb_eq in Hc. apply Z.leb_le in Hb. change (emax - prec)%Z with 971%Z in Hb.
  pose proof (digits2_pos_bounds m) as [Hlo Hhi].
  set (d := Zpos (digits2_pos m)) in *.
  destruct (Z.le_gt_cases (-1074) (d + e - 53)) as [Hn|Hsub].
  - assert (Hd : d = 53%Z) by lia. rewrite Hd in Hlo, Hhi.
    change (53 - 1)%Z with 52%Z in Hlo. lia.
  - assert (Hd : (d <= 52)%Z) by lia.
    assert ((2 ^ d <= 2 ^ 52)%Z) by (apply Z.pow_le_mono_r; lia).
    assert ((2 ^ 52 < 2 ^ 53)%Z) by reflexivity. lia.
Qed.

Lemma magnitude_valid (s : bool) (m : positive) (e : Z) :
  valid_binary (S754_finite s m e) = true ->
  (magnitude m e < 2 ^ 1024)%Q
  /\ ((2 ^ 52 * 2 ^ e <= magnitude m e)%Q \/ e = (-1074)%Z).
Proof.
  intros H. destruct (valid_finite s m e H) as (Hm & He & Hnormal). unfold magnitude.
  split.
  - replace 1024%Z with (53 + 971)%Z by reflexivity. rewrite pow2Q_plus.
    rewrite Zlt_Qlt, pow2Q_inject in Hm by lia.
    apply Qlt_le_trans with (2 ^ 53 * 2 ^ e)%Q.
    + apply Qmult_lt_compat_r; [apply pow2Q_pos|exact Hm].
    + rewrite (Qmult_comm (2 ^ 53)), (Qmult_comm (2 ^ 53)).
      apply Qmult_le_compat_r; [apply pow2Q_le; lia|apply Qlt_le_weak, pow2Q_pos].
  - destruct Hnormal as [Hn|Hs]; [left|now right].
    rewrite Zle_Qle, pow2Q_inject in Hn by lia.
    apply Qmult_le_compat_r; [exact Hn|apply Qlt_le_weak, pow2Q_pos].
Qed.

Lemma exact_finite (x : float) (s : bool) (m : positive) (e : Z) :
  Prim2SF x = S754_finite s m e ->
  exact x = (if s then (- magnitude m e)%Q else magnitude m e)
  /\ (Qabs (exact x) == magnitude m e)%Q.
Proof.
  intros H. unfold exact. rewrite H. split; [reflexivity|].
  pose proof (magnitude_pos m e) as Hpos.
  destruct s; [rewrite Qabs_opp|]; apply Qabs_pos; now apply Qlt_le_weak.
Qed.

(** *** The product of quotient and divisor *)

(** For a finite [D] and a positive finite divisor [nf] that is at least
    [2^(-52)]: the binary64 quotient [D / nf], multiplied exactly by [nf],
    misses [D] by no more than the rounding allowance, provided it is a
    number; and it is one whenever [|D|] is at most a million. *)
Lemma quotient_reproduces (D nf : float) (sd : bool) (md m2 : positive) (ed e2 : Z) :
  Prim2SF D = S754_finite sd md ed ->
  Prim2SF nf = S754_finite false m2 e2 ->
  (-52 <= e2)%Z ->
  (is_number (D / nf) = true ->
   (Qabs (exact (D / nf) * exact nf - exact D) <= rounding_allowance (exact D))%Q)
  /\ ((Qabs (exact D) <= 1000000)%Q -> is_number (D / nf) = true).
Proof.
  intros HD Hnf He2.
  pose proof (quotient_near D nf sd false md m2 ed e2 HD Hnf) as Hnear.
  pose proof (Prim2SF_valid (D / nf)) as Hvq.
  pose proof (Prim2SF_valid nf) as Hvn. rewrite Hnf in Hvn.
  destruct (magnitude_valid _ _ _ Hvn) as [HYmax _].
  destruct (exact_finite D sd md ed HD) as [HeD HaD].
  destruct (exact_finite nf false m2 e2 Hnf) as [HeN _].
  pose proof (magnitude_pos md ed) as HX. pose proof (magnitude_pos m2 e2) as HY.
  set (X := magnitude md ed) in *. set (Y := magnitude m2 e2) in *.
  assert (Hsmall : (2 ^ (-1074) * Y <= 2 ^ (-50))%Q).
  { replace (-50)%Z with (-1074 + 1024)%Z by reflexivity. rewrite pow2Q_plus.
    apply Qmult_le_l; [apply pow2Q_pos|now apply Qlt_le_weak]. }
  assert (HYmin : (2 ^ (-52) <= Y)%Q).
  { unfold Y, magnitude.
    apply Qle_trans with (1 * 2 ^ e2)%Q.
    - rewrite Qmult_1_l. apply pow2Q_le. exact He2.
    - apply Qmult_le_compat_r; [|apply Qlt_le_weak, pow2Q_pos].
      rewrite <- (Zle_Qle 1). lia. }
  unfold rounding_allowance. rewrite HaD. unfold is_number.
  destruct (Prim2SF (D / nf)) as [sq|sq| |sq mq eq] eqn:Hq.
  - (* the quotient underflows to zero *)
    split; [intros _|reflexivity].
    unfold exact at 1. rewrite Hq.
    setoid_replace (0 * exact nf - exact D)%Q with (- exact D)%Q by ring.
    rewrite Qabs_opp, HaD.
    assert (H50 : (0 < X * (1 # 4503599627370495))%Q)
      by (apply Qmult_lt_0_compat; [exact HX|reflexivity]).
    apply Qle_trans with (2 ^ (-50))%Q; [|lra].
    apply Qlt_le_weak. eapply Qlt_le_trans; [exact Hnear|exact Hsmall].
  - (* an infinite quotient needs a large dimension *)
    split; [discriminate|]. intros Hmillion. exfalso.
    assert (Hbig : (2 ^ 20 <= 2 ^ 1023 * Y)%Q).
    { replace 20%Z with (1023 + (-1003))%Z by reflexivity. rewrite pow2Q_plus.
      apply Qmult_le_l; [apply pow2Q_pos|].
      apply Qle_trans with (2 ^ (-52))%Q; [apply pow2Q_le; lia|exact HYmin]. }
    change (2 ^ 20)%Q with (1048576 # 1)%Q in Hbig. lra.
  - contradiction.
  - split; [intros _|reflexivity].
    destruct Hnear as [-> Hnear]. rewrite xorb_false_r in Hq.
    destruct (exact_finite (D / nf) sd mq eq Hq) as [HeQ _].
    destruct (magnitude_valid _ _ _ Hvq) as [_ Hnormal].
    pose proof (magnitude_pos mq eq) as HM.
    set (M := magnitude mq eq) in *.
    assert (Herr : (Qabs (exact (D / nf) * exact nf - exact D) == Qabs (M * Y - X))%Q).
    { rewrite HeQ, HeN, HeD. destruct sd; [|reflexivity].
      setoid_replace (- M * Y - - X)%Q with (- (M * Y - X))%Q by ring.
      apply Qabs_opp. }
    rewrite Herr.
    apply Qabs_Qle_condition in Hnear as [Hlo Hhi].
    apply Qabs_Qle_condition.
    pose proof (pow2Q_pos eq) as Hpe.
    destruct Hnormal as [Hn| ->].
    + assert (Hunit : (2 ^ 52 * (2 ^ eq * Y) <= M * Y)%Q).
      { rewrite Qmult_assoc. apply Qmult_le_compat_r; [exact Hn|now apply Qlt_le_weak]. }
      change (2 ^ 52)%Q with (4503599627370496 # 1)%Q in Hunit.
      change (2 ^ (-50))%Q with (1 # 1125899906842624)%Q.
      set (t := (M * Y)%Q) in *. set (w := (2 ^ eq * Y)%Q) in *.
      split; lra.
    + change (2 ^ (-50))%Q with (1 # 1125899906842624)%Q in *.
      set (t := (M * Y)%Q) in *. set (w := (2 ^ (-1074) * Y)%Q) in *.
      split; lra.
Qed.

(** *** Multiplication *)

(** The binary64 product of a finite float and a normal one: the rounded
    result lies within one unit of its last place of the exact product. *)
Lemma SFmul_finite_spec (sx sy : bool) (mx my : positive) (ex ey : Z) :
  2 ^ 52 <= Zpos my ->
  match SF64mul (S754_finite sx mx ex) (S754_finite sy my ey) with
  | S754_nan => False
  | S754_zero sg =>
      sg = xorb sx sy /\ ex + ey <= -1074
      /\ Zpos mx * Zpos my < 2 ^ (-1074 - (ex + ey))
  | S754_infinity sg =>
      sg = xorb sx sy
      /\ exists d, 0 <= d /\ 1023 <= d + (ex + ey) /\ 2 ^ d <= Zpos mx * Zpos my
  | S754_finite sg m e =>
      sg = xorb sx sy
      /\ exists N, 0 <= N /\ e = ex + ey + N
                   /\ Z.abs (Zpos m * 2 ^ N - Zpos mx * Zpos my) <= 2 ^ N
  end.
Proof.
  intros Hnormal. unfold SF64mul, SFmul.
  set (mz := Zpos (mx * my)). set (ez := ex + ey).
  assert (Hmz : mz = Zpos mx * Zpos my) by reflexivity.
  assert (Hpos : 0 < mz) by (subst mz; lia).
  destruct (Zdigits2_bounds mz Hpos) as (Hd & Hlo & Hhi).
  assert (Hd53 : 53 <= Zdigits2 mz).
  { destruct (Z.lt_ge_cases (Zdigits2 mz) 53) as [Hlt|]; [exfalso|assumption].
    assert (2 ^ Zdigits2 mz <= 2 ^ 52) by (apply Z.pow_le_mono_r; lia).
    nia. }
  assert (Hal : ez <= fexp prec emax (Zdigits2 mz + ez)) by (rewrite fexp_value; lia).
  destruct (binary_round_aux_aligned (xorb sx sy) mz ez loc_Exact ltac:(lia) Hal)
    as [_ Hshape].
  pose proof (binary_round_aux_near (xorb sx sy) mz ez loc_Exact mz 1) as Hnear.
  destruct (binary_round_aux prec emax (xorb sx sy) mz ez loc_Exact) as [s|s| |s m e].
  - destruct Hshape as (-> & Hez & Hsmall). rewrite <- Hmz. auto.
  - destruct Hshape as (-> & _ & Hbig). split; [reflexivity|].
    exists (Zdigits2 mz - 1). rewrite <- Hmz. repeat split; lia.
  - exact Hshape.
  - destruct Hshape as (-> & _). split; [reflexivity|].
    destruct (Hnear (xorb sx sy) m e ltac:(lia) ltac:(lia) ltac:(lia) eq_refl)
      as (N & HN & He & Habs).
    exists N. rewrite <- Hmz. repeat split; auto. rewrite !Z.mul_1_r in Habs. exact Habs.
Qed.

Lemma magnitude_mult (mx my : positive) (ex ey : Z) :
  (magnitude mx ex * magnitude my ey
   == inject_Z (Zpos mx * Zpos my) * 2 ^ (ex + ey))%Q.
Proof.
  unfold magnitude. rewrite inject_Z_mult, pow2Q_plus. ring.
Qed.

(** The binary64 product against the magnitudes of its factors. *)
Lemma product_near (x y : float) (sx sy : bool) (mx my : positive) (ex ey : Z) :
  Prim2SF x = S754_finite sx mx ex ->
  Prim2SF y = S754_finite sy my ey ->
  2 ^ 52 <= Zpos my ->
  match Prim2SF (x * y) with
  | S754_nan => False
  | S754_zero _ => (magnitude mx ex * magnitude my ey < 2 ^ (-1074))%Q
  | S754_infinity _ => (2 ^ 1023 <= magnitude mx ex * magnitude my ey)%Q
  | S754_finite s m e =>
      s = xorb sx sy
      /\ (Qabs (magnitude m e - magnitude mx ex * magnitude my ey) <= 2 ^ e)%Q
  end.
Proof.
  intros Hx Hy Hnormal. rewrite mul_spec, Hx, Hy.
  pose proof (SFmul_finite_spec sx sy mx my ex ey Hnormal) as H.
  pose proof (magnitude_mult mx my ex ey) as Hmm.
  set (P := Zpos mx * Zpos my) in *. set (ez := ex + ey) in *.
  pose proof (pow2Q_pos ez) as Hez.
  destruct (SF64mul (S754_finite sx mx ex) (S754_finite sy my ey)) as [sg|sg| |sg m e];
    rewrite ?Hmm.
  - destruct H as (_ & Hle & Hlt).
    rewrite Zlt_Qlt, pow2Q_inject in Hlt by lia.
    apply (Qmult_lt_compat_r _ _ (2 ^ ez)%Q) in Hlt; [|exact Hez].
    rewrite <- pow2Q_plus in Hlt. now replace (-1074 - ez + ez) with (-1074) in Hlt by lia.
  - destruct H as (_ & d & Hd & Hbig & Hle).
    rewrite Zle_Qle, pow2Q_inject in Hle by lia.
    apply (Qmult_le_compat_r _ _ (2 ^ ez)%Q) in Hle; [|now apply Qlt_le_weak].
    rewrite <- pow2Q_plus in Hle.
    eapply Qle_trans; [|exact Hle]. apply pow2Q_le. lia.
  - exact H.
  - destruct H as (-> & N & HN & -> & Habs). split; [reflexivity|].
    pose proof (scaled_difference _ _ _ (2 ^ ez)%Q Habs ltac:(now apply Qlt_le_weak)) as Hq.
    rewrite inject_Z_mult, !pow2Q_inject in Hq by lia.
    unfold magnitude. rewrite !pow2Q_plus.
    setoid_replace (inject_Z (Zpos m) * (2 ^ ez * 2 ^ N))%Q
      with (inject_Z (Zpos m) * 2 ^ N * 2 ^ ez)%Q by ring.
    setoid_replace (2 ^ ez * 2 ^ N)%Q with (2 ^ N * 2 ^ ez)%Q by ring.
    exact Hq.
Qed.

End Rounding.

(** ** Mesh Parameter Calculator *)

Lemma truediv_ok (a b q : float) :
  truediv a b = Py.Ok q -> q = (a / b)%float /\ PrimFloat.eqb b 0 = false.
Proof.
  unfold truediv. destruct (PrimFloat.eqb b 0); [discriminate|].
  intros [= <-]. now split.
Qed.

Lemma round_ok (x : float) (r : Z) : round x = Py.Ok r -> is_number x = true.
Proof.
  unfold round, is_number. now destruct (Prim2SF x).
Qed.

(** A quotient by a non-zero divisor is a number only if the dividend is. *)
Lemma number_dividend (a b : float) :
  PrimFloat.eqb b 0 = false -> is_number (a / b) = true -> is_number a = true.
Proof.
  unfold is_number at 2. destruct (Prim2SF a) as [s|s| |s m e] eqn:Ha;
    [reflexivity| | |reflexivity]; intros Hb; unfold is_number;
    rewrite div_spec, Ha; rewrite FloatAxioms.eqb_spec in Hb;
    destruct (Prim2SF b) as [s'|s'| |s' m' e']; simpl in *; congruence.
Qed.

Lemma float_of_int_ok (n : Z) (nf : float) :
  (1 <= n)%Z -> float_of_int n = Py.Ok nf ->
  exists m e, Prim2SF nf = S754_finite false m e /\ (-52 <= e)%Z
              /\ ((n < 2 ^ 53)%Z -> (e <= 0)%Z /\ Zpos m = (n * 2 ^ (- e))%Z).
Proof.
  intros Hn. unfold float_of_int. pose proof (float_of_int_spec n nf Hn) as H.
  destruct (binary_normalize prec emax n 0 false); [| discriminate | |];
    intros [= E]; exact (H E).
Qed.

Lemma float_of_int_small (n : Z) :
  (1 <= n < 2 ^ 53)%Z -> exists nf, float_of_int n = Py.Ok nf.
Proof.
  intros [Hn Hsmall]. unfold float_of_int.
  destruct (binary_normalize_spec n Hn) as (_ & _ & Hexact).
  destruct (Hexact Hsmall) as (m & e & -> & _). eauto.
Qed.

Lemma exact_of_int (nf : float) (n : Z) (m : positive) (e : Z) :
  Prim2SF nf = S754_finite false m e -> (e <= 0)%Z -> Zpos m = (n * 2 ^ (- e))%Z ->
  (exact nf == inject_Z n)%Q.
Proof.
  intros H He Hm. unfold exact. rewrite H. unfold magnitude. rewrite Hm.
  rewrite inject_Z_mult, pow2Q_inject by lia.
  rewrite <- Qmult_assoc, <- pow2Q_plus.
  replace (- e + e)%Z with 0%Z by lia. change (2 ^ 0)%Q with 1%Q. ring.
Qed.

Lemma allowance_small (D : Q) :
  (Qabs D <= 1000000)%Q -> (rounding_allowance D < 1 # 1000000000)%Q.
Proof.
  intros H. unfold rounding_allowance.
  change (2 ^ (-50))%Q with (1 # 1125899906842624)%Q. lra.
Qed.

(** The binary64 product of the quotient [D / nf] and [nf]: for [|D|] up to
    a million it is a number within [1e-9] of [D]. *)
Lemma product_reproduces (D nf : float) (m2 : positive) (e2 : Z) :
  is_number D = true ->
  Prim2SF nf = S754_finite false m2 e2 ->
  (-52 <= e2)%Z ->
  (Qabs (exact D) <= 1000000)%Q ->
  is_number (D / nf * nf) = true
  /\ (Qabs (exact (D / nf * nf) - exact D) < 1 # 1000000000)%Q.
Proof.
  intros HD Hnf He2 Hmillion.
  pose proof (Prim2SF_valid nf) as Hvn. rewrite Hnf in Hvn.
  destruct (valid_finite _ _ _ Hvn) as (_ & _ & [Hnormal|Hsub]); [|lia].
  unfold is_number in HD. destruct (Prim2SF D) as [sd|sd| |sd md ed] eqn:ED; try discriminate.
  - (* a zero dimension *)
    assert (Hq : Prim2SF (D / nf) = S754_zero (xorb sd false))
      by (rewrite div_spec, ED, Hnf; reflexivity).
    assert (Hp : Prim2SF (D / nf * nf) = S754_zero (xorb (xorb sd false) false))
      by (rewrite mul_spec, Hq, Hnf; reflexivity).
    unfold is_number, exact. rewrite Hp, ED. split; reflexivity.
  - destruct (quotient_reproduces D nf sd md m2 ed e2 ED Hnf He2) as [Hnear Hnum].
    specialize (Hnum Hmillion). specialize (Hnear Hnum).
    pose proof (allowance_small _ Hmillion) as Hallow.
    pose proof (quotient_near D nf sd false md m2 ed e2 ED Hnf) as Hsign.
    destruct (exact_finite D sd md ed ED) as [HeD HaD].
    destruct (exact_finite nf false m2 e2 Hnf) as [HeN _].
    unfold rounding_allowance in *. rewrite HaD in *.
    pose proof (magnitude_pos md ed) as HX. pose proof (magnitude_pos m2 e2) as HN.
    set (X := magnitude md ed) in *. set (N := magnitude m2 e2) in *.
    unfold is_number in Hnum.
    destruct (Prim2SF (D / nf)) as [sq|sq| |sq mq eq] eqn:Hq; try discriminate.
    + (* the mesh size is zero *)
      assert (Hp : Prim2SF (D / nf * nf) = S754_zero (xorb sq false))
        by (rewrite mul_spec, Hq, Hnf; reflexivity).
      assert (HeQ : exact (D / nf) = 0%Q) by (unfold exact; now rewrite Hq).
      assert (HeP : exact (D / nf * nf) = 0%Q) by (unfold exact; now rewrite Hp).
      split; [unfold is_number; now rewrite Hp|].
      rewrite HeQ in Hnear. rewrite HeP.
      setoid_replace (0 - exact D)%Q with (0 * exact nf - exact D)%Q by ring.
      eapply Qle_lt_trans; [exact Hnear|exact Hallow].
    + destruct Hsign as [-> _]. rewrite xorb_false_r in Hq.
      destruct (exact_finite (D / nf) sd mq eq Hq) as [HeQ _].
      pose proof (magnitude_pos mq eq) as HS. set (S := magnitude mq eq) in *.
      assert (Herr : (Qabs (S * N - X) <= X * (1 # 4503599627370495) + 2 ^ (-50))%Q).
      { eapply Qle_trans; [|exact Hnear]. rewrite HeQ, HeN, HeD.
        destruct sd; [|apply Qle_refl].
        setoid_replace (- S * N - - X)%Q with (- (S * N - X))%Q by ring.
        rewrite Qabs_opp. apply Qle_refl. }
      apply Qabs_Qle_condition in Herr as [Hlo Hhi].
      change (2 ^ (-50))%Q with (1 # 1125899906842624)%Q in *.
      pose proof (product_near (D / nf) nf sd false mq m2 eq e2 Hq Hnf Hnormal) as Hprod.
      pose proof (Prim2SF_valid (D / nf * nf)) as Hvp.
      fold S N in Hprod. set (SN := (S * N)%Q) in *.
      destruct (Prim2SF (D / nf * nf)) as [sp|sp| |sp mp ep] eqn:Hp.
      * assert (HeP : exact (D / nf * nf) = 0%Q) by (unfold exact; now rewrite Hp).
        split; [unfold is_number; now rewrite Hp|]. rewrite HeP.
        setoid_replace (0 - exact D)%Q with (- exact D)%Q by ring.
        rewrite Qabs_opp, HaD.
        assert (Htiny : (2 ^ (-1074) <= 2 ^ (-50))%Q) by (apply pow2Q_le; lia).
        change (2 ^ (-50))%Q with (1 # 1125899906842624)%Q in Htiny. lra.
      * exfalso.
        assert (Hbig : (2 ^ 21 <= 2 ^ 1023)%Q) by (apply pow2Q_le; lia).
        change (2 ^ 21)%Q with (2097152 # 1)%Q in Hbig. lra.
      * contradiction.
      * destruct Hprod as [-> Hprod]. rewrite xorb_false_r in Hp.
        destruct (exact_finite (D / nf * nf) sd mp ep Hp) as [HeP _].
        destruct (magnitude_valid _ _ _ Hvp) as [_ Hshape].
        pose proof (magnitude_pos mp ep) as HP. set (P := magnitude mp ep) in *.
        split; [unfold is_number; now rewrite Hp|].
        assert (Hdiff : (Qabs (exact (D / nf * nf) - exact D) == Qabs (P - X))%Q).
        { rewrite HeP, HeD. destruct sd; [|reflexivity].
          setoid_replace (- P - - X)%Q with (- (P - X))%Q by ring. apply Qabs_opp. }
        rewrite Hdiff.
        apply Qabs_Qle_condition in Hprod as [Hplo Hphi].
        pose proof (pow2Q_pos ep) as Hu.
        assert (Hgoal : (- (1 # 1000000000) < P - X < 1 # 1000000000)%Q).
        { destruct Hshape as [Hn| ->].
          - change (2 ^ 52)%Q with (4503599627370496 # 1)%Q in Hn.
            set (u := (2 ^ ep)%Q) in *. split; lra.
          - assert (Htiny : (2 ^ (-1074) <= 2 ^ (-50))%Q) by (apply pow2Q_le; lia).
            change (2 ^ (-50))%Q with (1 # 1125899906842624)%Q in Htiny.
            set (u := (2 ^ (-1074))%Q) in *. split; lra. }
        destruct Hgoal as [Hg1 Hg2].
        apply Qabs_case; intros _; lra.
Qed.

(** *** Quotients of moderate numbers *)

Lemma positive_exact (x : float) :
  (0 < exact x)%Q ->
  exists m e, Prim2SF x = S754_finite false m e /\ exact x = magnitude m e.
Proof.
  unfold exact. destruct (Prim2SF x) as [s|s| |s m e]; try (intros H; now apply Qlt_irrefl in H).
  destruct s; [|now exists m, e].
  intros H. pose proof (magnitude_pos m e). lra.
Qed.

Lemma eqb_finite (y : float) (s : bool) (m : positive) (e : Z) :
  Prim2SF y = S754_finite s m e -> PrimFloat.eqb y 0 = false.
Proof.
  intros H. rewrite FloatAxioms.eqb_spec, H.
  change (Prim2SF 0) with (S754_zero false). now destruct s.
Qed.

(** The quotient of two positive floats between [1e-8] and [1e8] is a
    positive float, within a relative [2^(-51)] of the exact quotient. *)
Lemma moderate_quotient (x y : float) (mx my : positive) (ex ey : Z) :
  Prim2SF x = S754_finite false mx ex ->
  Prim2SF y = S754_finite false my ey ->
  (1 # 100000000 <= magnitude mx ex <= 100000000)%Q ->
  (1 # 100000000 <= magnitude my ey <= 100000000)%Q ->
  exists m e,
    Prim2SF (x / y) = S754_finite false m e
    /\ (Qabs (magnitude m e * magnitude my ey - magnitude mx ex)
        <= magnitude mx ex * (1 # 2251799813685248))%Q.
Proof.
  intros Hx Hy [HXlo HXhi] [HYlo HYhi].
  pose proof (quotient_near x y false false mx my ex ey Hx Hy) as Hnear.
  pose proof (Prim2SF_valid (x / y)) as Hv.
  set (X := magnitude mx ex) in *. set (Y := magnitude my ey) in *.
  assert (Htiny : (2 ^ (-1074) <= 2 ^ (-200))%Q) by (apply pow2Q_le; lia).
  assert (Hhuge : (2 ^ 200 <= 2 ^ 1023)%Q) by (apply pow2Q_le; lia).
  change (2 ^ (-200))%Q
    with (1 # 1606938044258990275541962092341162602522202993782792835301376)%Q in Htiny.
  change (2 ^ 200)%Q
    with (1606938044258990275541962092341162602522202993782792835301376 # 1)%Q in Hhuge.
  pose proof (pow2Q_pos (-1074)) as Htpos.
  assert (HtY : (2 ^ (-1074) * Y
                 <= (1 # 1606938044258990275541962092341162602522202993782792835301376) * Y)%Q)
    by (apply Qmult_le_compat_r; [exact Htiny|lra]).
  assert (HhY : ((1606938044258990275541962092341162602522202993782792835301376 # 1) * Y
                 <= 2 ^ 1023 * Y)%Q)
    by (apply Qmult_le_compat_r; [exact Hhuge|lra]).
  destruct (Prim2SF (x / y)) as [s|s| |s m e].
  - exfalso. lra.
  - exfalso. lra.
  - contradiction.
  - destruct Hnear as [-> Hnear]. exists m, e. split; [reflexivity|].
    destruct (magnitude_valid _ _ _ Hv) as [_ Hshape].
    pose proof (magnitude_pos m e) as HM. set (M := magnitude m e) in *.
    apply Qabs_Qle_condition in Hnear as [Hlo Hhi].
    apply Qabs_Qle_condition.
    pose proof (pow2Q_pos e) as Hu.
    destruct Hshape as [Hn| ->].
    + assert (Hunit : (2 ^ 52 * (2 ^ e * Y) <= M * Y)%Q).
      { rewrite Qmult_assoc. apply Qmult_le_compat_r; [exact Hn|lra]. }
      change (2 ^ 52)%Q with (4503599627370496 # 1)%Q in Hunit.
      set (t := (M * Y)%Q) in *. set (w := (2 ^ e * Y)%Q) in *. split; lra.
    + set (t := (M * Y)%Q) in *. set (w := (2 ^ (-1074) * Y)%Q) in *. split; lra.
Qed.

(** *** Rounding to an integer *)

Lemma round_div_cases (n d : Z) :
  round_div n d = (n / d)%Z \/ round_div n d = (n / d + 1)%Z.
Proof.
  unfold round_div.
  destruct (2 * (n mod d) <? d)%Z; [now left|].
  destruct (d <? 2 * (n mod d))%Z; [now right|].
  destruct (Z.even (n / d)); [now left|now right].
Qed.

(** [round] of a positive float returns a natural number that exceeds the
    float by no more than 1. *)
Lemma round_bound (x : float) (m : positive) (e : Z) :
  Prim2SF x = S754_finite false m e ->
  exists r, round x = Py.Ok r /\ (0 <= r)%Z /\ (inject_Z r <= magnitude m e + 1)%Q.
Proof.
  intros H. unfold round. rewrite H. unfold exact_fraction, magnitude.
  destruct (Z.leb_spec 0 e) as [He|He].
  - eexists. split; [reflexivity|].
    assert (Hp : (0 < 2 ^ e)%Z) by (apply Z.pow_pos_nonneg; lia).
    destruct (round_div_cases (Zpos m * 2 ^ e) 1) as [-> | ->]; rewrite Z.div_1_r.
    + split; [lia|]. rewrite inject_Z_mult, pow2Q_inject by lia. lra.
    + split; [lia|]. rewrite inject_Z_plus, inject_Z_mult, pow2Q_inject by lia.
      apply Qle_refl.
  - eexists. split; [reflexivity|].
    assert (Hp : (0 < 2 ^ (- e))%Z) by (apply Z.pow_pos_nonneg; lia).
    pose proof (Z.mul_div_le (Zpos m) (2 ^ (- e)) Hp) as Hfloor.
    assert (Hq : (0 <= Zpos m / 2 ^ (- e))%Z) by (apply Z.div_pos; lia).
    assert (HQ : (inject_Z (Zpos m / 2 ^ (- e)) <= inject_Z (Zpos m) * 2 ^ e)%Q).
    { rewrite Zle_Qle, inject_Z_mult, pow2Q_inject in Hfloor by lia.
      apply (Qmult_le_compat_r _ _ (2 ^ e)%Q) in Hfloor;
        [|apply Qlt_le_weak, pow2Q_pos].
      eapply Qle_trans; [|exact Hfloor].
      rewrite (Qmult_comm (2 ^ (- e))), <- Qmult_assoc, <- pow2Q_plus.
      replace (- e + e)%Z with 0%Z by lia. change (2 ^ 0)%Q with 1%Q.
      rewrite Qmult_1_r. apply Qle_refl. }
    pose proof (magnitude_pos m e) as HM. unfold magnitude in HM.
    destruct (round_div_cases (Zpos m) (2 ^ (- e))) as [-> | ->].
    + split; [lia|]. lra.
    + split; [lia|]. rewrite inject_Z_plus. change (inject_Z 1) with 1%Q. lra.
Qed.

(** *** One axis *)

(** [quotient_reproduces] for a dimension that may also be zero. *)
Lemma quotient_of_number (D nf : float) (m2 : positive) (e2 : Z) :
  is_number D = true ->
  Prim2SF nf = S754_finite false m2 e2 ->
  (-52 <= e2)%Z ->
  (is_number (D / nf) = true ->
   (Qabs (exact (D / nf) * exact nf - exact D) <= rounding_allowance (exact D))%Q)
  /\ ((Qabs (exact D) <= 1000000)%Q -> is_number (D / nf) = true).
Proof.
  intros HD Hn2 He2. unfold is_number in HD.
  destruct (Prim2SF D) as [sd|sd| |sd md ed] eqn:ED; try discriminate.
  - assert (Hq : Prim2SF (D / nf) = S754_zero (xorb sd false))
      by (rewrite div_spec, ED, Hn2; reflexivity).
    assert (HeD : exact D = 0%Q) by (unfold exact; now rewrite ED).
    assert (HeQ : exact (D / nf) = 0%Q) by (unfold exact; now rewrite Hq).
    assert (Hnum : is_number (D / nf) = true) by (unfold is_number; now rewrite Hq).
    split; [intros _|intros _; exact Hnum].
    rewrite HeD, HeQ.
    setoid_replace (0 * exact nf - 0)%Q with 0%Q by ring.
    unfold rounding_allowance. change (Qabs 0) with 0%Q.
    change (2 ^ (-50))%Q with (1 # 1125899906842624)%Q. lra.
  - exact (quotient_reproduces D nf sd md m2 ed e2 ED Hn2 He2).
Qed.

(** The quotient of a number and a converted cell count reproduces the
    number. *)
Lemma quotient_by_cells (D : float) (cells : Z) (size : float) :
  is_number D = true -> (1 <= cells)%Z ->
  truediv_int D cells = Py.Ok size ->
  reproduces D cells size.
Proof.
  intros HD Hcells Hsize. unfold truediv_int in Hsize.
  destruct (Z.eqb_spec cells 0) as [|_]; [lia|].
  destruct (float_of_int cells) as [nf|] eqn:Hnf; cbn [Py.bind] in Hsize; [|discriminate].
  apply truediv_ok in Hsize as [-> _].
  destruct (float_of_int_ok cells nf Hcells Hnf) as (m2 & e2 & Hn2 & He2 & Hint).
  assert (Hexact : (cells < 2 ^ 53)%Z -> (exact nf == inject_Z cells)%Q).
  { intros Hsmall. destruct (Hint Hsmall) as [He Hm].
    exact (exact_of_int nf cells m2 e2 Hn2 He Hm). }
  destruct (quotient_of_number D nf m2 e2 HD Hn2 He2) as [Hnear Hnum].
  exists nf. split; [exact Hnf|]. split; [reflexivity|]. split; [exact Hexact|].
  split; [exact Hnear|]. intros Hmillion.
  split; [exact (Hnum Hmillion)|]. split.
  - eapply Qle_lt_trans; [exact (Hnear (Hnum Hmillion))|]. now apply allowance_small.
  - exists (D / nf * nf)%float. split; [unfold reproduced; now rewrite Hnf|].
    exact (product_reproduces D nf m2 e2 HD Hn2 He2 Hmillion).
Qed.

(** What one axis of a returning calculation satisfies. *)
Lemma axis_of_derivation (D interior raw : float) (rounded : Z) (size : float) :
  truediv D interior = Py.Ok raw ->
  round raw = Py.Ok rounded ->
  truediv_int D (Z.max 1 rounded) = Py.Ok size ->
  axis_derivation D interior (Z.max 1 rounded) size
  /\ reproduces D (Z.max 1 rounded) size.
Proof.
  intros Hraw Hround Hsize. split.
  - exists raw, rounded. repeat split; auto. lia.
  - apply truediv_ok in Hraw as [-> Hnz]. apply round_ok in Hround.
    apply quotient_by_cells; [exact (number_dividend D interior Hnz Hround)|lia|exact Hsize].
Qed.

(** For a moderate dimension and a positive interior mesh size between
    [1e-7] and [1e6] the axis is derived, with fewer than [2^53] cells. *)
Lemma axis_returns (D interior : float) (mi : positive) (ei : Z) :
  moderate D ->
  Prim2SF interior = S754_finite false mi ei ->
  (1 # 10000000 <= magnitude mi ei <= 1000000)%Q ->
  exists raw rounded size,
    truediv D interior = Py.Ok raw
    /\ round raw = Py.Ok rounded
    /\ (Z.max 1 rounded < 2 ^ 53)%Z
    /\ truediv_int D (Z.max 1 rounded) = Py.Ok size.
Proof.
  intros [HDlo HDhi] Hi [HIlo HIhi].
  destruct (positive_exact D ltac:(lra)) as (md & ed & HD & HeD). rewrite HeD in *.
  destruct (moderate_quotient D interior md mi ed ei HD Hi ltac:(split; lra) ltac:(split; lra))
    as (m & e & Hq & Hnear).
  destruct (round_bound (D / interior) m e Hq) as (r & Hr & Hr0 & Hrle).
  set (X := magnitude md ed) in *. set (Y := magnitude mi ei) in *.
  pose proof (magnitude_pos m e) as HM. set (M := magnitude m e) in *.
  assert (HMhi : (M <= 1125899906842624 # 1)%Q).
  { destruct (Qlt_le_dec (1125899906842624 # 1) M) as [Hbig|]; [exfalso|assumption].
    apply (Qmult_lt_compat_r _ _ Y) in Hbig; [|lra].
    apply Qabs_Qle_condition in Hnear as [_ Hhi].
    set (t := (M * Y)%Q) in *. lra. }
  assert (Hsmall : (r < 2 ^ 53)%Z).
  { apply Z.le_lt_trans with (1125899906842624 + 1)%Z; [|reflexivity].
    rewrite Zle_Qle, inject_Z_plus.
    change (inject_Z 1125899906842624) with (1125899906842624 # 1)%Q.
    change (inject_Z 1) with 1%Q. lra. }
  assert (Hcells : (1 <= Z.max 1 r < 2 ^ 53)%Z) by (split; [lia|]; apply Z.max_lub_lt; [reflexivity|exact Hsmall]).
  destruct (float_of_int_small _ Hcells) as (nf & Hnf).
  destruct (float_of_int_ok _ nf (proj1 Hcells) Hnf) as (m2 & e2 & Hn2 & _).
  exists (D / interior)%float, r, (D / nf)%float.
  split; [unfold truediv; now rewrite (eqb_finite interior false mi ei Hi)|].
  split; [exact Hr|]. split; [exact (proj2 Hcells)|].
  unfold truediv_int. destruct (Z.eqb_spec (Z.max 1 r) 0) as [|_]; [lia|].
  rewrite Hnf. cbn [Py.bind]. unfold truediv. now rewrite (eqb_finite nf false m2 e2 Hn2).
Qed.

(** *** The calculator *)

(** Whenever the calculator returns, both axes are derived from the
    interior mesh size [K_ch / 5] and reproduce their dimension up to
    rounding. *)
Lemma calculator_derivation (geom_params : combination) (mp : mesh_params) :
  Demo.calculate_mesh_parameters geom_params = Py.Ok mp ->
  exists K_ch W_ch,
    Py.get geom_params "K_ch" = Some K_ch
    /\ Py.get geom_params "W_ch" = Some W_ch
    /\ interior_mesh_size mp = (K_ch / 5)%float
    /\ axis_derivation K_ch (interior_mesh_size mp)
         (stream_width_cells mp) (stream_width_mesh_size mp)
    /\ axis_derivation W_ch (interior_mesh_size mp)
         (stream_depth_cells mp) (stream_depth_mesh_size mp)
    /\ reproduces K_ch (stream_width_cells mp) (stream_width_mesh_size mp)
    /\ reproduces W_ch (stream_depth_cells mp) (stream_depth_mesh_size mp).
Proof.
  intros H. unfold Demo.calculate_mesh_parameters, Py.getitem in H.
  destruct (Py.get geom_params "K_ch") as [K|]; cbn [Py.bind] in H; [|discriminate].
  assert (H5 : truediv K 5 = Py.Ok (K / 5)%float) by reflexivity.
  rewrite H5 in H. cbn [Py.bind] in H.
  destruct (truediv K (K / 5)) as [rawK|] eqn:EdivK; cbn [Py.bind] in H; [|discriminate].
  destruct (round rawK) as [rK|] eqn:ErK; cbn [Py.bind] in H; [|discriminate].
  destruct (truediv_int K (Z.max 1 rK)) as [sK|] eqn:EsK; cbn [Py.bind] in H; [|discriminate].
  destruct (Py.get geom_params "W_ch") as [W|]; cbn [Py.bind] in H; [|discriminate].
  destruct (truediv W (K / 5)) as [rawW|] eqn:EdivW; cbn [Py.bind] in H; [|discriminate].
  destruct (round rawW) as [rW|] eqn:ErW; cbn [Py.bind] in H; [|discriminate].
  destruct (truediv_int W (Z.max 1 rW)) as [sW|] eqn:EsW; cbn [Py.bind] in H; [|discriminate].
  injection H as <-. cbn [interior_mesh_size stream_width_cells stream_width_mesh_size
                           stream_depth_cells stream_depth_mesh_size].
  destruct (axis_of_derivation K (K / 5) rawK rK sK EdivK ErK EsK) as [HdK HrK].
  destruct (axis_of_derivation W (K / 5) rawW rW sW EdivW ErW EsW) as [HdW HrW].
  exists K, W. repeat split; assumption.
Qed.

(** For moderate dimensions the calculator returns, with fewer than [2^53]
    cells on each axis. *)
Lemma calculator_returns (geom_params : combination) (K_ch W_ch : float) :
  Py.get geom_params "K_ch" = Some K_ch ->
  Py.get geom_params "W_ch" = Some W_ch ->
  moderate K_ch -> moderate W_ch ->
  exists mp,
    Demo.calculate_mesh_parameters geom_params = Py.Ok mp
    /\ (stream_width_cells mp < 2 ^ 53)%Z
    /\ (stream_depth_cells mp < 2 ^ 53)%Z.
Proof.
  intros HK HW HmK HmW.
  assert (Hinterior : exists mi ei,
             Prim2SF (K_ch / 5) = S754_finite false mi ei
             /\ (1 # 10000000 <= magnitude mi ei <= 1000000)%Q).
  { destruct HmK as [Hlo Hhi].
    destruct (positive_exact K_ch ltac:(lra)) as (mk & ek & HpK & HeK). rewrite HeK in *.
    assert (H5 : Prim2SF 5 = S754_finite false 5629499534213120 (-50)) by reflexivity.
    assert (Hfive : (magnitude 5629499534213120 (-50) == 5)%Q) by reflexivity.
    destruct (moderate_quotient K_ch 5 mk 5629499534213120 ek (-50) HpK H5
                ltac:(split; lra) ltac:(rewrite Hfive; split; lra))
      as (mi & ei & Hq & Hnear).
    exists mi, ei. split; [exact Hq|].
    rewrite Hfive in Hnear. apply Qabs_Qle_condition in Hnear as [Hnlo Hnhi].
    set (X := magnitude mk ek) in *. set (Y := magnitude mi ei) in *. split; lra. }
  destruct Hinterior as (mi & ei & Hi & Hrange).
  destruct (axis_returns K_ch (K_ch / 5) mi ei HmK Hi Hrange)
    as (rawK & rK & sK & EdivK & ErK & HcK & EsK).
  destruct (axis_returns W_ch (K_ch / 5) mi ei HmW Hi Hrange)
    as (rawW & rW & sW & EdivW & ErW & HcW & EsW).
  eexists. split.
  - unfold Demo.calculate_mesh_parameters, Py.getitem. rewrite HK. cbn [Py.bind].
    assert (H5 : truediv K_ch 5 = Py.Ok (K_ch / 5)%float) by reflexivity.
    rewrite H5. cbn [Py.bind]. rewrite EdivK. cbn [Py.bind]. rewrite ErK. cbn [Py.bind].
    rewrite EsK. cbn [Py.bind]. rewrite HW. cbn [Py.bind].
    rewrite EdivW. cbn [Py.bind]. rewrite ErW. cbn [Py.bind]. rewrite EsW. cbn [Py.bind].
    reflexivity.
  - cbn [stream_width_cells stream_depth_cells]. split; assumption.
Qed.

Lemma moderate_magnitude (D : float) : moderate D -> (Qabs (exact D) <= 1000000)%Q.
Proof.
  intros [Hlo Hhi]. rewrite Qabs_pos; lra.
Qed.

Lemma tolerance_of_reproduces (D : float) (cells : Z) (size : float) :
  reproduces D cells size ->
  (Qabs (exact D) <= 1000000)%Q -> (cells < 2 ^ 53)%Z ->
  within_tolerance D cells size.
Proof.
  intros (nf & _ & _ & Hexact & _ & Htol) Hmillion Hsmall.
  destruct (Htol Hmillion) as (Hnum & Hnear & Hproduct).
  split; [exact Hnum|]. split; [|exact Hproduct].
  rewrite <- (Hexact Hsmall). exact Hnear.
Qed.

(** C2, amended. For every combination whose channel and width dimensions
    lie between 1e-6 and 1e6 the calculator returns: the interior mesh size
    is the binary64 quotient [K_ch / 5] and, for each axis dimension [D],
    [actual_cells = max(1, round(D / interior_mesh_size)) >= 1],
    [axis_mesh_size] is the binary64 quotient [D / actual_cells], and
    [axis_mesh_size * actual_cells] is within 1e-9 of [D], as the exact
    product and as the binary64 product. On any combination on which the
    calculator returns, the same derivation holds, the exact product
    misses [D] by no more than [|D| / (2^52 - 1) + 2^(-50)], and for [|D|]
    up to a million the product is within 1e-9 of [D]. For
    [K_ch = 2.5], [W_ch = 3.0] it returns interior mesh size 0.5, 5 and 6
    cells, mesh sizes 0.5 and 0.5, and there the binary64 product is exactly
    the dimension. *)
Theorem mesh_parameters_derivation (geom_params : combination) (K_ch W_ch : float) :
  Py.get geom_params "K_ch" = Some K_ch ->
  Py.get geom_params "W_ch" = Some W_ch ->
  moderate K_ch -> moderate W_ch ->
  (exists mp,
     Demo.calculate_mesh_parameters geom_params = Py.Ok mp
     /\ interior_mesh_size mp = (K_ch / 5)%float
     /\ axis_derivation K_ch (interior_mesh_size mp)
          (stream_width_cells mp) (stream_width_mesh_size mp)
     /\ axis_derivation W_ch (interior_mesh_size mp)
          (stream_depth_cells mp) (stream_depth_mesh_size mp)
     /\ within_tolerance K_ch (stream_width_cells mp) (stream_width_mesh_size mp)
     /\ within_tolerance W_ch (stream_depth_cells mp) (stream_depth_mesh_size mp))
  /\ (forall other mp,
        Demo.calculate_mesh_parameters other = Py.Ok mp ->
        exists K W,
          Py.get other "K_ch" = Some K
          /\ Py.get other "W_ch" = Some W
          /\ interior_mesh_size mp = (K / 5)%float
          /\ axis_derivation K (interior_mesh_size mp)
               (stream_width_cells mp) (stream_width_mesh_size mp)
          /\ axis_derivation W (interior_mesh_size mp)
               (stream_depth_cells mp) (stream_depth_mesh_size mp)
          /\ reproduces K (stream_width_cells mp) (stream_width_mesh_size mp)
          /\ reproduces W (stream_depth_cells mp) (stream_depth_mesh_size mp))
  /\ Demo.calculate_mesh_parameters mesh_scenario
     = Py.Ok {| interior_mesh_size := 0.5; stream_width_mesh_size := 0.5;
                stream_width_cells := 5; stream_depth_mesh_size := 0.5;
                stream_depth_cells := 6 |}
  /\ reproduced 0.5 6 = Py.Ok 3.0%float
  /\ reproduced 0.5 5 = Py.Ok 2.5%float.
Proof.
  intros HK HW HmK HmW.
  split; [|split; [exact calculator_derivation|repeat split]].
  destruct (calculator_returns geom_params K_ch W_ch HK HW HmK HmW)
    as (mp & Hrun & HcK & HcW).
  destruct (calculator_derivation geom_params mp Hrun)
    as (K & W & HK' & HW' & Hint & HdK & HdW & HrK & HrW).
  rewrite HK in HK'. rewrite HW in HW'. injection HK' as <-. injection HW' as <-.
  exists mp. split; [exact Hrun|]. split; [exact Hint|].
  split; [exact HdK|]. split; [exact HdW|]. split.
  - exact (tolerance_of_reproduces K_ch _ _ HrK (moderate_magnitude K_ch HmK) HcK).
  - exact (tolerance_of_reproduces W_ch _ _ HrW (moderate_magnitude W_ch HmW) HcW).
Qed.

Lemma mesh_parameters_derivation_witness :
  exists mp p,
    Demo.calculate_mesh_parameters mesh_inexact = Py.Ok mp
    /\ stream_width_cells mp = 5%Z
    /\ reproduced (stream_width_mesh_size mp) (stream_width_cells mp) = Py.Ok p
    /\ PrimFloat.eqb p 1.7 = false
    /\ (Qabs (exact p - exact 1.7) < 1 # 1000000000)%Q.
Proof.
  assert (Hm : moderate 1.7) by (split; vm_compute; discriminate).
  destruct (mesh_parameters_derivation mesh_inexact 1.7 1.7 eq_refl eq_refl Hm Hm)
    as ((mp & Hrun & _ & _ & _ & (_ & _ & p & Hp & _ & Hnear) & _) & _).
  exists mp, p. vm_compute in Hrun. injection Hrun as <-.
  cbn [stream_width_cells stream_width_mesh_size] in *.
  vm_compute in Hp. injection Hp as <-.
  split; [reflexivity|]. split; [reflexivity|]. split; [reflexivity|].
  split; [reflexivity|exact Hnear].
Defined.

(** C2 as stated fails in binary64. With [K_ch = 1.7] the product
    [axis_mesh_size * actual_cells] is not the dimension; with
    [K_ch = 1.7 * 2^67] it misses it by 32768, far above 1e-9; and the
    positive dimension [K_ch = 5e-324] gives interior mesh size 0, so the
    calculator raises [ZeroDivisionError] instead of producing cell counts. *)
Lemma mesh_product_inexact :
  (exists mp,
     Demo.calculate_mesh_parameters mesh_inexact = Py.Ok mp
     /\ stream_width_cells mp = 5%Z
     /\ reproduced (stream_width_mesh_size mp) (stream_width_cells mp)
        = Py.Ok 1.6999999999999997%float
     /\ PrimFloat.eqb 1.6999999999999997 1.7 = false)
  /\ (exists mp,
        Demo.calculate_mesh_parameters mesh_large = Py.Ok mp
        /\ stream_width_cells mp = 5%Z
        /\ reproduced (stream_width_mesh_size mp) (stream_width_cells mp)
           = Py.Ok (0x1.b333333333333p+67 - 32768)%float
        /\ PrimFloat.ltb 1e-9 32768 = true)
  /\ PrimFloat.ltb 0 5e-324 = true
  /\ Demo.calculate_mesh_parameters mesh_tiny = Py.Raise Py.ZeroDivisionError.
Proof.
  split; [|split; [|split]].
  - eexists. split; [vm_compute; reflexivity|]. repeat split.
  - eexists. split; [vm_compute; reflexivity|]. repeat split.
  - reflexivity.
  - reflexivity.
Qed.

(** ** Digits *)

Lemma digit_char_is_digit (d : Z) :
  (0 <= d <= 9)%Z -> is_digit (digit_char d) = true.
Proof.
  intros Hd. unfold digit_char.
  assert (Hn : Z.to_nat d < 10) by lia.
  generalize dependent (Z.to_nat d). intros k Hk.
  do 10 (destruct k as [|k]; [reflexivity|]). lia.
Qed.

Lemma mod10_digit (n : Z) : is_digit (digit_char (n mod 10)) = true.
Proof. apply digit_char_is_digit. pose proof (Z.mod_pos_bound n 10). lia. Qed.

Lemma decimal_fuel_digits (fuel : nat) : forall n acc,
  all_digits acc -> all_digits (decimal_fuel fuel n acc).
Proof.
  induction fuel as [|fuel IH]; intros n acc Hacc; simpl; [exact Hacc|].
  assert (Hacc' : all_digits (digit_char (n mod 10) :: acc))
    by (constructor; [apply mod10_digit|exact Hacc]).
  destruct (n <? 10)%Z; [exact Hacc'|now apply IH].
Qed.

Lemma decimal_fuel_length (fuel : nat) : forall n acc,
  List.length acc <= List.length (decimal_fuel fuel n acc).
Proof.
  induction fuel as [|fuel IH]; intros n acc; simpl; [lia|].
  destruct (n <? 10)%Z; [simpl; lia|].
  specialize (IH (n / 10)%Z (digit_char (n mod 10) :: acc)). simpl in IH. lia.
Qed.

Lemma decimal_digits (n : Z) : all_digits (decimal n).
Proof. apply decimal_fuel_digits. constructor. Qed.

Lemma decimal_nonempty (n : Z) : decimal n <> [].
Proof.
  unfold decimal. simpl. destruct (n <? 10)%Z; [discriminate|].
  intros H.
  pose proof (decimal_fuel_length (Z.to_nat (Z.log2 n)) (n / 10)%Z
                [digit_char (n mod 10)]) as Hlen.
  rewrite H in Hlen. simpl in Hlen. lia.
Qed.

Lemma pad3_digits (n : Z) : all_digits (pad3 n) /\ List.length (pad3 n) = 3.
Proof.
  split; [|reflexivity]. unfold pad3.
  repeat (constructor; [apply mod10_digit|]). constructor.
Qed.

Lemma exponent_digits_shape (x : Z) :
  all_digits (exponent_digits x) /\ 2 <= List.length (exponent_digits x).
Proof.
  unfold exponent_digits. destruct (Z.ltb_spec x 10) as [Hlt|Hge].
  - split.
    + constructor; [reflexivity|apply decimal_digits].
    + pose proof (decimal_nonempty x). destruct (decimal x); [congruence|simpl; lia].
  - split; [apply decimal_digits|].
    unfold decimal.
    assert (Hlog : (3 <= Z.log2 x)%Z)
      by (change 3%Z with (Z.log2 10); now apply Z.log2_le_mono).
    destruct (Z.to_nat (Z.log2 x)) as [|fuel] eqn:Efuel; [lia|].
    cbn [decimal_fuel]. destruct (Z.ltb_spec x 10) as [|_]; [lia|].
    destruct (x / 10 <? 10)%Z; [simpl; lia|].
    pose proof (decimal_fuel_length fuel (x / 10 / 10)%Z
                  [digit_char (x / 10 mod 10); digit_char (x mod 10)]) as Hlen.
    simpl in Hlen. exact Hlen.
Qed.

(** ** Eliding the plus sign *)

Definition plain (c : ascii) : Prop := c <> "e"%char.

Lemma replace_eplus_plain (s t : str) :
  Forall plain s -> replace_eplus (s ++ t) = s ++ replace_eplus t.
Proof.
  induction 1 as [|c s Hc _ IH]; [reflexivity|].
  cbn [app replace_eplus].
  destruct (s ++ t) as [|c' rest] eqn:E.
  - destruct s; [|discriminate]. simpl in E. subst t. reflexivity.
  - rewrite <- IH. destruct (Ascii.eqb_spec c "e") as [->|_]; [now elim Hc|].
    reflexivity.
Qed.

Lemma replace_eplus_plain_only (s : str) : Forall plain s -> replace_eplus s = s.
Proof.
  intros H. rewrite <- (app_nil_r s) at 1.
  rewrite (replace_eplus_plain s [] H). simpl. apply app_nil_r.
Qed.

Lemma digit_plain (c : ascii) : is_digit c = true -> plain c.
Proof. intros H ->. discriminate. Qed.

Lemma digits_plain (s : str) : all_digits s -> Forall plain s.
Proof. apply Forall_impl, digit_plain. Qed.

Lemma sign_plain (s : str) : is_sign s -> Forall plain s.
Proof. intros [->| ->]; repeat constructor. discriminate. Qed.

Lemma replace_eplus_step (c c' : ascii) (rest : str) :
  replace_eplus (c :: c' :: rest)
  = if (Ascii.eqb c "e" && Ascii.eqb c' "+")%bool
    then c :: replace_eplus rest
    else c :: replace_eplus (c' :: rest).
Proof. reflexivity. Qed.

Lemma replace_sci (p ex : str) (negative : bool) :
  Forall plain p -> Forall plain ex ->
  replace_eplus (p ++ chars "e" ++ chars (if negative then "-" else "+") ++ ex)
  = p ++ chars "e" ++ chars (if negative then "-" else "") ++ ex.
Proof.
  intros Hp Hex. rewrite (replace_eplus_plain p _ Hp). f_equal.
  destruct negative; cbn [chars list_ascii_of_string app];
    rewrite replace_eplus_step; cbn [Ascii.eqb Bool.eqb andb].
  - assert (Hm : Forall plain ("-"%char :: ex))
      by (constructor; [discriminate|exact Hex]).
    now rewrite (replace_eplus_plain_only _ Hm).
  - now rewrite (replace_eplus_plain_only _ Hex).
Qed.

(** ** Shapes of the two presentations *)

Lemma sign_str_is_sign (s : bool) : is_sign (sign_str s).
Proof. destruct s; [now right|now left]. Qed.

Lemma format_fixed3_shape (value : float) :
  special (format_fixed3 value)
  \/ (fixed_shape (format_fixed3 value)
      /\ replace_eplus (format_fixed3 value) = format_fixed3 value).
Proof.
  assert (Hplain : forall r, fixed_shape r -> replace_eplus r = r).
  { intros r (sign & whole & frac & -> & Hs & Hw & _ & Hf & _).
    apply replace_eplus_plain_only.
    repeat (apply Forall_app; split);
      auto using sign_plain, digits_plain.
    repeat constructor. discriminate. }
  unfold format_fixed3.
  destruct (Prim2SF value) as [s|s| |s m e].
  - right. assert (Hshape : fixed_shape (sign_str s ++ chars "0.000")).
    { exists (sign_str s), (chars "0"), (chars "000").
      repeat split; auto using sign_str_is_sign; try discriminate;
        repeat constructor. }
    split; [exact Hshape|now apply Hplain].
  - left. destruct s; [right; right|right; left]; reflexivity.
  - left. now left.
  - right. destruct (exact_fraction m e) as [num den].
    match goal with |- fixed_shape ?r /\ _ => assert (Hshape : fixed_shape r) end.
    { eexists _, _, _. split; [reflexivity|].
      repeat split; auto using sign_str_is_sign, decimal_digits, decimal_nonempty;
        apply pad3_digits. }
    split; [exact Hshape|now apply Hplain].
Qed.

Lemma format_sci3_shape (value : float) :
  special (format_sci3 value)
  \/ sci_shape (format_sci3 value) (replace_eplus (format_sci3 value)).
Proof.
  assert (Hsci : forall (sign lead frac : str) (negative : bool) (ex : str),
            is_sign sign -> all_digits lead -> lead <> [] ->
            all_digits frac -> List.length frac = 3 ->
            all_digits ex -> 2 <= List.length ex ->
            let r := sign ++ lead ++ chars "." ++ frac ++ chars "e"
                       ++ chars (if negative then "-" else "+") ++ ex in
            sci_shape r (replace_eplus r)).
  { intros sign lead frac negative ex Hs Hl Hne Hf Hf3 Hex Hex2 r.
    exists sign, lead, frac, negative, ex. repeat split; auto.
    subst r.
    replace (sign ++ lead ++ chars "." ++ frac ++ chars "e"
               ++ chars (if negative then "-" else "+") ++ ex)
      with ((sign ++ lead ++ chars "." ++ frac) ++ chars "e"
               ++ chars (if negative then "-" else "+") ++ ex)
      by (now rewrite <- !app_assoc).
    rewrite replace_sci; [now rewrite <- !app_assoc| |auto using digits_plain].
    repeat (apply Forall_app; split); auto using sign_plain, digits_plain.
    repeat constructor. discriminate. }
  unfold format_sci3.
  destruct (Prim2SF value) as [s|s| |s m e].
  - right. apply (Hsci (sign_str s) (chars "0") (chars "000") false (chars "00"));
      auto using sign_str_is_sign; try discriminate; repeat constructor.
  - left. destruct s; [right; right|right; left]; reflexivity.
  - left. now left.
  - right. destruct (exact_fraction m e) as [num den].
    destruct (10000 <=? scaled_round num den (decimal_exponent num den - 3))%Z;
      apply Hsci;
      auto using sign_str_is_sign, decimal_digits, decimal_nonempty;
      try apply pad3_digits; apply exponent_digits_shape.
Qed.

(** ** Filename Encoder: presentation of a value *)

(** C5, amended. A value below 0.01 or above 1e6 in magnitude is rendered
    by the [.3e] presentation, any other by the [.3f] presentation. The
    [.3e] presentation of a finite value is a mantissa with exactly three
    decimals, [e], a sign and at least two exponent digits, and the encoder
    drops the sign exactly when it is [+]; the [.3f] presentation of a finite
    value has exactly three decimals and passes unchanged. The value 0.0034
    is rendered [3.400e-03] (Python pads the exponent to two digits), and
    1e7 as [1.000e07]. *)
Theorem value_rendering (value : float) :
  render value
  = (if (PrimFloat.ltb (PrimFloat.abs value) 1e-2
         || PrimFloat.ltb 1e6 (PrimFloat.abs value))%bool
     then format_sci3 value else format_fixed3 value)
  /\ (special (format_sci3 value)
      \/ sci_shape (format_sci3 value) (replace_eplus (format_sci3 value)))
  /\ (special (format_fixed3 value)
      \/ (fixed_shape (format_fixed3 value)
          /\ replace_eplus (format_fixed3 value) = format_fixed3 value))
  /\ replace_eplus (render 0.0034) = chars "3.400e-03"
  /\ replace_eplus (render 1e7) = chars "1.000e07"
  /\ Demo.generate_filename default_naming_config small_and_large
     = Py.Ok (chars "batch_model_Kch_3.400e-03_Wch_2.500_Wrib_1.000e07.mph").
Proof.
  split; [reflexivity|]. split; [apply format_sci3_shape|].
  split; [apply format_fixed3_shape|].
  repeat split; vm_compute; reflexivity.
Qed.

(** C5 as stated fails: 0.0034 is rendered [3.400e-03], which is not the
    string [3.400e-3]. *)
Lemma small_value_keeps_two_exponent_digits :
  replace_eplus (render 0.0034) = chars "3.400e-03"
  /\ String.eqb "3.400e-03" "3.400e-3" = false.
Proof. split; vm_compute; reflexivity. Qed.

(** ** Splitting a name at its separators *)

Lemma split_at_separator (P : ascii -> Prop) (a1 a2 t1 t2 : str) (c1 c2 : ascii) :
  Forall P a1 -> Forall P a2 -> ~ P c1 -> ~ P c2 ->
  a1 ++ c1 :: t1 = a2 ++ c2 :: t2 ->
  a1 = a2 /\ c1 = c2 /\ t1 = t2.
Proof.
  intros H1. revert a2. induction H1 as [|x a1 Hx _ IH]; intros a2 H2 Hc1 Hc2 Heq.
  - destruct H2 as [|y a2 Hy _]; simpl in Heq.
    + now injection Heq.
    + injection Heq as -> _. contradiction.
  - destruct H2 as [|y a2 Hy H2]; simpl in Heq.
    + injection Heq as -> _. contradiction.
    + injection Heq as -> Heq. destruct (IH a2 H2 Hc1 Hc2 Heq) as (-> & -> & ->).
      auto.
Qed.

Lemma ends_with_e_app (s t : str) :
  t <> [] -> ends_with_e (s ++ t) = ends_with_e t.
Proof.
  intros Ht. induction s as [|c s IH]; [reflexivity|].
  cbn [app ends_with_e]. destruct (s ++ t) as [|c' r] eqn:E.
  - destruct s, t; simpl in E; congruence.
  - exact IH.
Qed.

Lemma replace_eplus_app_length (n : nat) : forall a b : str,
  List.length a <= n ->
  (ends_with_e a && starts_with_plus b)%bool = false ->
  replace_eplus (a ++ b) = replace_eplus a ++ replace_eplus b.
Proof.
  induction n as [|n IH]; intros a b Hlen Hcond.
  - destruct a; [reflexivity|simpl in Hlen; lia].
  - destruct a as [|c [|c' a]]; [reflexivity| |].
    + cbn [app]. destruct b as [|c' b]; [reflexivity|].
      rewrite replace_eplus_step. simpl in Hcond. cbn [replace_eplus app].
      now rewrite Hcond.
    + cbn [app]. rewrite !replace_eplus_step.
      destruct (Ascii.eqb c "e" && Ascii.eqb c' "+")%bool eqn:Epair; cbn [app]; f_equal.
      * apply IH; [simpl in *; lia|].
        destruct a as [|c'' a]; [reflexivity|exact Hcond].
      * apply (IH (c' :: a) b); [simpl in *; lia|].
        exact Hcond.
Qed.

Lemma replace_eplus_app (a b : str) :
  (ends_with_e a && starts_with_plus b)%bool = false ->
  replace_eplus (a ++ b) = replace_eplus a ++ replace_eplus b.
Proof. apply (replace_eplus_app_length (List.length a)). lia. Qed.

(** ** Rendered values as text *)

Lemma digit_num (c : ascii) : is_digit c = true -> num_char c = true.
Proof. intros H. unfold num_char. now rewrite H. Qed.

Lemma digits_num (s : str) : all_digits s -> Forall (fun c => num_char c = true) s.
Proof. apply Forall_impl, digit_num. Qed.

Lemma digit_not_plus (c : ascii) : is_digit c = true -> Ascii.eqb c "+" = false.
Proof. intros H. destruct (Ascii.eqb_spec c "+") as [->|]; [discriminate|reflexivity]. Qed.

Lemma sign_num (s : str) : is_sign s -> Forall (fun c => num_char c = true) s.
Proof. intros [->| ->]; repeat constructor. Qed.

Lemma mantissa_like_signed (sign lead rest : str) :
  is_sign sign -> all_digits lead -> lead <> [] ->
  Forall plain rest -> Forall (fun c => num_char c = true) rest ->
  mantissa_like (sign ++ lead ++ rest).
Proof.
  intros Hs Hl Hne Hp Hn. repeat split.
  - repeat (apply Forall_app; split); auto using sign_plain, digits_plain.
  - repeat (apply Forall_app; split); auto using sign_num, digits_num.
  - destruct Hs as [->| ->]; [|reflexivity].
    destruct Hl as [|c lead Hc _]; [congruence|]. simpl.
    now apply digit_not_plus.
  - destruct Hs as [->| ->]; [|discriminate]. destruct lead; [congruence|discriminate].
Qed.

Lemma special_rendered (r : str) : special r -> rendered r (replace_eplus r).
Proof.
  intros [->|[->| ->]]; left; (split; [|reflexivity]);
    repeat split; try discriminate; repeat constructor; discriminate.
Qed.

Lemma fixed_rendered (r : str) : fixed_shape r -> rendered r r.
Proof.
  intros (sign & whole & frac & -> & Hs & Hw & Hne & Hf & _).
  left. split; [|reflexivity]. apply mantissa_like_signed; auto.
  - apply Forall_app. split; [repeat constructor; discriminate|now apply digits_plain].
  - apply Forall_app. split; [repeat constructor|now apply digits_num].
Qed.

Lemma sci_rendered (r elided : str) : sci_shape r elided -> rendered r elided.
Proof.
  intros (sign & lead & frac & negative & ex & -> & -> & Hs & Hl & Hne & Hf & _ & Hex & Hex2).
  right. exists (sign ++ lead ++ chars "." ++ frac), negative, ex.
  split; [|split; [exact Hex|split]].
  - apply mantissa_like_signed; auto.
    + apply Forall_app. split; [repeat constructor; discriminate|now apply digits_plain].
    + apply Forall_app. split; [repeat constructor|now apply digits_num].
  - destruct ex; [simpl in Hex2; lia|discriminate].
  - split; rewrite <- !app_assoc; destruct negative; reflexivity.
Qed.

Lemma render_rendered (value : float) :
  rendered (render value) (replace_eplus (render value)).
Proof.
  unfold render.
  destruct (PrimFloat.ltb (PrimFloat.abs value) 1e-2
            || PrimFloat.ltb 1e6 (PrimFloat.abs value))%bool.
  - destruct (format_sci3_shape value) as [H|H];
      [now apply special_rendered|now apply sci_rendered].
  - destruct (format_fixed3_shape value) as [H|[H Heq]];
      [now apply special_rendered|rewrite Heq; now apply fixed_rendered].
Qed.

Lemma plain_no_trailing_e (s : str) : Forall plain s -> ends_with_e s = false.
Proof.
  induction 1 as [|c s Hc Hs IH]; [reflexivity|]. cbn [ends_with_e].
  destruct s; [|exact IH].
  destruct (Ascii.eqb_spec c "e"); [contradiction|reflexivity].
Qed.

Lemma rendered_not_plus (r elided rest : str) :
  rendered r elided -> starts_with_plus (r ++ rest) = false.
Proof.
  intros [[(_ & _ & Hp & Hne) _]|(b & negative & ex & (_ & _ & Hp & Hne) & _ & _ & -> & _)].
  - destruct r; [congruence|exact Hp].
  - destruct b; [congruence|exact Hp].
Qed.

Lemma rendered_no_trailing_e (r elided : str) :
  rendered r elided -> ends_with_e r = false.
Proof.
  intros [[(Hp & _) _]|(b & negative & ex & _ & Hex & Hne & -> & _)].
  - now apply plain_no_trailing_e.
  - replace (b ++ "e"%char :: (if negative then "-"%char else "+"%char) :: ex)
      with ((b ++ ["e"%char; if negative then "-"%char else "+"%char]) ++ ex)
      by now rewrite <- app_assoc.
    rewrite ends_with_e_app by exact Hne.
    apply plain_no_trailing_e. now apply digits_plain.
Qed.

Lemma rendered_num (r elided : str) :
  rendered r elided -> Forall (fun c => num_char c = true) elided.
Proof.
  intros [[(_ & Hn & _) ->]|(b & negative & ex & (_ & Hn & _) & Hex & _ & _ & ->)].
  - exact Hn.
  - apply Forall_app. split; [exact Hn|].
    constructor; [reflexivity|].
    destruct negative; [constructor; [reflexivity|]|]; now apply digits_num.
Qed.

Lemma rendered_inj (r1 r2 elided : str) :
  rendered r1 elided -> rendered r2 elided -> r1 = r2.
Proof.
  assert (Hmixed : forall r b (negative : bool) ex,
            mantissa_like r ->
            r <> b ++ "e"%char :: (if negative then "-"%char :: ex else ex)).
  { intros r b negative ex (Hp & _) ->. apply Forall_app in Hp as [_ Hp].
    inversion Hp; subst. congruence. }
  intros [[H1 ->]|(b1 & n1 & ex1 & H1 & Hex1 & Hne1 & -> & ->)]
         [[H2 E2]|(b2 & n2 & ex2 & H2 & Hex2 & Hne2 & -> & E2)].
  - now symmetry.
  - exfalso. now apply (Hmixed r1 b2 n2 ex2).
  - exfalso. symmetry in E2. now apply (Hmixed r2 b1 n1 ex1).
  - destruct H1 as (Hp1 & _), H2 as (Hp2 & _).
    apply (split_at_separator plain) in E2 as (-> & _ & Etail); auto;
      try (intros Hp; now apply Hp).
    destruct n1, n2.
    + now injection Etail as ->.
    + exfalso. subst ex2. inversion Hex2; subst. discriminate.
    + exfalso. subst ex1. inversion Hex1; subst. discriminate.
    + now subst.
Qed.

(** ** Filename Encoder: names *)

Lemma get_formatted (c : combination) (k : string) :
  Py.get (formatted_params c) k = option_map render (Py.get c k).
Proof.
  induction c as [|[k' v] c IH]; simpl; [reflexivity|].
  destruct (String.eqb k k'); [reflexivity|exact IH].
Qed.

Lemma str_format_fields (template : list segment) (kw1 kw2 : Py.dict str) :
  (forall k, In k (fields template) -> Py.get kw1 k = Py.get kw2 k) ->
  str_format template kw1 = str_format template kw2.
Proof.
  induction template as [|[text|name] rest IH]; intros Hagree; simpl.
  - reflexivity.
  - now rewrite IH.
  - unfold Py.getitem. rewrite (Hagree name) by now left.
    rewrite IH; [reflexivity|]. intros k Hk. apply Hagree. now right.
Qed.

Lemma str_format_field (name : string) (rest : list segment) (c : combination) (n : str) :
  str_format (Field name :: rest) (formatted_params c) = Py.Ok n ->
  exists v n', Py.get c name = Some v
    /\ str_format rest (formatted_params c) = Py.Ok n'
    /\ n = render v ++ n'.
Proof.
  simpl. unfold Py.getitem. rewrite get_formatted.
  destruct (Py.get c name) as [v|]; cbn [option_map Py.bind]; [|discriminate].
  destruct (str_format rest (formatted_params c)) as [n'|]; cbn [Py.bind];
    [|discriminate].
  intros [= <-]. now exists v, n'.
Qed.

Lemma names_agree (template : list segment) (c1 c2 : combination) :
  separated template ->
  forall (pre tail n1 n2 : str),
  str_format template (formatted_params c1) = Py.Ok n1 ->
  str_format template (formatted_params c2) = Py.Ok n2 ->
  replace_eplus (pre ++ n1 ++ tail) = replace_eplus (pre ++ n2 ++ tail) ->
  forall k, In k (fields template) ->
  exists v1 v2, Py.get c1 k = Some v1 /\ Py.get c2 k = Some v2
                /\ render v1 = render v2.
Proof.
  induction template as [|[text|name] rest IH]; intros Hsep pre tail n1 n2 H1 H2 Heq k Hk.
  - destruct Hk.
  - simpl in H1, H2.
    destruct (str_format rest (formatted_params c1)) as [m1|] eqn:E1; [|discriminate].
    destruct (str_format rest (formatted_params c2)) as [m2|] eqn:E2; [|discriminate].
    injection H1 as <-. injection H2 as <-.
    apply (IH Hsep (pre ++ chars text) tail m1 m2 eq_refl eq_refl); [|exact Hk].
    rewrite <- !app_assoc in Heq |- *. exact Heq.
  - destruct Hsep as [Hnext Hsep].
    apply str_format_field in H1 as (v1 & m1 & Hv1 & Hm1 & ->).
    apply str_format_field in H2 as (v2 & m2 & Hv2 & Hm2 & ->).
    pose proof (render_rendered v1) as R1. pose proof (render_rendered v2) as R2.
    rewrite <- !app_assoc in Heq.
    rewrite (replace_eplus_app pre), (replace_eplus_app pre) in Heq
      by (rewrite (rendered_not_plus _ _ _ R1) || rewrite (rendered_not_plus _ _ _ R2);
          apply andb_false_r).
    apply app_inv_head in Heq.
    rewrite (replace_eplus_app (render v1)), (replace_eplus_app (render v2)) in Heq
      by (rewrite (rendered_no_trailing_e _ _ R1) || rewrite (rendered_no_trailing_e _ _ R2);
          reflexivity).
    assert (Hboth : replace_eplus (render v1) = replace_eplus (render v2)
                    /\ replace_eplus (m1 ++ tail) = replace_eplus (m2 ++ tail)).
    { destruct Hnext as [Hlast|(c & text & rest' & -> & Hc)].
      - assert (Hsame : Py.Ok m1 = Py.Ok m2).
        { rewrite <- Hm1, <- Hm2. apply str_format_fields.
          rewrite Hlast. intros ? []. }
        injection Hsame as <-. split; [|reflexivity].
        now apply app_inv_tail in Heq.
      - simpl in Hm1, Hm2.
        destruct (str_format rest' (formatted_params c1)) as [w1|]; [|discriminate].
        destruct (str_format rest' (formatted_params c2)) as [w2|]; [|discriminate].
        injection Hm1 as <-. injection Hm2 as <-.
        cbn [chars list_ascii_of_string app] in Heq |- *.
        assert (Hcons : forall t, replace_eplus (c :: t) = c :: replace_eplus t).
        { intros t. apply (replace_eplus_plain [c] t).
          constructor; [|constructor]. intros ->. discriminate. }
        rewrite !Hcons in Heq |- *.
        apply (split_at_separator (fun x => num_char x = true)) in Heq
          as (Hv & _ & Hrest);
          eauto using rendered_num; try congruence.
        split; [exact Hv|now rewrite Hrest]. }
    destruct Hboth as [Hv Hrest].
    destruct Hk as [<-|Hk].
    + exists v1, v2. repeat split; auto.
      apply (rendered_inj _ _ (replace_eplus (render v1))); [exact R1|].
      rewrite Hv. exact R2.
    + apply (IH Hsep [] tail m1 m2 Hm1 Hm2); [exact Hrest|exact Hk].
Qed.

Lemma default_format_separated : separated default_format.
Proof.
  simpl. repeat split; try (right; eexists _, _, _; split; reflexivity).
  now left.
Qed.

(** C7, amended. The name is a function of the combination and the naming
    configuration alone, and depends on the combination only through the
    values of the template's placeholders: combinations that agree on them get
    the same result. When every placeholder but the last is directly followed
    by literal text beginning with a character that no rendered value
    contains (as in the default template), two combinations receive the same
    name only if every placeholder parameter has the identical rendered
    representation in both. *)
Theorem filename_collisions (cfg : config) (c1 c2 : combination) :
  separated (naming_format cfg) ->
  ((forall k, In k (fields (naming_format cfg)) -> Py.get c1 k = Py.get c2 k) ->
   Demo.generate_filename cfg c1 = Demo.generate_filename cfg c2)
  /\ (forall name,
        Demo.generate_filename cfg c1 = Py.Ok name ->
        Demo.generate_filename cfg c2 = Py.Ok name ->
        forall k, In k (fields (naming_format cfg)) ->
        exists v1 v2, Py.get c1 k = Some v1 /\ Py.get c2 k = Some v2
                      /\ render v1 = render v2)
  /\ separated default_format.
Proof.
  intros Hsep. split; [|split; [|exact default_format_separated]].
  - intros Hagree. unfold Demo.generate_filename.
    rewrite (str_format_fields _ (formatted_params c1) (formatted_params c2));
      [reflexivity|].
    intros k Hk. rewrite !get_formatted. now rewrite (Hagree k Hk).
  - intros name H1 H2 k Hk. unfold Demo.generate_filename in H1, H2.
    destruct (str_format (naming_format cfg) (formatted_params c1)) as [n1|] eqn:E1;
      [|discriminate].
    destruct (str_format (naming_format cfg) (formatted_params c2)) as [n2|] eqn:E2;
      [|discriminate].
    cbn [Py.bind] in H1, H2. injection H1 as H1. injection H2 as H2.
    apply (names_agree _ c1 c2 Hsep [] (chars (naming_extension cfg)) n1 n2 E1 E2);
      [|exact Hk].
    simpl. now rewrite H1, H2.
Qed.

Lemma filename_collisions_witness :
  separated (naming_format default_naming_config)
  /\ Demo.generate_filename default_naming_config small_and_large
     = Demo.generate_filename default_naming_config (small_and_large ++ [("extra", 1%float)]).
Proof.
  split; [exact default_format_separated|].
  apply (proj1 (filename_collisions default_naming_config small_and_large
                  (small_and_large ++ [("extra", 1%float)])
                  default_format_separated)).
  intros k [<-|[<-|[<-|[]]]]; reflexivity.
Defined.

(** C7 as stated fails for a template whose placeholders touch: with
    [{K_ch}{W_ch}] the combinations (1e-10, 12.0) and (1e-101, 2.0) both get
    the name [1.000e-1012.000.mph], although [K_ch] is rendered
    [1.000e-10] in one and [1.000e-101] in the other. *)
Lemma adjacent_placeholders_collide :
  Demo.generate_filename adjacent_naming_config adjacent_first
  = Py.Ok (chars "1.000e-1012.000.mph")
  /\ Demo.generate_filename adjacent_naming_config adjacent_second
     = Py.Ok (chars "1.000e-1012.000.mph")
  /\ render 1e-10 = chars "1.000e-10"
  /\ render 1e-101 = chars "1.000e-101"
  /\ render 12.0 = chars "12.000"
  /\ render 2.0 = chars "2.000".
Proof. repeat split; vm_compute; reflexivity. Qed.

(** ** Calls do not depend on the history *)

Section Framed.
Context {A B : Type}.

Lemma framed_ret (a : A) : framed (retM a).
Proof. intros s t. unfold retM. simpl. now rewrite app_nil_r. Qed.

Lemma framed_lift (r : Py.result A) : framed (lift r).
Proof. intros s t. unfold lift. simpl. now rewrite app_nil_r. Qed.

Lemma framed_bind (m : M A) (k : A -> M B) :
  framed m -> (forall a, framed (k a)) -> framed (bindM m k).
Proof.
  intros Hm Hk s t. unfold bindM. rewrite (Hm s t).
  destruct (m {| script := s; trace := [] |}) as [[a|e] [s1 t1]]; simpl.
  - rewrite (Hk a s1 (t ++ t1)), (Hk a s1 t1). simpl. now rewrite app_assoc.
  - reflexivity.
Qed.

Lemma framed_catch (m : M A) (h : Py.exn -> M A) :
  framed m -> (forall e, framed (h e)) -> framed (catch m h).
Proof.
  intros Hm Hh s t. unfold catch. rewrite (Hm s t).
  destruct (m {| script := s; trace := [] |}) as [[a|e] [s1 t1]]; simpl.
  - reflexivity.
  - destruct (Py.is_Exception e); [|reflexivity].
    rewrite (Hh e s1 (t ++ t1)), (Hh e s1 t1). simpl. now rewrite app_assoc.
Qed.

Lemma framed_ensure (m : M A) (f : M unit) :
  framed m -> framed f -> framed (ensure m f).
Proof.
  intros Hm Hf s t. unfold ensure. rewrite (Hm s t).
  destruct (m {| script := s; trace := [] |}) as [r [s1 t1]]; simpl.
  rewrite (Hf s1 (t ++ t1)), (Hf s1 t1).
  destruct (f {| script := s1; trace := [] |}) as [[u|e] [s2 t2]]; simpl;
    now rewrite app_assoc.
Qed.

End Framed.

Lemma framed_engine (c : call) : framed (engine c).
Proof. intros [|[] s] t; reflexivity. Qed.

Lemma framed_probe (c : call) : framed (probe c).
Proof. intros [|[] s] t; reflexivity. Qed.

Create HintDb framed.
#[local] Hint Resolve framed_ret framed_lift framed_engine framed_probe : framed.

Ltac framed_step :=
  first [ apply framed_bind; [|intros ?]
        | apply framed_catch; [|intros ?]
        | apply framed_ensure
        | solve [auto with framed]
        | match goal with |- framed (if ?b then _ else _) => destruct b end
        | match goal with |- framed (match ?x with _ => _ end) => destruct x end ].

Lemma framed_fixed_process_single f cfg c idx total :
  framed (Fixed.process_single_combination f cfg c idx total).
Proof.
  assert (Hacq : framed (Fixed.acquire cfg idx))
    by (unfold Fixed.acquire; repeat framed_step).
  assert (Hrest : forall model,
            framed (ensure (catch (Fixed.build f cfg c idx) (fun _ => retM false))
                           (Fixed.release model))).
  { intros model.
    unfold Fixed.build, Fixed.release, Fixed.generate_mesh_for_model,
      Fixed.verify_mesh_quality, Fixed.verify_output_file.
    repeat framed_step. }
  intros s t. unfold Fixed.process_single_combination. rewrite (Hacq s t).
  destruct (Fixed.acquire cfg idx {| script := s; trace := [] |})
    as [[[model|]|e] [s1 t1]]; simpl.
  - rewrite (Hrest model s1 (t ++ t1)), (Hrest model s1 t1). simpl.
    now rewrite app_assoc.
  - reflexivity.
  - destruct (Py.is_Exception e); reflexivity.
Qed.

(** ** One combination *)

Lemma ordinary_getitem {V} (d : Py.dict V) (k : string) : ordinary (Py.getitem d k).
Proof. unfold Py.getitem. now destruct (Py.get d k). Qed.

Lemma ordinary_truediv (a b : float) : ordinary (truediv a b).
Proof. unfold truediv. now destruct (PrimFloat.eqb b 0). Qed.

Lemma ordinary_str_format (template : list segment) (kwargs : Py.dict str) :
  ordinary (str_format template kwargs).
Proof.
  induction template as [|[text|name] rest IH]; simpl; [exact I| |].
  - now destruct (str_format rest kwargs).
  - unfold Py.getitem. destruct (Py.get kwargs name); simpl; [|reflexivity].
    now destruct (str_format rest kwargs).
Qed.

Lemma ordinary_fixed_filename f cfg c : ordinary (Fixed.generate_filename f cfg c).
Proof.
  unfold Fixed.generate_filename.
  match goal with |- context [str_format ?t ?k] =>
    pose proof (ordinary_str_format t k) as H; destruct (str_format t k) end;
    [exact I|exact H].
Qed.

Lemma ordinary_mesh_loop settings geom : forall acc,
  ordinary (Fixed.mesh_loop settings geom acc).
Proof.
  induction settings as [|[key [name [d|]| |]] rest IH]; intros acc; simpl;
    try exact I; try reflexivity; try apply IH.
  - destruct (Py.get geom name) as [x|]; [|apply IH]. cbn [Py.bind].
    pose proof (ordinary_truediv x d) as H.
    destruct (truediv x d); [apply IH|exact H].
  - destruct (Py.get geom name) as [x|]; [reflexivity|apply IH].
Qed.

Lemma ordinary_fixed_mesh cfg c : ordinary (Fixed.calculate_mesh_parameters cfg c).
Proof. apply ordinary_mesh_loop. Qed.

Ltac next_outcome :=
  match goal with
  | |- context [match ?s with [] => _ | _ :: _ => _ end] =>
      is_var s; destruct s as [|[| |] s]
  | H : ordinary ?x |- context [match ?x with Py.Ok _ => _ | Py.Raise _ => _ end] =>
      is_var x; destruct x as [?|?]; cbn in H
  | H : Py.is_Exception ?e = true |- context [Py.is_Exception ?e] => rewrite H
  | |- context [if ?b then _ else _] => is_var b; destruct b
  | |- context [if String.eqb ?a ?b then _ else _] => destruct (String.eqb a b)
  end.

Ltac skip_witness :=
  first [ exists 0; reflexivity | exists 1; reflexivity | exists 2; reflexivity
        | exists 3; reflexivity | exists 4; reflexivity | exists 5; reflexivity
        | exists 6; reflexivity | exists 7; reflexivity | exists 8; reflexivity
        | exists 9; reflexivity ].

Ltac single_leaf :=
  unfold single_spec, completed, occurrences, ends_with_remove; cbn;
  rewrite ?Nat.eqb_refl; cbn;
  repeat split; try reflexivity; try discriminate; try lia; try skip_witness;
  try (intros; discriminate); try (intros _; cbn; tauto).

Lemma fixed_single_spec f cfg c idx total s :
  single_spec idx s
    (fst (from_script (Fixed.process_single_combination f cfg c idx total) s))
    (snd (from_script (Fixed.process_single_combination f cfg c idx total) s)).
Proof.
  unfold from_script, Fixed.process_single_combination, Fixed.acquire, Fixed.build,
    Fixed.release, Fixed.generate_mesh_for_model, Fixed.verify_mesh_quality,
    Fixed.verify_output_file, ensure, catch, bindM, retM, lift, engine, probe, perform,
    require, get_default.
  generalize (ordinary_fixed_mesh cfg c).
  generalize (Fixed.calculate_mesh_parameters cfg c) as mesh.
  generalize (ordinary_fixed_filename f cfg c).
  generalize (Fixed.generate_filename f cfg c) as name.
  destruct (template_model cfg) as [template|], (error_tolerance cfg) as [tolerance|],
    (output_directory cfg) as [directory|], (verify_output cfg) as [[|]|];
    intros name Hname mesh Hmesh; cbn;
    repeat (next_outcome; cbn); single_leaf.
Qed.

(** ** Counting calls *)

Lemma occurrences_app p (a b : list (call * outcome)) :
  occurrences p (a ++ b) = occurrences p a + occurrences p b.
Proof. unfold occurrences. now rewrite filter_app, length_app. Qed.

Lemma never_occurs p (evs : list (call * outcome)) :
  Forall (fun ev => p ev = false) evs ->
  occurrences p evs = 0 /\ existsb p evs = false.
Proof.
  unfold occurrences. induction 1 as [|ev evs Hev _ [IH1 IH2]]; simpl; [auto|].
  rewrite Hev. auto.
Qed.

Lemma indexed_remove : indexed is_remove.
Proof. intros i [[] o] H; try discriminate. simpl in *. f_equal. now apply Nat.eqb_eq. Qed.

Lemma indexed_load_done : indexed is_load_done.
Proof.
  intros i [[] []] H; try discriminate. simpl in *. f_equal. now apply Nat.eqb_eq.
Qed.

Lemma indexed_save_done : indexed is_save_done.
Proof.
  intros i [[] []] H; try discriminate. simpl in *. f_equal. now apply Nat.eqb_eq.
Qed.

Lemma indexed_fatal : indexed is_fatal.
Proof.
  intros i [[] []] H; try discriminate; simpl in *; f_equal; now apply Nat.eqb_eq.
Qed.

Lemma other_index_within p first i evs :
  indexed p -> forallb (within first) evs = true -> i <> first ->
  Forall (fun ev => p i ev = false) evs.
Proof.
  intros Hp Hall Hne. apply Forall_forall. intros ev Hin.
  rewrite forallb_forall in Hall. specialize (Hall ev Hin).
  destruct (p i ev) eqn:E; [|reflexivity]. apply Hp in E.
  unfold within in Hall. destruct (fst ev); simpl in E; try discriminate;
    injection E as ->; rewrite E in Hall || (apply Nat.eqb_eq in Hall; congruence).
Qed.

Lemma earlier_index_from p first i evs :
  indexed p -> forallb (from_index first) evs = true -> i < first ->
  Forall (fun ev => p i ev = false) evs.
Proof.
  intros Hp Hall Hlt. apply Forall_forall. intros ev Hin.
  rewrite forallb_forall in Hall. specialize (Hall ev Hin).
  destruct (p i ev) eqn:E; [|reflexivity]. apply Hp in E.
  unfold from_index in Hall. destruct (fst ev); simpl in E; try discriminate;
    injection E as ->; apply Nat.leb_le in Hall; lia.
Qed.

Lemma within_from_index first evs :
  forallb (within first) evs = true -> forallb (from_index first) evs = true.
Proof.
  rewrite !forallb_forall. intros H ev Hin. specialize (H ev Hin).
  unfold within, from_index in *.
  destruct (fst ev); simpl in *; try assumption; try discriminate;
    apply Nat.eqb_eq in H; subst; apply Nat.leb_refl.
Qed.

Lemma from_index_weaken first evs :
  forallb (from_index (S first)) evs = true -> forallb (from_index first) evs = true.
Proof.
  rewrite !forallb_forall. intros H ev Hin. specialize (H ev Hin).
  unfold from_index in *.
  destruct (fst ev); cbn [call_index] in *; try assumption;
    apply Nat.leb_le in H; apply Nat.leb_le; lia.
Qed.

Lemma stops_at_interrupt_app (a b : list (call * outcome)) :
  existsb is_interrupted a = false ->
  stops_at_interrupt (a ++ b) = stops_at_interrupt b.
Proof.
  induction a as [|ev a IH]; simpl; [reflexivity|].
  destruct (is_interrupted ev); [discriminate|exact IH].
Qed.

Lemma In_skipn {T} (x : T) (k : nat) (l : list T) : In x (skipn k l) -> In x l.
Proof.
  revert l. induction k as [|k IH]; intros l; simpl; [auto|].
  destruct l; [auto|]. intros H. right. now apply IH.
Qed.


(** ** The loop *)

Lemma from_script_bind {A B} (m : M A) (k : A -> M B) (s : list outcome) :
  (forall a, framed (k a)) ->
  from_script (bindM m k) s
  = match from_script m s with
    | (Py.Ok a, w1) =>
        (fst (from_script (k a) (script w1)),
         {| script := script (snd (from_script (k a) (script w1)));
            trace := trace w1 ++ trace (snd (from_script (k a) (script w1))) |})
    | (Py.Raise e, w1) => (Py.Raise e, w1)
    end.
Proof.
  intros Hk. unfold from_script, bindM.
  destruct (m {| script := s; trace := [] |}) as [[a|e] [s1 t1]]; simpl;
    [rewrite (Hk a s1 t1)|]; reflexivity.
Qed.

Lemma framed_fixed_process_all f cfg combos : forall idx total t,
  framed (Fixed.process_all f cfg combos idx total t).
Proof.
  induction combos as [|c combos IH]; intros idx total t; simpl.
  - apply framed_ret.
  - apply framed_bind; [apply framed_fixed_process_single|]. intros a. apply IH.
Qed.

Lemma count_outcomes (success : bool) (t : tally) :
  outcomes (count success t) = outcomes t ++ [success]
  /\ success_count (count success t)
     = success_count t + count_occ bool_dec [success] true
  /\ error_count (count success t)
     = error_count t + count_occ bool_dec [success] false.
Proof. destruct success; simpl; repeat split; lia. Qed.

Lemma fixed_loop_spec f cfg combos : forall first total t s,
  loop_spec first (List.length combos) s t
    (fst (from_script (Fixed.process_all f cfg combos first total t) s))
    (snd (from_script (Fixed.process_all f cfg combos first total t) s)).
Proof.
  induction combos as [|c combos IH]; intros first total t s.
  - unfold loop_spec. simpl. repeat split; auto; try lia; try discriminate.
    + now exists 0.
    + exists []. rewrite app_nil_r. repeat split; simpl; try lia.
  - cbn [Fixed.process_all List.length].
    rewrite from_script_bind by (intros a; apply framed_fixed_process_all).
    pose proof (fixed_single_spec f cfg c first total s) as Hone.
    destruct (from_script (Fixed.process_single_combination f cfg c first total) s)
      as [[success|e] w1]; cbn [fst snd] in Hone |- *.
    2:{ (* interrupted while this combination is processed *)
      destruct Hone as (Hin & Hbal & Hle & _ & Hstop & Hskip & Hint & Hsum & -> & Hi).
      unfold loop_spec. repeat split; auto using within_from_index.
      - destruct (Nat.eq_dec i first) as [->|Hne]; [exact Hbal|].
        destruct (never_occurs _ _ (other_index_within _ _ i _ indexed_remove Hin Hne)) as [-> _].
        now destruct (never_occurs _ _ (other_index_within _ _ i _ indexed_load_done Hin Hne)) as [-> _].
      - destruct (Nat.eq_dec i first) as [->|Hne]; [exact Hle|].
        destruct (never_occurs _ _ (other_index_within _ _ i _ indexed_load_done Hin Hne)) as [-> _].
        lia. }
    destruct Hone as (Hin & Hbal & Hle & _ & Hstop & [k1 Hskip] & Hint & Hsum & Hcalm & Hsucc).
    specialize (IH (S first) total (count success t) (script w1)).
    destruct (from_script (Fixed.process_all f cfg combos (S first) total (count success t))
                (script w1)) as [r2 w2]; cbn [fst snd] in IH |- *.
    destruct IH as (Hfrom2 & Hbal2 & Hstop2 & Hsum2 & [k2 Hskip2] & Hint2 & Hres2).
    unfold loop_spec. cbn [trace script].
    assert (Hzero : forall p, indexed p ->
              occurrences (p first) (trace w2) = 0
              /\ existsb (p first) (trace w2) = false).
    { intros p Hp. apply never_occurs.
      apply (earlier_index_from p (S first)); auto. }
    assert (Hother : forall p i, indexed p -> i <> first ->
              occurrences (p i) (trace w1) = 0
              /\ existsb (p i) (trace w1) = false).
    { intros p i Hp Hne. apply never_occurs.
      now apply (other_index_within p first). }
    split; [|split; [|split; [|split; [|split; [|split]]]]].
    + rewrite forallb_app. apply andb_true_intro. split.
      * now apply within_from_index.
      * now apply from_index_weaken.
    + intros i. rewrite !occurrences_app.
      destruct (Nat.eq_dec i first) as [->|Hne].
      * destruct (Hzero _ indexed_remove) as [-> _].
        destruct (Hzero _ indexed_load_done) as [-> _]. lia.
      * destruct (Hother _ i indexed_remove Hne) as [-> _].
        destruct (Hother _ i indexed_load_done Hne) as [-> _].
        specialize (Hbal2 i). lia.
    + now rewrite stops_at_interrupt_app.
    + rewrite existsb_app, Hsum, Hsum2. reflexivity.
    + exists (k2 + k1). now rewrite Hskip2, Hskip, skipn_skipn.
    + rewrite existsb_app, Hcalm. simpl. intros H. apply Hint2 in H.
      rewrite Hskip in H. now apply In_skipn in H.
    + destruct r2 as [t'|e].
      * destruct Hres2 as (Hcalm2 & new & Hout & Hlen & Hs & He & Hnth).
        split; [now rewrite existsb_app, Hcalm, Hcalm2|].
        destruct (count_outcomes success t) as (Ho & Hsc & Hec).
        exists (success :: new). repeat split.
        -- rewrite Hout, Ho, <- app_assoc. reflexivity.
        -- simpl. now rewrite Hlen.
        -- rewrite Hs, Hsc. simpl. destruct (bool_dec success true); lia.
        -- rewrite He, Hec. simpl. destruct (bool_dec success false); lia.
        -- intros [|j] Hj; unfold completed; rewrite !existsb_app; cbn [nth_error].
           ++ rewrite Nat.add_0_r. destruct (Hzero _ indexed_save_done) as [_ ->].
              destruct (Hzero _ indexed_fatal) as [_ ->].
              now rewrite !orb_false_r, Hsucc.
           ++ assert (Hne : first + S j <> first) by lia.
              destruct (Hother _ _ indexed_save_done Hne) as [_ ->].
              destruct (Hother _ _ indexed_fatal Hne) as [_ ->]. simpl.
              rewrite (Hnth j) by lia. unfold completed.
              now replace (S first + j) with (first + S j) by lia.
      * destruct Hres2 as [-> Hint3]. split; [reflexivity|].
        now rewrite existsb_app, Hint3, orb_true_r.
Qed.








(** The same run with the combinations in the other order: the failure
    moves with the position, the other combination is saved. *)
Example setup_fault_run :
  from_script (Fixed.process_all str_of_whole sweep_config (rev sweep) 1 2 empty_tally)
    setup_fault
  = (Py.Ok {| success_count := 1; error_count := 1; outcomes := [false; true] |},
     {| script := [];
        trace := [(TemplateExists, Done); (Load 1, Done); (SetupParameters 1, Fails);
                  (Remove 1, Done);
                  (TemplateExists, Done); (Load 2, Done); (SetupParameters 2, Done);
                  (RunMesh 2, Done); (MeshStatistics 2, Done);
                  (Save 2 (chars "out/model_1.0.mph"), Done);
                  (VerifyOutput 2, Done); (OutputSize 2, Done); (Remove 2, Done)] |}).
Proof. vm_compute. reflexivity. Qed.


(** ** Code that stops at the interrupt *)

Lemma from_script_catch {A} (m : M A) (h : Py.exn -> M A) (s : list outcome) :
  (forall e, framed (h e)) ->
  from_script (catch m h) s
  = match from_script m s with
    | (Py.Raise e, w1) =>
        if Py.is_Exception e
        then (fst (from_script (h e) (script w1)),
              {| script := script (snd (from_script (h e) (script w1)));
                 trace := trace w1 ++ trace (snd (from_script (h e) (script w1))) |})
        else (Py.Raise e, w1)
    | ok => ok
    end.
Proof.
  intros Hh. unfold from_script, catch.
  destruct (m {| script := s; trace := [] |}) as [[a|e] [s1 t1]]; simpl; [reflexivity|].
  destruct (Py.is_Exception e); [|reflexivity]. now rewrite (Hh e s1 t1).
Qed.

Lemma halts_at_interrupt_app (a b : list (call * outcome)) :
  existsb is_interrupted a = false ->
  halts_at_interrupt (a ++ b) = halts_at_interrupt b.
Proof.
  induction a as [|ev a IH]; simpl; [reflexivity|].
  destruct (is_interrupted ev); [discriminate|exact IH].
Qed.

Lemma interrupted_ordinary {A} (r : Py.result A) : ordinary r -> interrupted r = false.
Proof. destruct r as [a|[]]; simpl; auto; discriminate. Qed.

Lemma interrupted_raise {A} (e : Py.exn) :
  interrupted (@Py.Raise A e) = negb (Py.is_Exception e).
Proof. now destruct e. Qed.

Section Orderly.
Context {A B : Type}.
Variable allowed : call * outcome -> bool.

Lemma orderly_ret (a : A) : orderly allowed (retM a).
Proof. intros s. simpl. auto. Qed.

Lemma orderly_lift (r : Py.result A) : ordinary r -> orderly allowed (lift r).
Proof. intros Hr s. simpl. rewrite (interrupted_ordinary r Hr). auto. Qed.

Lemma orderly_bind (m : M A) (k : A -> M B) :
  orderly allowed m -> (forall a, framed (k a)) -> (forall a, orderly allowed (k a)) ->
  orderly allowed (bindM m k).
Proof.
  intros Hm Hf Hk s. rewrite (from_script_bind m k s Hf).
  specialize (Hm s). cbv zeta in Hm.
  destruct (from_script m s) as [[a|e] w1]; cbn [fst snd] in Hm |- *; [|exact Hm].
  destruct Hm as (Hall & Hhalt & Hint). cbn [interrupted] in Hint.
  destruct (Hk a (script w1)) as (Hall' & Hhalt' & Hint'). cbn [trace].
  rewrite forallb_app, existsb_app, Hall, Hall', Hint.
  now rewrite halts_at_interrupt_app.
Qed.

Lemma orderly_catch (m : M A) (h : Py.exn -> M A) :
  orderly allowed m -> (forall e, framed (h e)) -> (forall e, orderly allowed (h e)) ->
  orderly allowed (catch m h).
Proof.
  intros Hm Hf Hh s. rewrite (from_script_catch m h s Hf).
  specialize (Hm s). cbv zeta in Hm.
  destruct (from_script m s) as [[a|e] w1]; cbn [fst snd] in Hm |- *; [exact Hm|].
  destruct Hm as (Hall & Hhalt & Hint). rewrite interrupted_raise in Hint.
  destruct (Py.is_Exception e) eqn:He; cbn [fst snd]; [|now rewrite interrupted_raise, He].
  destruct (Hh e (script w1)) as (Hall' & Hhalt' & Hint'). cbn [trace].
  rewrite forallb_app, existsb_app, Hall, Hall', Hint.
  now rewrite halts_at_interrupt_app.
Qed.

End Orderly.

Lemma orderly_engine allowed (c : call) :
  (forall o, allowed (c, o) = true) -> orderly allowed (engine c).
Proof.
  intros Hc [|[] s]; unfold from_script, engine, perform; cbn;
    rewrite Hc; auto.
Qed.

Lemma orderly_probe allowed (c : call) :
  (forall o, allowed (c, o) = true) -> orderly allowed (probe c).
Proof.
  intros Hc [|[] s]; unfold from_script, probe, perform; cbn;
    rewrite Hc; auto.
Qed.


(** ** The demo generator *)

Lemma ordinary_bind {A B} (r : Py.result A) (k : A -> Py.result B) :
  ordinary r -> (forall a, ordinary (k a)) -> ordinary (Py.bind r k).
Proof. destruct r as [a|e]; simpl; auto. Qed.

Lemma ordinary_require {A} (key : string) (field : option A) :
  ordinary (require key field).
Proof. now destruct field. Qed.

Lemma ordinary_round (x : float) : ordinary (round x).
Proof.
  unfold round. destruct (Prim2SF x) as [| | |s m e]; simpl; auto.
  now destruct (exact_fraction m e).
Qed.

Lemma ordinary_float_of_int (n : Z) : ordinary (float_of_int n).
Proof.
  unfold float_of_int. now destruct (binary_normalize prec emax n 0 false).
Qed.

Lemma ordinary_truediv_int (x : float) (n : Z) : ordinary (truediv_int x n).
Proof.
  unfold truediv_int. destruct (n =? 0)%Z; [reflexivity|].
  apply ordinary_bind; [apply ordinary_float_of_int|]. intros d. apply ordinary_truediv.
Qed.

Lemma ordinary_demo_mesh c : ordinary (Demo.calculate_mesh_parameters c).
Proof.
  unfold Demo.calculate_mesh_parameters.
  repeat (apply ordinary_bind;
          [first [apply ordinary_getitem | apply ordinary_truediv | apply ordinary_round
                 | apply ordinary_truediv_int]
          |intros ?]).
  exact I.
Qed.

Lemma ordinary_demo_filename cfg c : ordinary (Demo.generate_filename cfg c).
Proof.
  unfold Demo.generate_filename.
  apply ordinary_bind; [apply ordinary_str_format|]. intros name. exact I.
Qed.

#[local] Hint Resolve ordinary_require ordinary_demo_mesh ordinary_demo_filename : framed.

Lemma framed_demo_process_single cfg c idx total :
  framed (Demo.process_single_combination cfg c idx total).
Proof. unfold Demo.process_single_combination. repeat framed_step. Qed.

Lemma framed_demo_process_all cfg combos : forall idx total t,
  framed (Demo.process_all cfg combos idx total t).
Proof.
  induction combos as [|c combos IH]; intros idx total t; simpl.
  - apply framed_ret.
  - apply framed_bind; [apply framed_demo_process_single|]. intros a. apply IH.
Qed.

Ltac orderly_step :=
  first [ apply orderly_bind; [|intros ?; repeat framed_step|intros ?]
        | apply orderly_catch; [|intros ?; repeat framed_step|intros ?]
        | apply orderly_ret
        | apply orderly_lift; solve [auto with framed]
        | apply orderly_engine; intros ?; reflexivity
        | apply orderly_probe; intros ?; reflexivity
        | match goal with |- orderly _ (if ?b then _ else _) => destruct b end ].

Lemma orderly_demo_process_single cfg c idx total :
  orderly before_report (Demo.process_single_combination cfg c idx total).
Proof. unfold Demo.process_single_combination. repeat orderly_step. Qed.

Lemma orderly_demo_process_all cfg combos : forall idx total t,
  orderly before_report (Demo.process_all cfg combos idx total t).
Proof.
  induction combos as [|c combos IH]; intros idx total t; simpl.
  - apply orderly_ret.
  - apply orderly_bind; [apply orderly_demo_process_single| |].
    + intros a. apply framed_demo_process_all.
    + intros a. apply IH.
Qed.


Lemma ordinary_exclusion_predicate combo : ordinary (exclusion_predicate combo).
Proof.
  unfold exclusion_predicate.
  repeat first [ apply ordinary_bind; [apply ordinary_getitem|intros ?]
               | match goal with |- ordinary (if ?b then _ else _) => destruct b end
               | exact I ].
Qed.

Lemma ordinary_thinning_loop combos rate : forall st,
  ordinary (thinning_loop combos rate st).
Proof.
  induction combos as [|combo rest IH]; intros [[filtered excluded] g]; simpl; [exact I|].
  apply ordinary_bind; [apply ordinary_exclusion_predicate|]. intros [|]; [|apply IH].
  destruct (random g) as [r g']. destruct (PrimFloat.ltb r rate); apply IH.
Qed.

Lemma ordinary_demo_combinations cfg g :
  ordinary (Demo.generate_parameter_combinations cfg g).
Proof.
  unfold Demo.generate_parameter_combinations, Demo.retained.
  apply ordinary_bind; [|intros [kept g']; exact I].
  apply ordinary_bind; [apply ordinary_require|]. intros parameters.
  apply ordinary_bind; [apply ordinary_thinning_loop|]. intros [[kept excluded] g'].
  exact I.
Qed.

Lemma orderly_weaken {A} (allowed allowed' : call * outcome -> bool) (m : M A) :
  (forall ev, allowed ev = true -> allowed' ev = true) ->
  orderly allowed m -> orderly allowed' m.
Proof.
  intros Hsub Hm s. destruct (Hm s) as (Hall & Hrest). split; [|exact Hrest].
  rewrite forallb_forall in *. auto.
Qed.

Lemma framed_create_output_directory cfg : framed (create_output_directory cfg).
Proof. unfold create_output_directory. repeat framed_step. Qed.

Lemma orderly_create_output_directory cfg :
  orderly before_report (create_output_directory cfg).
Proof. unfold create_output_directory. repeat orderly_step. Qed.

Lemma framed_create_summary_report success_count error_count total :
  framed (Demo.create_summary_report success_count error_count total).
Proof. apply framed_engine. Qed.

#[local] Hint Resolve framed_demo_process_all framed_create_output_directory
  framed_create_summary_report : framed.

Lemma no_summary_done (evs : list (call * outcome)) :
  forallb no_summary evs = true -> existsb is_summary_done evs = false.
Proof.
  induction evs as [|[[] []] evs IH]; simpl; auto; discriminate.
Qed.

Lemma demo_loop_counts cfg combos : forall idx total t w t' w',
  Demo.process_all cfg combos idx total t w = (Py.Ok t', w') ->
  success_count t' + error_count t'
  = success_count t + error_count t + List.length combos.
Proof.
  induction combos as [|c combos IH]; intros idx total t w t' w' H; simpl in H.
  - injection H as <- _. simpl. lia.
  - unfold bindM in H.
    destruct (Demo.process_single_combination cfg c idx total w) as [[success|e] w1];
      [|discriminate H].
    apply IH in H. rewrite H. destruct success; simpl; lia.
Qed.

Lemma no_summary_absent (evs : list (call * outcome)) (ev : call * outcome) :
  forallb no_summary evs = true -> In ev evs -> is_summary ev = false.
Proof.
  intros Hall Hin. rewrite forallb_forall in Hall. specialize (Hall ev Hin).
  unfold no_summary in Hall. now destruct (is_summary ev).
Qed.

Lemma before_report_no_summary (evs : list (call * outcome)) :
  forallb before_report evs = true -> forallb no_summary evs = true.
Proof.
  rewrite !forallb_forall. intros H ev Hin. specialize (H ev Hin).
  destruct ev as [[] o]; try reflexivity; discriminate H.
Qed.

Lemma before_report_no_results (evs : list (call * outcome)) (o : outcome) :
  forallb before_report evs = true -> ~ In (PrintResults, o) evs.
Proof.
  rewrite forallb_forall. intros H Hin. specialize (H _ Hin). discriminate H.
Qed.

(** The run of the demo generator, by how far it gets. *)
Lemma demo_run_cases cfg g s :
  let run := from_script (Demo.run_batch_generation cfg g) s in
  let evs := trace (snd run) in
  (forallb before_report evs = true /\ fst run <> Py.Ok true)
  \/ (exists combos g' front successful failed o back,
        Demo.generate_parameter_combinations cfg g = Py.Ok (combos, g')
        /\ evs = front ++ (WriteSummary (List.length combos) successful failed, o) :: back
        /\ forallb before_report front = true
        /\ successful + failed = List.length combos
        /\ match o with
           | Done => exists o', back = [(PrintResults, o')]
                                /\ fst run = match o' with
                                             | Done => Py.Ok true
                                             | Fails => Py.Ok false
                                             | Interrupted => Py.Raise Py.KeyboardInterrupt
                                             end
           | Fails => back = [] /\ fst run = Py.Ok false
           | Interrupted => back = [] /\ fst run = Py.Raise Py.KeyboardInterrupt
           end).
Proof.
  cbv zeta. unfold from_script, Demo.run_batch_generation.
  unfold bindM at 1. unfold engine at 1, perform.
  assert (Hbody : forall s0 o0,
    let run := catch
                 (created <~ create_output_directory cfg;;
                  (if negb created
                   then retM false
                   else
                    generated <~ lift (Demo.generate_parameter_combinations cfg g);;
                    t <~ Demo.process_all cfg (fst generated) 1
                           (List.length (fst generated)) empty_tally;;
                    _ <~ Demo.create_summary_report (success_count t)
                           (error_count t) (List.length (fst generated));;
                    _ <~ engine PrintResults;; retM true))
                 (fun _ => retM false)
                 {| script := s0; trace := [(PrintLine, o0)] |} in
    let evs := trace (snd run) in
    (forallb before_report evs = true /\ fst run <> Py.Ok true)
    \/ (exists combos g' front successful failed o back,
          Demo.generate_parameter_combinations cfg g = Py.Ok (combos, g')
          /\ evs = front ++ (WriteSummary (List.length combos) successful failed, o) :: back
          /\ forallb before_report front = true
          /\ successful + failed = List.length combos
          /\ match o with
             | Done => exists o', back = [(PrintResults, o')]
                                  /\ fst run = match o' with
                                               | Done => Py.Ok true
                                               | Fails => Py.Ok false
                                               | Interrupted => Py.Raise Py.KeyboardInterrupt
                                               end
             | Fails => back = [] /\ fst run = Py.Ok false
             | Interrupted => back = [] /\ fst run = Py.Raise Py.KeyboardInterrupt
             end)).
  { intros s0 o0. cbv zeta. unfold catch, bindM.
    rewrite (framed_create_output_directory cfg s0 [(PrintLine, o0)]).
    pose proof (orderly_create_output_directory cfg s0) as Hdir.
    unfold from_script in Hdir. cbv zeta in Hdir.
    destruct (create_output_directory cfg {| script := s0; trace := [] |})
      as [[created|e] [s1 tr1]]; cbn [fst snd trace script] in Hdir |- *;
      destruct Hdir as (Hdir & _).
    2: { left. destruct (Py.is_Exception e); cbn; rewrite ?app_nil_r, ?Hdir;
           split; auto; discriminate. }
    destruct created; cbn [negb].
    2: { left. cbn. split; [exact Hdir|discriminate]. }
    unfold lift.
    destruct (Demo.generate_parameter_combinations cfg g) as [[combos g']|e].
    2: { left. destruct (Py.is_Exception e); cbn; rewrite ?app_nil_r, ?Hdir;
           split; auto; discriminate. }
    cbn [fst].
    rewrite (framed_demo_process_all cfg combos 1 (List.length combos) empty_tally s1
               ([(PrintLine, o0)] ++ tr1)).
    pose proof (orderly_demo_process_all cfg combos 1 (List.length combos) empty_tally s1)
      as Hloop.
    pose proof (demo_loop_counts cfg combos 1 (List.length combos) empty_tally
                  {| script := s1; trace := [] |}) as Hcount.
    unfold from_script in Hloop. cbv zeta in Hloop.
    destruct (Demo.process_all cfg combos 1 (List.length combos) empty_tally
                {| script := s1; trace := [] |}) as [[t|e] [s2 tr2]];
      cbn [fst snd trace script] in *; destruct Hloop as (Hloop & _).
    2: { left. destruct (Py.is_Exception e); cbn; rewrite ?app_nil_r;
           (split; [now rewrite forallb_app, Hdir, Hloop|discriminate]). }
    specialize (Hcount t _ eq_refl). simpl in Hcount.
    right. exists combos, g', ((PrintLine, o0) :: tr1 ++ tr2), (success_count t), (error_count t).
    unfold Demo.create_summary_report, engine, perform, retM.
    assert (Hfront : forallb before_report ((PrintLine, o0) :: tr1 ++ tr2) = true)
      by (cbn; now rewrite forallb_app, Hdir, Hloop).
    destruct s2 as [|[] [|[] s2]]; cbn;
      match goal with |- context [(WriteSummary _ _ _, ?o)] => exists o end;
      eexists; (split; [reflexivity|]);
      (split; [cbn [app]; rewrite <- ?app_assoc; cbn [app]; reflexivity|]);
      (split; [exact Hfront|]); (split; [exact Hcount|]);
      first [ split; reflexivity | eexists; split; reflexivity ]. }
  destruct s as [|[] s]; cbn [fst snd trace script app].
  - apply Hbody.
  - apply Hbody.
  - left. cbn. split; [reflexivity|discriminate].
  - left. cbn. split; [reflexivity|discriminate].
Qed.

Lemma orderly_demo_run cfg g : orderly (fun _ => true) (Demo.run_batch_generation cfg g).
Proof.
  unfold Demo.run_batch_generation.
  apply orderly_bind;
    [apply orderly_engine; reflexivity | intros ?; repeat framed_step | intros _].
  apply orderly_catch; [|intros ?; repeat framed_step|intros ?; apply orderly_ret].
  apply orderly_bind.
  - apply (orderly_weaken before_report); [reflexivity|apply orderly_create_output_directory].
  - intros created. repeat framed_step.
  - intros created. destruct (negb created); [apply orderly_ret|].
    apply orderly_bind; [apply orderly_lift, ordinary_demo_combinations| |].
    + intros generated. repeat framed_step.
    + intros generated. apply orderly_bind.
      * apply (orderly_weaken before_report); [reflexivity|apply orderly_demo_process_all].
      * intros t. repeat framed_step.
      * intros t. unfold Demo.create_summary_report. repeat orderly_step.
Qed.

Lemma halts_before_more (a b : list (call * outcome)) :
  halts_at_interrupt (a ++ b) = true -> b <> [] -> existsb is_interrupted a = false.
Proof.
  intros H Hb. induction a as [|ev a IH]; simpl in *; [reflexivity|].
  destruct (is_interrupted ev); [|now apply IH].
  destruct a; simpl in H; [destruct b; [contradiction|discriminate H]|discriminate H].
Qed.

Lemma demo_run_spec cfg g s :
  let run := from_script (Demo.run_batch_generation cfg g) s in
  let evs := trace (snd run) in
  halts_at_interrupt evs = true
  /\ existsb is_interrupted evs = interrupted (fst run)
  /\ (existsb is_interrupted evs = true ->
      (existsb is_summary_done evs = true <-> In (PrintResults, Interrupted) evs)).
Proof.
  cbv zeta. destruct (orderly_demo_run cfg g s) as (_ & Hhalt & Hint).
  split; [exact Hhalt|]. split; [exact Hint|]. intros Hi.
  destruct (demo_run_cases cfg g s)
    as [[Hnone _]
       |(combos & g' & front & successful & failed & o & back & _ & Hevs & Hfront & _ & Ho)].
  - rewrite (no_summary_done _ (before_report_no_summary _ Hnone)).
    split; [discriminate|]. intros Hin.
    now apply (before_report_no_results _ _ Hnone) in Hin.
  - rewrite Hevs in *.
    assert (Hcalm : existsb is_interrupted front = false)
      by (apply (halts_before_more _ _ Hhalt); discriminate).
    rewrite existsb_app, (no_summary_done _ (before_report_no_summary _ Hfront)).
    rewrite existsb_app, Hcalm in Hi.
    destruct o.
    + destruct Ho as (o' & -> & _). destruct o'; cbn in Hi; try discriminate Hi.
      split; [intros _|reflexivity]. apply in_or_app. right. right. now left.
    + destruct Ho as [-> _]. discriminate Hi.
    + destruct Ho as [-> _]. cbn. split; [discriminate|].
      intros Hin. apply in_app_or in Hin as [Hin|[Hin|[]]]; [|discriminate Hin].
      now apply (before_report_no_results _ _ Hfront) in Hin.
Qed.


(** ** The batch generator's run *)

Lemma fixed_session f cfg g s pre :
  exists body o r s',
    ensure (Fixed.returning_false (_ <~ Fixed.generate_and_process f cfg g ;; retM true))
      Fixed.disconnect {| script := s; trace := pre |}
    = (r, {| script := s'; trace := pre ++ body ++ [(Disconnect, o)] |})
    /\ forallb (from_index 1) body = true
    /\ (forall i, occurrences (is_remove i) body = occurrences (is_load_done i) body
                  /\ occurrences (is_load_done i) body <= 1)
    /\ stops_at_interrupt body = true
    /\ match o with
       | Interrupted => r = Py.Raise Py.KeyboardInterrupt
       | _ => exists b, r = Py.Ok b
                        /\ (existsb is_interrupted body = true -> b = false)
       end.
Proof.
  unfold ensure, Fixed.returning_false, Fixed.generate_and_process, bindM, lift.
  destruct (Fixed.generate_parameter_combinations cfg g) as [[combos g']|e].
  - cbn [fst].
    rewrite (framed_fixed_process_all f cfg combos 1 (List.length combos) empty_tally s pre).
    pose proof (fixed_loop_spec f cfg combos 1 (List.length combos) empty_tally s) as Hloop.
    unfold from_script in Hloop.
    destruct (Fixed.process_all f cfg combos 1 (List.length combos) empty_tally
                {| script := s; trace := [] |}) as [r [s1 body]].
    cbn [fst snd script trace] in *.
    destruct Hloop as (Hfrom & Hbal & Hstop & _ & _ & _ & Hres).
    cbn [trace] in Hfrom, Hbal, Hstop, Hres. exists body.
    destruct r as [t|e]; [destruct Hres as [Hcalm _]|destruct Hres as [_ Hint]];
      destruct s1 as [|[] s1]; cbn;
      eexists _, _, _; (split; [rewrite <- app_assoc; reflexivity|]);
      repeat split; try assumption; try apply Hbal;
      try (eexists; split; [reflexivity|]; congruence).
  - exists []. destruct s as [|[] s]; cbn;
      eexists _, _, _; (split; [reflexivity|]);
      repeat split; try lia;
      try (eexists; split; [reflexivity|]; discriminate).
Qed.

Lemma fixed_preamble cfg s :
  let r := match Fixed.returning_false (create_output_directory cfg)
                   {| script := s; trace := [] |} with
           | (Py.Ok true, w1) => Fixed.returning_false Fixed.connect_comsol_server w1
           | other => other
           end in
  forallb is_setup (trace (snd r)) = true
  /\ halts_at_interrupt (trace (snd r)) = true
  /\ (fst r = Py.Ok true /\ existsb is_interrupted (trace (snd r)) = false
      /\ existsb is_connect_done (trace (snd r)) = true
      \/ fst r = Py.Ok false /\ existsb is_connect_done (trace (snd r)) = false).
Proof.
  unfold Fixed.returning_false, create_output_directory, Fixed.connect_comsol_server,
    catch, bindM, lift, retM, engine, perform, require.
  destruct (output_directory cfg) as [directory|]; cbn; [|auto].
  destruct s as [|[] [|[] [|[] s]]]; cbn; auto 6.
Qed.

Lemma never_of (q p : call * outcome -> bool) (evs : list (call * outcome)) :
  forallb q evs = true -> (forall ev, q ev = true -> p ev = false) ->
  occurrences p evs = 0 /\ existsb p evs = false.
Proof.
  intros Hall Hq. apply never_occurs, Forall_forall. intros ev Hin.
  rewrite forallb_forall in Hall. auto.
Qed.

Ltac by_call := intros [[] []]; cbn; intros; congruence.

Lemma halts_stops (evs : list (call * outcome)) :
  halts_at_interrupt evs = true -> stops_at_interrupt evs = true.
Proof.
  induction evs as [|ev evs IH]; simpl; [reflexivity|].
  destruct (is_interrupted ev); [|exact IH]. now destruct evs.
Qed.

Lemma cleanup_stops (evs : list (call * outcome)) :
  forallb is_cleanup evs = true -> stops_at_interrupt evs = true.
Proof.
  induction evs as [|ev evs IH]; simpl; [reflexivity|].
  intros H. apply andb_prop in H as [_ H]. destruct (is_interrupted ev); auto.
Qed.

Lemma stops_then_cleanup (a b : list (call * outcome)) :
  stops_at_interrupt a = true -> forallb is_cleanup b = true ->
  stops_at_interrupt (a ++ b) = true.
Proof.
  intros Ha Hb. induction a as [|ev a IH]; simpl in *; [now apply cleanup_stops|].
  destruct (is_interrupted ev); [|now apply IH].
  rewrite forallb_app, Ha, Hb. reflexivity.
Qed.

Lemma ends_with_disconnect_last (evs : list (call * outcome)) (ev : call * outcome) :
  ends_with_disconnect (evs ++ [ev]) = is_disconnect ev.
Proof. unfold ends_with_disconnect. now rewrite rev_unit. Qed.

Lemma fixed_run_spec f cfg g s :
  let run := from_script (Fixed.run_batch_generation f cfg g) s in
  let evs := trace (snd run) in
  stops_at_interrupt evs = true
  /\ existsb is_summary evs = false
  /\ (forall i, occurrences (is_remove i) evs = occurrences (is_load_done i) evs)
  /\ (existsb is_connect_done evs = true ->
      ends_with_disconnect evs = true /\ occurrences is_disconnect evs = 1)
  /\ (existsb is_interrupted evs = true ->
      fst run = if existsb is_disconnect_interrupted evs
                then Py.Raise Py.KeyboardInterrupt else Py.Ok false).
Proof.
  cbv zeta. unfold from_script, Fixed.run_batch_generation.
  pose proof (fixed_preamble cfg s) as Hpre. cbv zeta in Hpre.
  assert (Hfail : forall (r : Py.result bool) w,
            forallb is_setup (trace w) = true ->
            halts_at_interrupt (trace w) = true ->
            r = Py.Ok false /\ existsb is_connect_done (trace w) = false ->
            stops_at_interrupt (trace w) = true
            /\ existsb is_summary (trace w) = false
            /\ (forall i, occurrences (is_remove i) (trace w)
                          = occurrences (is_load_done i) (trace w))
            /\ (existsb is_connect_done (trace w) = true ->
                ends_with_disconnect (trace w) = true
                /\ occurrences is_disconnect (trace w) = 1)
            /\ (existsb is_interrupted (trace w) = true ->
                r = if existsb is_disconnect_interrupted (trace w)
                    then Py.Raise Py.KeyboardInterrupt else Py.Ok false)).
  { intros r w Hset Hhalt [-> Hconn].
    split; [now apply halts_stops|]. split; [|split; [|split]].
    - destruct (never_of is_setup is_summary _ Hset) as [_ ->]; [by_call|reflexivity].
    - intros i.
      destruct (never_of is_setup (is_remove i) _ Hset) as [-> _]; [by_call|].
      destruct (never_of is_setup (is_load_done i) _ Hset) as [-> _]; [by_call|].
      reflexivity.
    - congruence.
    - intros _.
      destruct (never_of is_setup is_disconnect_interrupted _ Hset) as [_ ->];
        [by_call|reflexivity]. }
  destruct (Fixed.returning_false (create_output_directory cfg)
              {| script := s; trace := [] |}) as [[[|]|e] w1].
  2: { destruct Hpre as (Hset & Hhalt & [[H _]|H]); [discriminate H|].
       cbn [fst snd] in *. now apply Hfail. }
  2: { destruct Hpre as (_ & _ & [[H _]|[H _]]); discriminate H. }
  destruct (Fixed.returning_false Fixed.connect_comsol_server w1) as [[[|]|e] [s2 pre]].
  2: { destruct Hpre as (Hset & Hhalt & [[H _]|H]); [discriminate H|].
       cbn [fst snd] in *. now apply (Hfail (Py.Ok false) {| script := s2; trace := pre |}). }
  2: { destruct Hpre as (_ & _ & [[H _]|[H _]]); discriminate H. }
  clear Hfail. destruct Hpre as (Hset & _ & [(_ & Hcalm & Hconn)|[H _]]); [|discriminate H].
  cbn [fst snd trace] in Hset, Hcalm, Hconn.
  destruct (fixed_session f cfg g s2 pre)
    as (body & o & r & s' & -> & Hfrom & Hbal & Hstop & Hres).
  cbn [fst snd trace].
  assert (Hlast : forall p, (forall ev, is_disconnect ev = true -> p ev = false) ->
                            occurrences p [(Disconnect, o)] = 0
                            /\ existsb p [(Disconnect, o)] = false).
  { intros p Hp. apply (never_of is_disconnect); [reflexivity|exact Hp]. }
  split; [|split; [|split; [|split]]].
  - rewrite stops_at_interrupt_app by exact Hcalm. now apply stops_then_cleanup.
  - rewrite !existsb_app.
    destruct (never_of is_setup is_summary _ Hset) as [_ ->]; [by_call|].
    destruct (never_of (from_index 1) is_summary _ Hfrom) as [_ ->]; [by_call|].
    reflexivity.
  - intros i. rewrite !occurrences_app.
    destruct (never_of is_setup (is_remove i) _ Hset) as [-> _]; [by_call|].
    destruct (never_of is_setup (is_load_done i) _ Hset) as [-> _]; [by_call|].
    destruct (Hlast (is_remove i)) as [-> _]; [by_call|].
    destruct (Hlast (is_load_done i)) as [-> _]; [by_call|].
    destruct (Hbal i) as [-> _]. reflexivity.
  - intros _. split.
    + now rewrite app_assoc, ends_with_disconnect_last.
    + rewrite !occurrences_app.
      destruct (never_of is_setup is_disconnect _ Hset) as [-> _]; [by_call|].
      destruct (never_of (from_index 1) is_disconnect _ Hfrom) as [-> _]; [by_call|].
      reflexivity.
  - rewrite !existsb_app, Hcalm.
    destruct (never_of is_setup is_disconnect_interrupted _ Hset) as [_ ->]; [by_call|].
    destruct (never_of (from_index 1) is_disconnect_interrupted _ Hfrom) as [_ ->];
      [by_call|].
    cbn [orb existsb]. intros Hint.
    destruct o; cbn in Hint |- *.
    + destruct Hres as (b & -> & Hb). rewrite orb_false_r in Hint. f_equal. auto.
    + destruct Hres as (b & -> & Hb). rewrite orb_false_r in Hint. f_equal. auto.
    + exact Hres.
Qed.

Lemma interrupted_true {A} (r : Py.result A) :
  interrupted r = true -> r = Py.Raise Py.KeyboardInterrupt.
Proof. destruct r as [a|[]]; simpl; congruence. Qed.

(** C8, amended. Interrupted runs. Whatever the engine and the file system
    answer and whichever call the interrupt signal arrives at: the batch
    generator makes no call after the interrupted one except to remove a
    loaded model and to disconnect, so it starts no further combination;
    each model it loaded gets its removal call; once connected it ends with
    its one disconnect call; an interrupted run returns [False], unless the
    signal arrives during the disconnect, when the interrupt is passed on;
    and it writes no summary, interrupted or not. The demo generator makes
    no call at all after the interrupted one and passes the interrupt on to
    the caller; its summary has been written only if the signal arrives
    while the final results are printed, after the loop and the summary. *)
Theorem interrupt_handling f cfg g s :
  let fixed := from_script (Fixed.run_batch_generation f cfg g) s in
  let demo := from_script (Demo.run_batch_generation cfg g) s in
  (stops_at_interrupt (trace (snd fixed)) = true
   /\ existsb is_summary (trace (snd fixed)) = false
   /\ (forall i, occurrences (is_remove i) (trace (snd fixed))
                 = occurrences (is_load_done i) (trace (snd fixed)))
   /\ (existsb is_connect_done (trace (snd fixed)) = true ->
       ends_with_disconnect (trace (snd fixed)) = true
       /\ occurrences is_disconnect (trace (snd fixed)) = 1)
   /\ (existsb is_interrupted (trace (snd fixed)) = true ->
       fst fixed = if existsb is_disconnect_interrupted (trace (snd fixed))
                   then Py.Raise Py.KeyboardInterrupt else Py.Ok false))
  /\ (halts_at_interrupt (trace (snd demo)) = true
      /\ (existsb is_interrupted (trace (snd demo)) = true ->
          fst demo = Py.Raise Py.KeyboardInterrupt
          /\ (existsb is_summary_done (trace (snd demo)) = true
              <-> In (PrintResults, Interrupted) (trace (snd demo))))).
Proof.
  cbv zeta. split; [apply fixed_run_spec|].
  destruct (demo_run_spec cfg g s) as (Hhalt & Hint & Hsum).
  split; [exact Hhalt|]. intros Hi. split; [|exact (Hsum Hi)].
  rewrite Hi in Hint. symmetry in Hint. now apply interrupted_true in Hint.
Qed.

(** C8 as stated fails. The interrupt arrives while the second combination
    of the sweep is processed: the batch generator removes that model,
    disconnects and returns [False]; the demo generator passes the interrupt
    on. The first combination was completed in both runs, and neither
    writes a summary. *)
Lemma interrupted_run_leaves_no_summary :
  from_script (Fixed.run_batch_generation str_of_whole sweep_config spent)
    (interrupt_after 13)
  = (Py.Ok false,
     {| script := [];
        trace := [(MakeDirs, Done); (Connect None, Done);
                  (TemplateExists, Done); (Load 1, Done); (SetupParameters 1, Done);
                  (RunMesh 1, Done); (MeshStatistics 1, Done);
                  (Save 1 (chars "out/model_1.0.mph"), Done);
                  (VerifyOutput 1, Done); (OutputSize 1, Done); (Remove 1, Done);
                  (TemplateExists, Done); (Load 2, Done);
                  (SetupParameters 2, Interrupted); (Remove 2, Done);
                  (Disconnect, Done)] |})
  /\ from_script (Demo.run_batch_generation sweep_config spent) (interrupt_after 6)
     = (Py.Raise Py.KeyboardInterrupt,
        {| script := [];
           trace := [(PrintLine, Done); (MakeDirs, Done);
                     (WriteMetadata 1, Done); (WriteModel 1, Done);
                     (CheckOutput 1, Done); (OutputSize 1, Done);
                     (WriteMetadata 2, Interrupted)] |})
  /\ existsb is_summary
       (trace (snd (from_script
                      (Fixed.run_batch_generation str_of_whole sweep_config spent)
                      (interrupt_after 13)))) = false
  /\ existsb is_summary
       (trace (snd (from_script (Demo.run_batch_generation sweep_config spent)
                      (interrupt_after 6)))) = false.
Proof. repeat split; vm_compute; reflexivity. Qed.

(** Left alone, the demo generator writes the summary after the loop and
    then prints the results. *)
Example demo_run_completes :
  from_script (Demo.run_batch_generation sweep_config spent) []
  = (Py.Ok true,
     {| script := [];
        trace := [(PrintLine, Done); (MakeDirs, Done);
                  (WriteMetadata 1, Done); (WriteModel 1, Done);
                  (CheckOutput 1, Done); (OutputSize 1, Done);
                  (WriteMetadata 2, Done); (WriteModel 2, Done);
                  (CheckOutput 2, Done); (OutputSize 2, Done);
                  (WriteSummary 2 2 0, Done); (PrintResults, Done)] |}).
Proof. vm_compute. reflexivity. Qed.


(* ================================================================= *)
(** * Further properties of the pipeline *)

(** ** What the sampler returns *)

Lemma subsequence_refl {A} (l : list A) : subsequence l l.
Proof. induction l; constructor; assumption. Qed.

Lemma subsequence_app_tail {A} (l1 l2 : list A) (x : A) :
  subsequence l1 l2 -> subsequence l1 (l2 ++ [x]).
Proof. induction 1; simpl; repeat constructor; assumption. Qed.

Lemma subsequence_Permutation {A} (l1 l2 : list A) :
  subsequence l1 l2 -> exists out, Permutation (l1 ++ out) l2.
Proof.
  induction 1 as [|x l1 l2 _ [out IH]|x l1 l2 _ [out IH]].
  - now exists [].
  - exists (x :: out). rewrite <- Permutation_middle. now constructor.
  - exists out. simpl. now constructor.
Qed.

Lemma subsequence_In {A} (l1 l2 : list A) (x : A) :
  subsequence l1 l2 -> In x l1 -> In x l2.
Proof. induction 1; simpl; intuition. Qed.

Lemma random_consumes (g : rng) :
  uniforms (snd (random g)) = skipn 1 (uniforms g)
  /\ draws (snd (random g)) = draws g.
Proof. unfold random. destruct (uniforms g) eqn:E; simpl; auto. Qed.

Lemma matches_of_predicate (c : combination) (b : bool) :
  exclusion_predicate c = Py.Ok b -> matches c = b.
Proof. unfold matches. intros ->. now destruct b. Qed.

Lemma thinning_loop_account (combos : list combination) (rate : float) :
  forall f n g f' n' g',
  thinning_loop combos rate (f, n, g) = Py.Ok (f', n', g') ->
  exists kept, f' = f ++ kept
    /\ subsequence kept combos
    /\ (forall c, In c combos -> matches c = false -> In c kept)
    /\ n' + List.length kept = n + List.length combos
    /\ n' <= n + hits combos
    /\ uniforms g' = skipn (hits combos) (uniforms g).
Proof.
  unfold hits.
  induction combos as [|c rest IH]; intros f n g f' n' g' H; simpl in H.
  - injection H as <- <- <-. exists []. rewrite app_nil_r.
    repeat split; simpl; try constructor; try lia.
  - destruct (exclusion_predicate c) as [hit|e] eqn:Hc; [|discriminate H].
    cbn [Py.bind] in H. pose proof (matches_of_predicate c hit Hc) as Hm.
    cbn [filter]. rewrite Hm. destruct hit.
    + destruct (random_consumes g) as [Hu Hd].
      destruct (random g) as [r g1]. cbn [snd] in Hu, Hd.
      destruct (PrimFloat.ltb r rate);
        apply IH in H as (kept & -> & Hsub & Hall & Hn & Hle & Hu').
      * exists kept. repeat split; try (now constructor).
        -- intros c' [<-|Hin] Hc'; [congruence|auto].
        -- simpl. lia.
        -- simpl. lia.
        -- rewrite Hu', Hu, skipn_skipn. simpl. now rewrite Nat.add_1_r.
      * exists (c :: kept). rewrite <- app_assoc. repeat split; try (now constructor).
        -- intros c' [<-|Hin] Hc'; [now left|right; auto].
        -- simpl. lia.
        -- simpl. lia.
        -- rewrite Hu', Hu, skipn_skipn. simpl. now rewrite Nat.add_1_r.
    + apply IH in H as (kept & -> & Hsub & Hall & Hn & Hle & Hu').
      exists (c :: kept). rewrite <- app_assoc. repeat split; try (now constructor); auto.
      * intros c' [<-|Hin] Hc'; [now left|right; auto].
      * simpl. lia.
Qed.

Lemma retained_cases cfg g ps kept g' :
  parameters cfg = Some ps ->
  Fixed.retained cfg g = Py.Ok (kept, g') \/ Demo.retained cfg g = Py.Ok (kept, g') ->
  (kept = all_combinations ps /\ g' = g)
  \/ exists rate n, thinning_loop (all_combinations ps) rate ([], 0, g) = Py.Ok (kept, n, g').
Proof.
  intros Hps [H|H]; unfold Fixed.retained, Demo.retained, Fixed._apply_filtering in H;
    rewrite Hps in H; cbn [require Py.bind] in H.
  - destruct (nonempty _).
    + match type of H with context [thinning_loop ?l ?r ?st] =>
        destruct (thinning_loop l r st) as [[[k n] g1]|e] eqn:Hloop end;
        [|discriminate H].
      cbn [Py.bind] in H. injection H as <- <-. right. eauto.
    + injection H as <- <-. now left.
  - match type of H with context [thinning_loop ?l ?r ?st] =>
      destruct (thinning_loop l r st) as [[[k n] g1]|e] eqn:Hloop end;
      [|discriminate H].
    cbn [Py.bind] in H. injection H as <- <-. right. eauto.
Qed.

(** X1. Thinning keeps the order. In both scripts the combinations that pass
    the thinning stage are the generated ones with some left out, in the
    order the generator produced them, and every combination the predicate
    is not true of passes, whatever the rate and the random outcomes. *)
Theorem thinning_keeps_order cfg g ps kept g' :
  parameters cfg = Some ps ->
  Fixed.retained cfg g = Py.Ok (kept, g') \/ Demo.retained cfg g = Py.Ok (kept, g') ->
  subsequence kept (all_combinations ps)
  /\ (forall c, In c (all_combinations ps) -> matches c = false -> In c kept).
Proof.
  intros Hps H.
  destruct (retained_cases cfg g ps kept g' Hps H) as [[-> _]|(rate & n & Hloop)].
  - split; [apply subsequence_refl|auto].
  - apply thinning_loop_account in Hloop as (k & -> & Hsub & Hall & _). auto.
Qed.

Lemma thinning_keeps_order_witness :
  subsequence scenario_survivors (all_combinations scenario_parameters)
  /\ (forall c, In c (all_combinations scenario_parameters) -> matches c = false ->
                In c scenario_survivors).
Proof.
  apply (thinning_keeps_order scenario_config spent scenario_parameters
           scenario_survivors spent).
  - reflexivity.
  - left. vm_compute. reflexivity.
Defined.

Lemma cap_left_out (l : list combination) (target : Z) (g : rng) :
  exists out, Permutation (fst (cap l target g) ++ out) l.
Proof.
  unfold cap. destruct (Z.of_nat (List.length l) >? target)%Z.
  - pose proof (shuffle_Permutation l g) as Hperm.
    destruct (shuffle l g) as [shuffled g']. cbn [fst] in *.
    unfold Py.slice_to.
    destruct (target <? 0)%Z;
      match goal with |- context [firstn ?k shuffled] =>
        exists (skipn k shuffled); rewrite firstn_skipn; now symmetry end.
  - exists []. now rewrite app_nil_r.
Qed.

(** X2. Nothing is manufactured. In both scripts the combinations handed to
    the orchestrator are taken from the Cartesian product, none more often
    than the product holds it: together with the ones left out they are a
    rearrangement of the product. *)
Theorem sampler_draws_from_product cfg g ps combos g' :
  parameters cfg = Some ps ->
  Fixed.generate_parameter_combinations cfg g = Py.Ok (combos, g')
  \/ Demo.generate_parameter_combinations cfg g = Py.Ok (combos, g') ->
  exists left_out, Permutation (combos ++ left_out) (all_combinations ps).
Proof.
  intros Hps H.
  assert (Hkept : exists kept g1 target,
            (Fixed.retained cfg g = Py.Ok (kept, g1)
             \/ Demo.retained cfg g = Py.Ok (kept, g1))
            /\ cap kept target g1 = (combos, g')).
  { destruct H as [H|H];
      unfold Fixed.generate_parameter_combinations,
        Demo.generate_parameter_combinations in H.
    - destruct (Fixed.retained cfg g) as [[kept g1]|e]; [|discriminate H].
      cbn [Py.bind] in H. injection H as H. eauto 6.
    - destruct (Demo.retained cfg g) as [[kept g1]|e]; [|discriminate H].
      cbn [Py.bind] in H. injection H as H. eauto 6. }
  destruct Hkept as (kept & g1 & target & Hret & Hcap).
  assert (Hsub : subsequence kept (all_combinations ps)).
  { destruct (retained_cases cfg g ps kept g1 Hps Hret) as [[-> _]|(rate & n & Hloop)].
    - apply subsequence_refl.
    - now apply thinning_loop_account in Hloop as (k & -> & Hsub & _). }
  destruct (subsequence_Permutation _ _ Hsub) as [dropped Hdropped].
  destruct (cap_left_out kept target g1) as [cut Hcut]. rewrite Hcap in Hcut.
  exists (cut ++ dropped). rewrite app_assoc, Hcut. exact Hdropped.
Qed.

Lemma sampler_draws_from_product_witness :
  exists left_out,
    Permutation (scenario_survivors ++ left_out) (all_combinations scenario_parameters).
Proof.
  apply (sampler_draws_from_product scenario_config spent scenario_parameters
           scenario_survivors spent).
  - reflexivity.
  - left. vm_compute. reflexivity.
Defined.

(** X3. Accounting of the thinning loop. When the loop returns, the
    combinations it counted as excluded and the ones it kept add up to the
    ones it was given; it excluded no more than the predicate is true of;
    and it asked [random.random()] for exactly one number per combination
    the predicate is true of. *)
Theorem thinning_accounting combos rate g filtered excluded_count g' :
  thinning_loop combos rate ([], 0, g) = Py.Ok (filtered, excluded_count, g') ->
  excluded_count + List.length filtered = List.length combos
  /\ excluded_count <= hits combos
  /\ uniforms g' = skipn (hits combos) (uniforms g).
Proof.
  intros H. apply thinning_loop_account in H as (kept & -> & _ & _ & Hn & Hle & Hu).
  simpl in *. auto.
Qed.

Lemma thinning_accounting_witness :
  1 + List.length scenario_survivors = List.length (all_combinations scenario_parameters)
  /\ 1 <= hits (all_combinations scenario_parameters)
  /\ [0.75%float]
     = skipn (hits (all_combinations scenario_parameters)) [0.25%float; 0.75%float].
Proof.
  apply (thinning_accounting (all_combinations scenario_parameters) 0.5%float
           {| uniforms := [0.25%float; 0.75%float]; draws := [] |}
           scenario_survivors 1 {| uniforms := [0.75%float]; draws := [] |}).
  vm_compute. reflexivity.
Defined.

(** X4. The two generators agree. Given a [batch_filtering] object that is
    not empty and leaves the rate at its default (or sets it to 0.5), the
    batch generator returns what the demo generator returns, from the same
    random outcomes. *)
Theorem generators_agree cfg g fc :
  batch_filtering cfg = Some fc -> nonempty fc = true ->
  sample_rate fc = None \/ sample_rate fc = Some 0.5%float ->
  Fixed.generate_parameter_combinations cfg g
  = Demo.generate_parameter_combinations cfg g.
Proof.
  intros Hfc Hne Hrate.
  unfold Fixed.generate_parameter_combinations, Demo.generate_parameter_combinations,
    Fixed.retained, Demo.retained, Fixed._apply_filtering,
    Fixed.effective_target, Demo.effective_target.
  rewrite Hfc. cbn [get_default]. rewrite Hne.
  assert (Hr : get_default (sample_rate fc) 0.5%float = 0.5%float)
    by (destruct Hrate as [->| ->]; reflexivity).
  rewrite Hr. destruct (require "parameters" (parameters cfg)) as [ps|e]; [|reflexivity].
  cbn [Py.bind].
  destruct (thinning_loop (all_combinations ps) 0.5 ([], 0, g)) as [[[kept n] g1]|e];
    reflexivity.
Qed.

Lemma generators_agree_witness :
  Fixed.generate_parameter_combinations (filtering_only (target_only 5)) spent
  = Demo.generate_parameter_combinations (filtering_only (target_only 5)) spent.
Proof.
  apply (generators_agree (filtering_only (target_only 5)) spent (target_only 5)).
  - reflexivity.
  - reflexivity.
  - left. reflexivity.
Defined.

(** X5. Without filtering nothing is thinned. When the configuration has no
    [batch_filtering] object, or an empty one, the batch generator does not
    evaluate the predicate and asks the random source for nothing: it keeps
    the whole Cartesian product, and returns it as it is when it holds at
    most 868 combinations. *)
Theorem unfiltered_sweep_is_complete cfg g ps :
  parameters cfg = Some ps ->
  nonempty (get_default (batch_filtering cfg) empty_filtering) = false ->
  Fixed.retained cfg g = Py.Ok (all_combinations ps, g)
  /\ (List.length (all_combinations ps) <= 868 ->
      Fixed.generate_parameter_combinations cfg g = Py.Ok (all_combinations ps, g)).
Proof.
  intros Hps Hempty.
  assert (Hret : Fixed.retained cfg g = Py.Ok (all_combinations ps, g)).
  { unfold Fixed.retained. rewrite Hps. cbn [require Py.bind]. now rewrite Hempty. }
  split; [exact Hret|]. intros Hlen.
  unfold Fixed.generate_parameter_combinations. rewrite Hret. cbn [Py.bind].
  assert (Htarget : Fixed.effective_target cfg = 868%Z).
  { unfold Fixed.effective_target.
    destruct (get_default (batch_filtering cfg) empty_filtering)
      as [[?|] [?|] [?|] [|? ?]]; try discriminate Hempty. reflexivity. }
  rewrite Htarget. unfold cap.
  assert (Hle : (Z.of_nat (List.length (all_combinations ps)) >? 868)%Z = false).
  { rewrite Z.gtb_ltb. apply Z.ltb_ge. lia. }
  unfold combination in *. now rewrite Hle.
Qed.

Lemma unfiltered_sweep_is_complete_witness :
  Fixed.retained unfiltered_config spent
  = Py.Ok (all_combinations scenario_parameters, spent)
  /\ (List.length (all_combinations scenario_parameters) <= 868 ->
      Fixed.generate_parameter_combinations unfiltered_config spent
      = Py.Ok (all_combinations scenario_parameters, spent)).
Proof.
  apply (unfiltered_sweep_is_complete unfiltered_config spent scenario_parameters);
    reflexivity.
Defined.

Lemma get_setitem_other {V} (d : Py.dict V) (k k' : string) (v : V) :
  k <> k' -> Py.get (Py.setitem d k v) k' = Py.get d k'.
Proof.
  intros Hne. induction d as [|[k0 v0] d IH]; simpl.
  - destruct (String.eqb_spec k' k); [congruence|reflexivity].
  - destruct (String.eqb_spec k k0) as [->|Hk]; simpl.
    + destruct (String.eqb_spec k' k0); [congruence|reflexivity].
    + destruct (String.eqb_spec k' k0); [reflexivity|exact IH].
Qed.

Lemma get_dict_of_absent {V} (pairs : list (string * V)) (k : string) :
  ~ In k (map fst pairs) -> Py.get (Py.dict_of pairs) k = None.
Proof.
  unfold Py.dict_of. assert (H : Py.get (@nil (string * V)) k = None) by reflexivity.
  revert H. generalize (@nil (string * V)) as d.
  induction pairs as [|[k0 v0] pairs IH]; intros d Hd Hnot; simpl; [exact Hd|].
  apply IH.
  - rewrite get_setitem_other; [exact Hd|]. intros ->. apply Hnot. now left.
  - intros Hin. apply Hnot. now right.
Qed.

Lemma combination_lacks_key {V} (ps : Py.dict (list V)) (k : string) (c : Py.dict V) :
  ~ In k (Py.keys ps) -> In c (all_combinations ps) -> Py.get c k = None.
Proof.
  intros Hnot Hin. unfold all_combinations in Hin.
  apply in_map_iff in Hin as (vs & <- & _). apply get_dict_of_absent.
  intros Hk. apply Hnot. apply in_map_iff in Hk as ([k0 v] & <- & Hkv).
  now apply in_combine_l in Hkv.
Qed.

Lemma thinning_loop_first_raises c rest rate st e :
  exclusion_predicate c = Py.Raise e ->
  thinning_loop (c :: rest) rate st = Py.Raise e.
Proof. intros H. destruct st as [[f n] g]. simpl. now rewrite H. Qed.

(** X6. The predicate needs [K_ch]. When the parameter space has no
    parameter named [K_ch] and is not empty, the demo generator fails with
    [KeyError: 'K_ch'], and so does the batch generator whenever the
    configuration has a [batch_filtering] object that is not empty. *)
Theorem thinning_needs_channel_width cfg g ps :
  parameters cfg = Some ps ->
  ~ In "K_ch"%string (Py.keys ps) ->
  all_combinations ps <> [] ->
  Demo.generate_parameter_combinations cfg g = Py.Raise (Py.KeyError "K_ch")
  /\ (nonempty (get_default (batch_filtering cfg) empty_filtering) = true ->
      Fixed.generate_parameter_combinations cfg g = Py.Raise (Py.KeyError "K_ch")).
Proof.
  intros Hps Hnot Hne.
  assert (Hloop : forall rate st,
            thinning_loop (all_combinations ps) rate st = Py.Raise (Py.KeyError "K_ch")).
  { intros rate st.
    destruct (all_combinations ps) as [|c rest] eqn:Hall; [congruence|].
    apply thinning_loop_first_raises. unfold exclusion_predicate, Py.getitem.
    rewrite (combination_lacks_key ps "K_ch" c Hnot); [reflexivity|].
    rewrite Hall. now left. }
  split.
  - unfold Demo.generate_parameter_combinations, Demo.retained.
    rewrite Hps. cbn [require Py.bind]. now rewrite Hloop.
  - intros Hfilter.
    unfold Fixed.generate_parameter_combinations, Fixed.retained, Fixed._apply_filtering.
    rewrite Hps. cbn [require Py.bind]. rewrite Hfilter. now rewrite Hloop.
Qed.

Lemma thinning_needs_channel_width_witness :
  Demo.generate_parameter_combinations depth_only_config spent
  = Py.Raise (Py.KeyError "K_ch")
  /\ (nonempty (get_default (batch_filtering depth_only_config) empty_filtering) = true ->
      Fixed.generate_parameter_combinations depth_only_config spent
      = Py.Raise (Py.KeyError "K_ch")).
Proof.
  apply (thinning_needs_channel_width depth_only_config spent depth_only_parameters).
  - reflexivity.
  - intros [H|[]]. discriminate H.
  - discriminate.
Defined.


(** ** Placeholders without a value *)

Lemma str_format_first_missing (template : list segment) (kwargs : Py.dict str) :
  match first_missing template kwargs with
  | Some k => str_format template kwargs = Py.Raise (Py.KeyError k)
  | None => exists n, str_format template kwargs = Py.Ok n
  end.
Proof.
  induction template as [|[text|name] rest IH]; simpl.
  - now exists [].
  - destruct (first_missing rest kwargs) as [k|].
    + now rewrite IH.
    + destruct IH as [n ->]. simpl. eauto.
  - unfold Py.getitem. destruct (Py.get kwargs name) as [v|]; [|reflexivity]. simpl.
    destruct (first_missing rest kwargs) as [k|].
    + now rewrite IH.
    + destruct IH as [n ->]. simpl. eauto.
Qed.

Lemma first_missing_map {V W} (g : V -> W) (template : list segment) (d : Py.dict V) :
  first_missing template (map (fun kv => (fst kv, g (snd kv))) d)
  = first_missing template d.
Proof.
  assert (Hget : forall k, Py.get (map (fun kv => (fst kv, g (snd kv))) d) k
                           = option_map g (Py.get d k)).
  { intros k. induction d as [|[k0 v0] d IH]; simpl; [reflexivity|].
    destruct (String.eqb k k0); [reflexivity|exact IH]. }
  induction template as [|[text|name] rest IH]; simpl; [reflexivity|exact IH|].
  rewrite Hget, IH. now destruct (Py.get d name).
Qed.

Lemma get_presented (present : float -> str) (c : combination) (k : string) :
  Py.get (map (fun kv => (fst kv, present (snd kv))) c) k
  = option_map present (Py.get c k).
Proof.
  induction c as [|[k0 v0] c IH]; simpl; [reflexivity|].
  destruct (String.eqb k k0); [reflexivity|exact IH].
Qed.

Lemma str_format_pieces (present : float -> str) (c : combination)
    (template : list segment) : forall name,
  str_format template (map (fun kv => (fst kv, present (snd kv))) c) = Py.Ok name ->
  exists pieces,
    Forall2 (piece_of present c) template pieces /\ name = List.concat pieces.
Proof.
  induction template as [|[text|key] rest IH]; intros name H; cbn [str_format] in H.
  - injection H as <-. exists []. split; [constructor|reflexivity].
  - destruct (str_format rest _) as [tail|e]; [|discriminate H].
    cbn [Py.bind] in H. injection H as <-.
    destruct (IH tail eq_refl) as (pieces & Hpieces & ->).
    exists (chars text :: pieces). split; [constructor; [reflexivity|exact Hpieces]|].
    reflexivity.
  - unfold Py.getitem in H. rewrite get_presented in H.
    destruct (Py.get c key) as [v|] eqn:Hv; [|discriminate H]. cbn [option_map Py.bind] in H.
    destruct (str_format rest _) as [tail|e]; [|discriminate H].
    cbn [Py.bind] in H. injection H as <-.
    destruct (IH tail eq_refl) as (pieces & Hpieces & ->).
    exists (present v :: pieces). split; [constructor; [now exists v|exact Hpieces]|].
    reflexivity.
Qed.

(** X7. Placeholders without a value. In both scripts the file name exists
    exactly when the combination has a value for every placeholder of the
    naming format; otherwise [generate_filename] fails with the [KeyError]
    of the first placeholder, in reading order, that has none. A name that
    exists is the text of the format, every placeholder replaced by the
    presentation of the combination's value ([str] of it in the batch
    generator, its three-decimal rendering in the demo generator), followed
    by the extension; the demo generator then drops the [+] of every [e+]. *)
Theorem filename_placeholders f cfg c :
  match first_missing (naming_format cfg) c with
  | Some k => Demo.generate_filename cfg c = Py.Raise (Py.KeyError k)
  | None =>
      exists pieces,
        Forall2 (piece_of render c) (naming_format cfg) pieces
        /\ Demo.generate_filename cfg c
           = Py.Ok (replace_eplus (List.concat pieces ++ chars (naming_extension cfg)))
  end
  /\ match first_missing
             (get_default (format (get_default (file_naming cfg) empty_naming))
                Fixed.default_format) c with
     | Some k => Fixed.generate_filename f cfg c = Py.Raise (Py.KeyError k)
     | None =>
         exists pieces,
           Forall2 (piece_of f c)
             (get_default (format (get_default (file_naming cfg) empty_naming))
                Fixed.default_format) pieces
           /\ Fixed.generate_filename f cfg c
              = Py.Ok (List.concat pieces ++ chars (naming_extension cfg))
     end.
Proof.
  split.
  - unfold Demo.generate_filename.
    pose proof (str_format_first_missing (naming_format cfg) (formatted_params c)) as H.
    pose proof (str_format_pieces render c (naming_format cfg)) as Hpieces.
    unfold formatted_params in H. rewrite first_missing_map in H.
    fold (formatted_params c) in H, Hpieces.
    destruct (first_missing (naming_format cfg) c) as [k|].
    + now rewrite H.
    + destruct H as [n Hn]. destruct (Hpieces n Hn) as (pieces & Hall & ->).
      rewrite Hn. cbn [Py.bind]. now exists pieces.
  - unfold Fixed.generate_filename, naming_extension.
    match goal with |- context [str_format ?t ?kw] =>
      pose proof (str_format_first_missing t kw) as H;
      pose proof (str_format_pieces f c t) as Hpieces end.
    rewrite first_missing_map in H.
    match type of H with match ?m with _ => _ end => destruct m as [k|] end.
    + now rewrite H.
    + destruct H as [n Hn]. destruct (Hpieces n Hn) as (pieces & Hall & ->).
      rewrite Hn. cbn [Py.bind]. now exists pieces.
Qed.

(** The batch generator's default format names [param1] and [param2]: a
    sweep over other parameters gets no file name. With a format of its own
    the first combination of the small sweep is named after its [K_ch]. *)
Example default_format_needs_param1 :
  Fixed.generate_filename str_of_whole default_naming_config small_and_large
  = Py.Raise (Py.KeyError "param1")
  /\ Fixed.generate_filename str_of_whole sweep_config
       [("K_ch", 1.0); ("W_ch", 1.0); ("W_rib", 5.0)]%float
     = Py.Ok (chars "model_1.0.mph").
Proof. split; vm_compute; reflexivity. Qed.

(** ** Mesh settings of the batch generator *)

Lemma get_setitem_same {V} (d : Py.dict V) (k : string) (v : V) :
  Py.get (Py.setitem d k v) k = Some v.
Proof.
  induction d as [|[k0 v0] d IH]; simpl.
  - now rewrite String.eqb_refl.
  - destruct (String.eqb k k0) eqn:E; simpl; rewrite E; [reflexivity|exact IH].
Qed.

Lemma mesh_loop_lookup (settings : list (string * mesh_setting)) (geom : combination) :
  NoDup (Py.keys settings) ->
  forall acc mesh_params,
  Fixed.mesh_loop settings geom acc = Py.Ok mesh_params ->
  forall key,
    Py.get mesh_params key
    = match Py.get settings key with
      | Some setting =>
          match quotient_of geom setting with
          | Some q => Some q
          | None => Py.get acc key
          end
      | None => Py.get acc key
      end.
Proof.
  induction settings as [|[k0 st] rest IH]; intros Hnd acc mp H key; simpl in *.
  - now injection H as <-.
  - apply NoDup_cons_iff in Hnd as [Hk0 Hnd].
    assert (Hrest : key = k0 -> Py.get rest key = None).
    { intros ->. now apply get_None. }
    destruct st as [name [d|]| |]; simpl in H.
    + destruct (Py.get geom name) as [x|] eqn:Hx.
      * cbn [Py.bind] in H. unfold truediv in H.
        destruct (PrimFloat.eqb d 0); [discriminate H|]. cbn [Py.bind] in H.
        rewrite (IH Hnd _ _ H key).
        destruct (String.eqb_spec key k0) as [->|Hne].
        -- rewrite (Hrest eq_refl). cbn [quotient_of]. rewrite Hx. simpl.
           apply get_setitem_same.
        -- destruct (Py.get rest key) as [st'|];
             [destruct (quotient_of geom st'); [reflexivity|]|];
             now apply get_setitem_other, not_eq_sym.
      * rewrite (IH Hnd _ _ H key).
        destruct (String.eqb_spec key k0) as [->|Hne]; [|reflexivity].
        rewrite (Hrest eq_refl). cbn [quotient_of]. now rewrite Hx.
    + destruct (Py.get geom name) as [x|] eqn:Hx; [discriminate H|].
      rewrite (IH Hnd _ _ H key).
      destruct (String.eqb_spec key k0) as [->|Hne]; [|reflexivity].
      now rewrite (Hrest eq_refl).
    + discriminate H.
    + rewrite (IH Hnd _ _ H key).
      destruct (String.eqb_spec key k0) as [->|Hne]; [|reflexivity].
      now rewrite (Hrest eq_refl).
Qed.

(** X8. Mesh parameters of the batch generator. When
    [calculate_mesh_parameters] returns, its result has exactly one entry
    for each setting of the form [name/divisor] whose [name] is a parameter
    of the combination, under the setting's key and holding the value of
    that parameter divided by the divisor; settings of any other form and
    settings on parameters the combination does not have leave no entry. *)
Theorem mesh_parameters_lookup cfg geom settings mesh_params :
  mesh_settings cfg = Some settings ->
  Py.wf settings ->
  Fixed.calculate_mesh_parameters cfg geom = Py.Ok mesh_params ->
  forall key,
    Py.get mesh_params key
    = match Py.get settings key with
      | Some setting => quotient_of geom setting
      | None => None
      end.
Proof.
  intros Hcfg Hwf H key. unfold Fixed.calculate_mesh_parameters in H.
  rewrite Hcfg in H. cbn [get_default] in H.
  rewrite (mesh_loop_lookup settings geom Hwf [] mesh_params H key).
  destruct (Py.get settings key) as [st|]; [|reflexivity].
  now destruct (quotient_of geom st).
Qed.

Lemma mesh_parameters_lookup_witness :
  Py.get [("interior_mesh_size"%string, 0.5%float)] "rib_mesh_size"
  = match Py.get example_mesh_settings "rib_mesh_size" with
    | Some setting => quotient_of mesh_scenario setting
    | None => None
    end.
Proof.
  apply (mesh_parameters_lookup
           (with_mesh_settings default_naming_config (Some example_mesh_settings))
           mesh_scenario example_mesh_settings).
  - reflexivity.
  - repeat constructor; simpl; intuition discriminate.
  - vm_compute. reflexivity.
Defined.

(** X9. Mesh settings matter only by raising. The batch generator computes
    the mesh parameters of a combination and hands them to no call: with
    any other [mesh_settings] on which the computation also returns,
    processing the combination makes the same calls and gives the same
    result. *)
Theorem mesh_settings_matter_only_by_raising f cfg settings c idx total w mp mp' :
  Fixed.calculate_mesh_parameters cfg c = Py.Ok mp ->
  Fixed.calculate_mesh_parameters (with_mesh_settings cfg settings) c = Py.Ok mp' ->
  Fixed.process_single_combination f (with_mesh_settings cfg settings) c idx total w
  = Fixed.process_single_combination f cfg c idx total w.
Proof.
  intros H H'.
  unfold Fixed.process_single_combination, Fixed.build, Fixed.acquire.
  cbn [template_model with_mesh_settings].
  destruct (bindM (lift (require "template_model" (template_model cfg))) _ w)
    as [[[model|]|e] w1]; try reflexivity.
  unfold ensure, catch, bindM. rewrite H, H'. reflexivity.
Qed.

Lemma mesh_settings_matter_only_by_raising_witness :
  Fixed.process_single_combination render
    (with_mesh_settings sweep_config (Some example_mesh_settings))
    mesh_scenario 1 1 {| script := []; trace := [] |}
  = Fixed.process_single_combination render sweep_config mesh_scenario 1 1
      {| script := []; trace := [] |}.
Proof.
  apply (mesh_settings_matter_only_by_raising render sweep_config
           (Some example_mesh_settings) mesh_scenario 1 1 _
           [] [("interior_mesh_size"%string, 0.5%float)]).
  - reflexivity.
  - vm_compute. reflexivity.
Defined.

(** ** Mesh parameters of the demo generator at the edges *)

Lemma truediv_five (k : float) : truediv k 5 = Py.Ok (k / 5)%float.
Proof. reflexivity. Qed.

(** X10. Channel widths without a mesh. [calculate_mesh_parameters] of the
    demo generator fails with [KeyError: 'K_ch'] on a combination without
    [K_ch], with [ZeroDivisionError] when [K_ch] is zero of either sign
    (the interior mesh size is then zero), and with [ValueError] when
    [K_ch] is not a number or infinite (the cell count is then not a
    number, which [round] rejects). *)
Theorem degenerate_channel_width c :
  match Py.get c "K_ch" with
  | None => Demo.calculate_mesh_parameters c = Py.Raise (Py.KeyError "K_ch")
  | Some k =>
      match Prim2SF k with
      | S754_zero _ => Demo.calculate_mesh_parameters c = Py.Raise Py.ZeroDivisionError
      | S754_nan | S754_infinity _ =>
          Demo.calculate_mesh_parameters c = Py.Raise Py.ValueError
      | S754_finite _ _ _ => True
      end
  end.
Proof.
  destruct (Py.get c "K_ch") as [k|] eqn:Hget;
    [|unfold Demo.calculate_mesh_parameters, Py.getitem; now rewrite Hget].
  assert (Hdiv : Prim2SF (k / 5) = SF64div (Prim2SF k) (Prim2SF 5)) by apply div_spec.
  assert (Hzero : PrimFloat.eqb (k / 5) 0 = SFeqb (Prim2SF (k / 5)) (Prim2SF 0))
    by apply FloatAxioms.eqb_spec.
  assert (Hcells : Prim2SF (k / (k / 5)) = SF64div (Prim2SF k) (Prim2SF (k / 5)))
    by apply div_spec.
  rewrite Hdiv in Hzero, Hcells.
  destruct (Prim2SF k) as [s|s| |s m e]; [| | |exact I];
    unfold Demo.calculate_mesh_parameters, Py.getitem; rewrite Hget; cbn [Py.bind];
    rewrite truediv_five; cbn [Py.bind]; unfold truediv at 1; rewrite Hzero.
  - now destruct s.
  - replace (SFeqb _ _) with false by now destruct s.
    cbn [Py.bind]. unfold round at 1. rewrite Hcells. now destruct s.
  - change (SFeqb _ _) with false.
    cbn [Py.bind]. unfold round at 1. now rewrite Hcells.
Qed.

(** A channel of width zero. *)
Example closed_channel_has_no_mesh :
  Demo.calculate_mesh_parameters closed_channel = Py.Raise Py.ZeroDivisionError.
Proof. vm_compute. reflexivity. Qed.


(** ** Names under the default format *)

Lemma digits_portable (s : str) :
  all_digits s -> Forall (fun ch => portable ch = true) s.
Proof.
  apply Forall_impl. intros ch H. unfold portable. now rewrite H.
Qed.

Lemma sign_portable (s : str) : is_sign s -> Forall (fun ch => portable ch = true) s.
Proof. intros [->| ->]; repeat constructor. Qed.

Lemma render_portable (value : float) :
  Forall (fun ch => portable ch = true) (replace_eplus (render value)).
Proof.
  assert (Hspecial : forall r, special r ->
            Forall (fun ch => portable ch = true) (replace_eplus r)).
  { intros r [->|[->| ->]]; repeat constructor. }
  unfold render.
  destruct (PrimFloat.ltb (PrimFloat.abs value) 1e-2 || PrimFloat.ltb 1e6 (PrimFloat.abs value))%bool.
  - destruct (format_sci3_shape value) as [H|H]; [now apply Hspecial|].
    destruct H as (sign & lead & frac & negative & ex & _ & -> & Hs & Hl & _ & Hf & _ & He & _).
    repeat (apply Forall_app; split);
      auto using digits_portable, sign_portable; try (repeat constructor).
    destruct negative; repeat constructor.
  - destruct (format_fixed3_shape value) as [H|[H ->]]; [now apply Hspecial|].
    destruct H as (sign & whole & frac & -> & Hs & Hw & _ & Hf & _).
    repeat (apply Forall_app; split);
      auto using digits_portable, sign_portable; repeat constructor.
Qed.

Lemma replace_eplus_literal (text : string) (rest : str) :
  ends_with_e (chars text) = false ->
  replace_eplus (chars text) = chars text ->
  replace_eplus (chars text ++ rest) = chars text ++ replace_eplus rest.
Proof.
  intros He Hr. rewrite replace_eplus_app by now rewrite He. now rewrite Hr.
Qed.

Lemma replace_eplus_render (value : float) (rest : str) :
  replace_eplus (render value ++ rest) = replace_eplus (render value) ++ replace_eplus rest.
Proof.
  apply replace_eplus_app.
  now rewrite (rendered_no_trailing_e _ _ (render_rendered value)).
Qed.

(** X11. Names under the default format. With the default format and
    extension the demo generator names a combination
    [batch_model_Kch_<K_ch>_Wch_<W_ch>_Wrib_<W_rib>.mph], each value in its
    three-decimal presentation with the plus sign of an exponent dropped,
    and the name consists of letters, digits, underscores, dots and hyphens
    only: it has no path separator, no blank and no plus sign. *)
Theorem default_name_is_portable cfg c name :
  naming_format cfg = default_format ->
  naming_extension cfg = ".mph"%string ->
  Demo.generate_filename cfg c = Py.Ok name ->
  exists k w r,
    Py.get c "K_ch" = Some k /\ Py.get c "W_ch" = Some w /\ Py.get c "W_rib" = Some r
    /\ name = chars "batch_model_Kch_" ++ replace_eplus (render k)
              ++ chars "_Wch_" ++ replace_eplus (render w)
              ++ chars "_Wrib_" ++ replace_eplus (render r) ++ chars ".mph"
    /\ Forall (fun ch => portable ch = true) name.
Proof.
  intros Hformat Hext H. unfold Demo.generate_filename in H.
  rewrite Hformat, Hext in H. unfold default_format in H.
  cbn [str_format] in H. unfold Py.getitem in H. rewrite !get_formatted in H.
  destruct (Py.get c "K_ch") as [k|]; [|discriminate H].
  destruct (Py.get c "W_ch") as [w|]; [|discriminate H].
  destruct (Py.get c "W_rib") as [r|]; [|discriminate H].
  cbn [option_map Py.bind] in H.
  assert (Hinj : forall a b : str, Py.Ok a = Py.Ok b -> b = a)
    by (intros a b [= ->]; reflexivity).
  apply Hinj in H. exists k, w, r. do 3 (split; [reflexivity|]).
  assert (Hname : replace_eplus
            ((chars "batch_model_Kch_" ++ render k ++ chars "_Wch_" ++ render w
              ++ chars "_Wrib_" ++ render r ++ []) ++ chars ".mph")
          = chars "batch_model_Kch_" ++ replace_eplus (render k)
            ++ chars "_Wch_" ++ replace_eplus (render w)
            ++ chars "_Wrib_" ++ replace_eplus (render r) ++ chars ".mph").
  { rewrite app_nil_r, <- !app_assoc.
    rewrite (replace_eplus_literal "batch_model_Kch_") by reflexivity.
    rewrite replace_eplus_render.
    rewrite (replace_eplus_literal "_Wch_") by reflexivity.
    rewrite replace_eplus_render.
    rewrite (replace_eplus_literal "_Wrib_") by reflexivity.
    rewrite replace_eplus_render. reflexivity. }
  rewrite H, Hname. split; [reflexivity|].
  repeat (apply Forall_app; split); try apply render_portable; repeat constructor.
Qed.

Lemma default_name_is_portable_witness :
  exists k w r,
    Py.get small_and_large "K_ch" = Some k /\ Py.get small_and_large "W_ch" = Some w
    /\ Py.get small_and_large "W_rib" = Some r
    /\ chars "batch_model_Kch_3.400e-03_Wch_2.500_Wrib_1.000e07.mph"
       = chars "batch_model_Kch_" ++ replace_eplus (render k)
         ++ chars "_Wch_" ++ replace_eplus (render w)
         ++ chars "_Wrib_" ++ replace_eplus (render r) ++ chars ".mph"
    /\ Forall (fun ch => portable ch = true)
         (chars "batch_model_Kch_3.400e-03_Wch_2.500_Wrib_1.000e07.mph").
Proof.
  apply (default_name_is_portable default_naming_config small_and_large).
  - reflexivity.
  - reflexivity.
  - vm_compute. reflexivity.
Defined.


(** ** The calls made for one combination *)

Ltac in_order :=
  repeat first [ apply sub_nil | apply sub_keep | apply sub_skip ].

Ltac protocol_leaf :=
  cbn; rewrite ?Nat.eqb_refl; cbn;
  split; [first [ solve [exists (@nil ascii); in_order] | solve [eexists; in_order] ]|];
  split;
    [ intros p o Hin;
      repeat (destruct Hin as [Hin|Hin];
              [first [discriminate Hin | inversion Hin; subst; eauto 6]|]);
      contradiction
    | intros Hfailed;
      first [ discriminate Hfailed
            | split; [reflexivity|];
              split; [intros Ht; first [discriminate Ht | reflexivity]
                     |intros Ht [n Hn] Hd;
                      first [discriminate Ht | discriminate Hn
                            | congruence | reflexivity]] ] ].

Lemma fixed_single_protocol f cfg c idx total s :
  let evs := trace (snd (from_script
                           (Fixed.process_single_combination f cfg c idx total) s)) in
  (exists path, subsequence (map fst evs) (protocol idx path))
  /\ (forall p o, In (Save idx p, o) evs ->
        exists dir name,
          output_directory cfg = Some dir
          /\ Fixed.generate_filename f cfg c = Py.Ok name
          /\ p = path_join dir name)
  /\ (existsb (is_mesh_failed idx) evs = true ->
      existsb (is_statistics idx) evs = false
      /\ (tolerant cfg = false -> existsb (is_save idx) evs = false)
      /\ (tolerant cfg = true ->
          (exists name, Fixed.generate_filename f cfg c = Py.Ok name) ->
          output_directory cfg <> None ->
          existsb (is_save idx) evs = true)).
Proof.
  unfold from_script, Fixed.process_single_combination, Fixed.acquire, Fixed.build,
    Fixed.release, Fixed.generate_mesh_for_model, Fixed.verify_mesh_quality,
    Fixed.verify_output_file, ensure, catch, bindM, retM, lift, engine, probe, perform,
    require, get_default, tolerant, protocol.
  generalize (ordinary_fixed_mesh cfg c).
  generalize (Fixed.calculate_mesh_parameters cfg c) as mesh.
  generalize (ordinary_fixed_filename f cfg c).
  generalize (Fixed.generate_filename f cfg c) as name.
  destruct (template_model cfg) as [template|], (error_tolerance cfg) as [tolerance|],
    (output_directory cfg) as [directory|], (verify_output cfg) as [[|]|];
    intros name Hname mesh Hmesh; cbn;
    repeat (next_outcome; cbn); protocol_leaf.
Qed.

(** X12. The calls of one combination. Whatever the engine and the file
    system answer, the batch generator makes the calls for a combination in
    the order template check, load, parameter setup, mesh run, mesh
    statistics, save, output check, output size, removal, each at most
    once, and it saves the model at the path that [os.path.join] makes of
    the configured output directory and the name [generate_filename]
    gives. *)
Theorem single_combination_protocol f cfg c idx total s :
  let evs := trace (snd (from_script
                           (Fixed.process_single_combination f cfg c idx total) s)) in
  (exists path, subsequence (map fst evs) (protocol idx path))
  /\ (forall p o, In (Save idx p, o) evs ->
        exists dir name,
          output_directory cfg = Some dir
          /\ Fixed.generate_filename f cfg c = Py.Ok name
          /\ p = path_join dir name).
Proof.
  cbv zeta. destruct (fixed_single_protocol f cfg c idx total s) as (Horder & Hsave & _).
  split; [exact Horder|exact Hsave].
Qed.

Lemma no_save_not_completed idx (evs : list (call * outcome)) :
  existsb (is_save idx) evs = false -> completed idx evs = false.
Proof.
  intros H. unfold completed.
  replace (existsb (is_save_done idx) evs) with false; [reflexivity|].
  symmetry. induction evs as [|[call o] evs IH]; simpl in *; [reflexivity|].
  apply orb_false_elim in H as [Hev H]. rewrite (IH H), orb_false_r.
  unfold is_save in Hev. simpl in Hev. destruct call, o; try reflexivity; exact Hev.
Qed.

(** X13. A failed mesh run. When the mesh run of a combination fails, the
    batch generator does not ask for the mesh statistics. Unless
    [error_tolerance] is ["continue"] it does not save the model and the
    combination does not succeed; with ["continue"] it goes on to save the
    model, provided the combination has a file name and the output
    directory is configured. *)
Theorem mesh_failure_tolerance f cfg c idx total s :
  let run := from_script (Fixed.process_single_combination f cfg c idx total) s in
  let evs := trace (snd run) in
  existsb (is_mesh_failed idx) evs = true ->
  existsb (is_statistics idx) evs = false
  /\ (tolerant cfg = false ->
      existsb (is_save idx) evs = false /\ fst run <> Py.Ok true)
  /\ (tolerant cfg = true ->
      (exists name, Fixed.generate_filename f cfg c = Py.Ok name) ->
      output_directory cfg <> None ->
      existsb (is_save idx) evs = true).
Proof.
  cbv zeta. intros Hfailed.
  destruct (fixed_single_protocol f cfg c idx total s) as (_ & _ & Hmesh).
  destruct (Hmesh Hfailed) as (Hstats & Hstrict & Htolerant).
  split; [exact Hstats|]. split; [|exact Htolerant].
  intros Ht. split; [now apply Hstrict|].
  pose proof (fixed_single_spec f cfg c idx total s) as Hspec.
  destruct Hspec as (_ & _ & _ & _ & _ & _ & _ & _ & Hres).
  intros Hrun. rewrite Hrun in Hres. destruct Hres as [_ Hres].
  rewrite (no_save_not_completed idx _ (Hstrict Ht)) in Hres. discriminate Hres.
Qed.

Lemma mesh_failure_tolerance_witness :
  existsb (is_statistics 1)
    (trace (snd (from_script
                   (Fixed.process_single_combination render tolerant_sweep_config
                      mesh_scenario 1 1) mesh_fault))) = false
  /\ (tolerant tolerant_sweep_config = false ->
      existsb (is_save 1)
        (trace (snd (from_script
                       (Fixed.process_single_combination render tolerant_sweep_config
                          mesh_scenario 1 1) mesh_fault))) = false
      /\ fst (from_script
                (Fixed.process_single_combination render tolerant_sweep_config
                   mesh_scenario 1 1) mesh_fault) <> Py.Ok true)
  /\ (tolerant tolerant_sweep_config = true ->
      (exists name,
         Fixed.generate_filename render tolerant_sweep_config mesh_scenario
         = Py.Ok name) ->
      output_directory tolerant_sweep_config <> None ->
      existsb (is_save 1)
        (trace (snd (from_script
                       (Fixed.process_single_combination render tolerant_sweep_config
                          mesh_scenario 1 1) mesh_fault))) = true).
Proof.
  apply (mesh_failure_tolerance render tolerant_sweep_config mesh_scenario 1 1 mesh_fault).
  vm_compute. reflexivity.
Defined.

(** The tolerated failure, call by call: no statistics, the model saved. *)
Example tolerated_mesh_failure_run :
  from_script (Fixed.process_single_combination str_of_whole tolerant_sweep_config
                 [("K_ch", 2.0); ("W_ch", 1.0); ("W_rib", 5.0)]%float 1 1) mesh_fault
  = (Py.Ok true,
     {| script := [];
        trace := [(TemplateExists, Done); (Load 1, Done); (SetupParameters 1, Done);
                  (RunMesh 1, Fails);
                  (Save 1 (chars "out/model_2.0.mph"), Done);
                  (VerifyOutput 1, Done); (OutputSize 1, Done); (Remove 1, Done)] |}).
Proof. vm_compute. reflexivity. Qed.

(** ** The order of the combinations *)

Lemma fixed_loop_blocks f cfg combos : forall first total t s,
  let run := from_script (Fixed.process_all f cfg combos first total t) s in
  exists blocks,
    trace (snd run) = List.concat blocks
    /\ List.length blocks <= List.length combos
    /\ ((exists t', fst run = Py.Ok t') -> List.length blocks = List.length combos)
    /\ (forall j block, nth_error blocks j = Some block ->
          forallb (within (first + j)) block = true).
Proof.
  induction combos as [|c combos IH]; intros first total t s; cbv zeta.
  - exists []. repeat split; auto. intros [|j] block H; discriminate H.
  - cbn [Fixed.process_all List.length].
    rewrite from_script_bind by (intros a; apply framed_fixed_process_all).
    pose proof (fixed_single_spec f cfg c first total s) as Hone.
    destruct (from_script (Fixed.process_single_combination f cfg c first total) s)
      as [[success|e] w1]; cbn [fst snd] in Hone |- *;
      destruct Hone as (Hin & _).
    + destruct (IH (S first) total (count success t) (script w1))
        as (blocks & Htrace & Hlen & Hok & Hblocks).
      exists (trace w1 :: blocks). cbn [trace List.concat List.length].
      split; [now rewrite Htrace|]. split; [lia|]. split; [intros H; f_equal; auto|].
      intros [|j] block H; cbn [nth_error] in H.
      * injection H as <-. now rewrite Nat.add_0_r.
      * replace (first + S j) with (S first + j) by lia. now apply Hblocks.
    + exists [trace w1]. cbn [List.concat List.length]. rewrite app_nil_r.
      split; [reflexivity|]. split; [lia|]. split; [intros [t' H]; discriminate H|].
      intros [|[|j]] block H; try discriminate H.
      injection H as <-. now rewrite Nat.add_0_r.
Qed.

(** X14. One combination at a time. The calls of a run of the loop fall
    into consecutive blocks, one per combination started, in the order of
    the list: block number j holds only calls made for combination j + 1
    (counted from 1 as the loop counts them), so calls of different
    combinations never interleave. A loop that returns went through every
    combination. *)
Theorem combinations_processed_in_order f cfg combos s :
  let run := from_script
               (Fixed.process_all f cfg combos 1 (List.length combos) empty_tally) s in
  exists blocks,
    trace (snd run) = List.concat blocks
    /\ List.length blocks <= List.length combos
    /\ ((exists t, fst run = Py.Ok t) -> List.length blocks = List.length combos)
    /\ (forall j block, nth_error blocks j = Some block ->
          forallb (within (S j)) block = true).
Proof.
  cbv zeta.
  destruct (fixed_loop_blocks f cfg combos 1 (List.length combos) empty_tally s)
    as (blocks & Htrace & Hlen & Hok & Hblocks).
  exists blocks. repeat split; auto.
Qed.


(** ** How a run of the batch generator ends *)

Lemma fixed_preamble_calls cfg s :
  let r := match Fixed.returning_false (create_output_directory cfg)
                   {| script := s; trace := [] |} with
           | (Py.Ok true, w1) => Fixed.returning_false Fixed.connect_comsol_server w1
           | other => other
           end in
  (exists k, script (snd r) = skipn k s)
  /\ List.length (trace (snd r)) <= 3
  /\ (forall port o, In (Connect port, o) (trace (snd r)) ->
        In (MakeDirs, Done) (trace (snd r))
        /\ (port = None \/ port = Some 8080%Z /\ In (Connect None, Fails) (trace (snd r)))).
Proof.
  unfold Fixed.returning_false, create_output_directory, Fixed.connect_comsol_server,
    catch, bindM, lift, retM, engine, perform, require.
  destruct (output_directory cfg) as [directory|]; cbn.
  2: { split; [now exists 0|]. split; [lia|]. intros port o []. }
  destruct s as [|[] [|[] [|[] s]]]; cbn;
    (split; [first [now exists 0 | now exists 1 | now exists 2 | now exists 3]|]);
    (split; [lia|]); intros port o Hin;
    repeat (destruct Hin as [Hin|Hin]; [try discriminate Hin; inversion Hin; subst; auto 8|]);
    contradiction.
Qed.

Lemma fixed_session_result f cfg g s pre :
  exists body o s',
    ensure (Fixed.returning_false (_ <~ Fixed.generate_and_process f cfg g ;; retM true))
      Fixed.disconnect {| script := s; trace := pre |}
    = (match o with
       | Interrupted => Py.Raise Py.KeyboardInterrupt
       | _ => Py.Ok (match Fixed.generate_parameter_combinations cfg g with
                     | Py.Ok _ => negb (existsb is_interrupted body)
                     | Py.Raise _ => false
                     end)
       end,
       {| script := s'; trace := pre ++ body ++ [(Disconnect, o)] |})
    /\ forallb (from_index 1) body = true
    /\ (existsb is_interrupted body = true -> In Interrupted s)
    /\ (o = Interrupted -> In Interrupted s).
Proof.
  unfold ensure, Fixed.returning_false, Fixed.generate_and_process, bindM, lift.
  destruct (Fixed.generate_parameter_combinations cfg g) as [[combos g']|e].
  - cbn [fst].
    rewrite (framed_fixed_process_all f cfg combos 1 (List.length combos) empty_tally s pre).
    pose proof (fixed_loop_spec f cfg combos 1 (List.length combos) empty_tally s) as Hloop.
    unfold from_script in Hloop.
    destruct (Fixed.process_all f cfg combos 1 (List.length combos) empty_tally
                {| script := s; trace := [] |}) as [r [s1 body]].
    cbn [fst snd script trace] in *.
    destruct Hloop as (Hfrom & _ & _ & _ & [k Hskip] & Hint & Hres).
    cbn [trace script] in Hfrom, Hint, Hres, Hskip. exists body.
    assert (Hlast : forall o rest, s1 = o :: rest -> o = Interrupted -> In Interrupted s).
    { intros o rest -> ->. apply (In_skipn _ k). rewrite <- Hskip. now left. }
    destruct r as [t|e]; [destruct Hres as [Hcalm _]|destruct Hres as [_ Hraised]];
      destruct s1 as [|[] s1]; cbn; rewrite ?Hcalm, ?Hraised;
      match goal with
      | |- exists _ _, (_, {| script := ?s'; trace := _ ++ [(Disconnect, ?o)] |}) = _ /\ _ =>
          exists o, s'
      end;
      (split; [rewrite <- app_assoc; reflexivity|]);
      repeat split; try assumption; try discriminate; eauto.
  - exists []. destruct s as [|[] s]; cbn;
      match goal with
      | |- exists _ _, (_, {| script := ?s'; trace := _ ++ [(Disconnect, ?o)] |}) = _ /\ _ =>
          exists o, s'
      end;
      (split; [reflexivity|]);
      repeat split; try discriminate; intros; now left.
Qed.

Lemma fixed_run_cases f cfg g s :
  let run := from_script (Fixed.run_batch_generation f cfg g) s in
  exists pre,
    forallb is_setup pre = true
    /\ List.length pre <= 3
    /\ (forall port o, In (Connect port, o) pre ->
          In (MakeDirs, Done) pre
          /\ (port = None \/ port = Some 8080%Z /\ In (Connect None, Fails) pre))
    /\ ((existsb is_connect_done pre = false
         /\ fst run = Py.Ok false /\ trace (snd run) = pre)
        \/ (existsb is_connect_done pre = true
            /\ existsb is_interrupted pre = false
            /\ exists body o,
                 fst run = match o with
                           | Interrupted => Py.Raise Py.KeyboardInterrupt
                           | _ => Py.Ok
                                    (match Fixed.generate_parameter_combinations cfg g with
                                     | Py.Ok _ => negb (existsb is_interrupted body)
                                     | Py.Raise _ => false
                                     end)
                           end
                 /\ trace (snd run) = pre ++ body ++ [(Disconnect, o)]
                 /\ forallb (from_index 1) body = true
                 /\ (existsb is_interrupted body = true -> In Interrupted s)
                 /\ (o = Interrupted -> In Interrupted s))).
Proof.
  cbv zeta. unfold from_script, Fixed.run_batch_generation.
  pose proof (fixed_preamble cfg s) as Hpre. cbv zeta in Hpre.
  pose proof (fixed_preamble_calls cfg s) as Hcalls. cbv zeta in Hcalls.
  destruct (Fixed.returning_false (create_output_directory cfg)
              {| script := s; trace := [] |}) as [[[|]|e] w1].
  2: { destruct Hpre as (Hset & _ & [[H _]|[_ Hconn]]); [discriminate H|].
       destruct Hcalls as (_ & Hlen & Hports). cbn [fst snd] in *.
       exists (trace w1). auto 8. }
  2: { destruct Hpre as (_ & _ & [[H _]|[H _]]); discriminate H. }
  destruct (Fixed.returning_false Fixed.connect_comsol_server w1) as [[[|]|e] [s2 pre]].
  2: { destruct Hpre as (Hset & _ & [[H _]|[_ Hconn]]); [discriminate H|].
       destruct Hcalls as (_ & Hlen & Hports). cbn [fst snd trace] in *.
       exists pre. auto 8. }
  2: { destruct Hpre as (_ & _ & [[H _]|[H _]]); discriminate H. }
  destruct Hpre as (Hset & _ & [(_ & Hcalm & Hconn)|[H _]]); [|discriminate H].
  destruct Hcalls as ([k Hskip] & Hlen & Hports). cbn [fst snd trace script] in *.
  destruct (fixed_session_result f cfg g s2 pre) as (body & o & s' & -> & Hfrom & Hbody & Ho).
  exists pre. split; [exact Hset|]. split; [exact Hlen|]. split; [exact Hports|].
  right. split; [exact Hconn|]. split; [exact Hcalm|]. exists body, o.
  cbn [fst snd trace]. repeat split; auto.
  - intros H. apply (In_skipn _ k). rewrite <- Hskip. auto.
  - intros H. apply (In_skipn _ k). rewrite <- Hskip. auto.
Qed.

(** X15. Failures before the loop. When the batch generator cannot create
    the output directory, or can connect neither directly nor on port 8080,
    the run returns [False] having made at most three calls, all of them to
    create the directory or to connect: no combination is touched and
    nothing is disconnected. It tries to connect only once the directory
    exists, and tries port 8080 only after the direct connection failed. *)
Theorem preparation_failure_aborts f cfg g s :
  let run := from_script (Fixed.run_batch_generation f cfg g) s in
  let evs := trace (snd run) in
  (existsb is_connect_done evs = false ->
   fst run = Py.Ok false /\ forallb is_setup evs = true /\ List.length evs <= 3)
  /\ (forall port o, In (Connect port, o) evs ->
        In (MakeDirs, Done) evs
        /\ (port = None \/ port = Some 8080%Z /\ In (Connect None, Fails) evs)).
Proof.
  cbv zeta.
  destruct (fixed_run_cases f cfg g s)
    as (pre & Hset & Hlen & Hports
        & [(Hconn & Hres & ->)|(Hconn & _ & body & o & _ & -> & Hfrom & _)]).
  - auto.
  - split.
    + rewrite existsb_app, Hconn. discriminate.
    + intros port o' Hin. apply in_app_or in Hin as [Hin|Hin].
      * destruct (Hports port o' Hin) as [Hdir Hport]. split; [apply in_or_app; auto|].
        destruct Hport as [->|[-> Hfails]]; [now left|right].
        split; [reflexivity|apply in_or_app; auto].
      * exfalso. apply in_app_or in Hin as [Hin|[Hin|[]]]; [|discriminate Hin].
        rewrite forallb_forall in Hfrom. specialize (Hfrom _ Hin). discriminate Hfrom.
Qed.

(** X16. Failed combinations do not fail the run. Once connected, and with
    no interrupt signal arriving, [run_batch_generation] returns [True]
    exactly when the parameter combinations could be generated: however
    many combinations fail, the run still succeeds. *)
Theorem run_succeeds_despite_failures f cfg g s :
  let run := from_script (Fixed.run_batch_generation f cfg g) s in
  calm s ->
  existsb is_connect_done (trace (snd run)) = true ->
  fst run = Py.Ok (match Fixed.generate_parameter_combinations cfg g with
                   | Py.Ok _ => true
                   | Py.Raise _ => false
                   end).
Proof.
  cbv zeta. intros Hcalm Hdone.
  destruct (fixed_run_cases f cfg g s)
    as (pre & _ & _ & _
        & [(Hconn & _ & Htrace)|(_ & _ & body & o & -> & _ & _ & Hbody & Ho)]).
  - rewrite Htrace in Hdone. congruence.
  - destruct (existsb is_interrupted body); [now destruct Hcalm; apply Hbody|].
    destruct o; [reflexivity|reflexivity|now destruct Hcalm; apply Ho].
Qed.

Lemma run_succeeds_despite_failures_witness :
  fst (from_script (Fixed.run_batch_generation render sweep_config spent)
         (Done :: Done :: setup_fault))
  = Py.Ok (match Fixed.generate_parameter_combinations sweep_config spent with
           | Py.Ok _ => true
           | Py.Raise _ => false
           end).
Proof.
  apply (run_succeeds_despite_failures render sweep_config spent
           (Done :: Done :: setup_fault)).
  - intros H. repeat (destruct H as [H|H]; [discriminate H|]). exact H.
  - vm_compute. reflexivity.
Defined.


(** ** The demo generator, call by call *)

Ltac demo_leaf :=
  cbn; rewrite ?Nat.eqb_refl; cbn;
  split; [first [ now exists 0 | now exists 1 | now exists 2 | now exists 3
                | now exists 4 ]|];
  split; [split; intros H; first [discriminate H | reflexivity | inversion H]|];
  intros ev Hin;
  repeat (destruct Hin as [Hin|Hin]; [now subst ev|]); contradiction.

(** X17. The calls of one demo combination. Whatever the file system
    answers, the demo generator writes the metadata file, writes the
    placeholder model file, checks that it exists and asks for its size, in
    this order, and stops at the first of these that does not succeed; the
    combination succeeds exactly when all four did. *)
Theorem demo_combination_protocol cfg c idx total s :
  let run := from_script (Demo.process_single_combination cfg c idx total) s in
  let evs := trace (snd run) in
  (exists n, map fst evs = firstn n (demo_protocol idx))
  /\ (fst run = Py.Ok true <->
      evs = [(WriteMetadata idx, Done); (WriteModel idx, Done);
             (CheckOutput idx, Done); (OutputSize idx, Done)])
  /\ (forall ev, In ev (removelast evs) -> snd ev = Done).
Proof.
  unfold from_script, Demo.process_single_combination, catch, bindM, retM, lift, engine,
    probe, perform, require, demo_protocol.
  generalize (ordinary_demo_mesh c).
  generalize (Demo.calculate_mesh_parameters c) as mesh.
  generalize (ordinary_demo_filename cfg c).
  generalize (Demo.generate_filename cfg c) as name.
  destruct (template_model cfg) as [template|], (output_directory cfg) as [directory|];
    intros name Hname mesh Hmesh; cbn;
    repeat (next_outcome; cbn); demo_leaf.
Qed.

(** ** The demo generator's summary *)

(** X18. The demo generator's report. A summary is written at most once,
    after the combinations could be generated and the loop has gone through
    all of them; the total it reports is the number of combinations and its
    counts of successes and failures add up to that total. The final
    results are printed only once the summary is written, as the last call
    of the run, and the run returns [True] exactly when they were printed:
    a summary on disk does not mean that the run succeeded. *)
Theorem demo_summary_counts cfg g s :
  let run := from_script (Demo.run_batch_generation cfg g) s in
  let evs := trace (snd run) in
  (forall total successful failed o,
     In (WriteSummary total successful failed, o) evs ->
     exists combos g' front back,
       Demo.generate_parameter_combinations cfg g = Py.Ok (combos, g')
       /\ total = List.length combos
       /\ successful + failed = total
       /\ evs = front ++ (WriteSummary total successful failed, o) :: back
       /\ forallb before_report front = true
       /\ match o with
          | Done => exists o', back = [(PrintResults, o')]
          | _ => back = []
          end)
  /\ (forall o, In (PrintResults, o) evs -> existsb is_summary_done evs = true)
  /\ (fst run = Py.Ok true <-> In (PrintResults, Done) evs).
Proof.
  cbv zeta.
  destruct (demo_run_cases cfg g s)
    as [[Hnone Hres]
       |(combos & g' & front & successful & failed & o & back & Hgen & -> & Hfront
         & Hsum & Ho)].
  - split; [|split].
    + intros total successful failed o Hin.
      apply (no_summary_absent _ _ (before_report_no_summary _ Hnone)) in Hin.
      discriminate Hin.
    + intros o Hin. now apply (before_report_no_results _ _ Hnone) in Hin.
    + split; [contradiction|]. intros Hin.
      now apply (before_report_no_results _ _ Hnone) in Hin.
  - assert (Hback : forall total a b o', ~ In (WriteSummary total a b, o') back).
    { intros total a b o' Hin.
      destruct o; [destruct Ho as (o1 & -> & _)|destruct Ho as [-> _]..];
        [destruct Hin as [Hin|[]]; discriminate Hin|destruct Hin..]. }
    split; [|split].
    + intros total a b o' Hin. apply in_app_or in Hin as [Hin|[Hin|Hin]].
      * apply (no_summary_absent _ _ (before_report_no_summary _ Hfront)) in Hin.
        discriminate Hin.
      * injection Hin as Ht Ha Hb Ho'. subst total a b o'. exists combos, g', front, back.
        repeat split; auto.
        destruct o; [destruct Ho as (o1 & -> & _); eauto|apply Ho..].
      * now apply Hback in Hin.
    + intros o' Hin. rewrite existsb_app. apply orb_true_iff. right.
      apply in_app_or in Hin as [Hin|[Hin|Hin]].
      * now apply (before_report_no_results _ _ Hfront) in Hin.
      * discriminate Hin.
      * destruct o; [reflexivity|destruct Ho as [-> _]; destruct Hin..].
    + destruct o.
      * destruct Ho as (o1 & -> & ->). split.
        -- destruct o1; intros H; try discriminate H.
           apply in_or_app. right. right. now left.
        -- intros Hin. apply in_app_or in Hin as [Hin|[Hin|[Hin|[]]]].
           ++ now apply (before_report_no_results _ _ Hfront) in Hin.
           ++ discriminate Hin.
           ++ injection Hin as Ho1. now subst o1.
      * destruct Ho as [-> ->]. split; [discriminate|]. intros Hin.
        apply in_app_or in Hin as [Hin|[Hin|[]]]; [|discriminate Hin].
        now apply (before_report_no_results _ _ Hfront) in Hin.
      * destruct Ho as [-> ->]. split; [discriminate|]. intros Hin.
        apply in_app_or in Hin as [Hin|[Hin|[]]]; [|discriminate Hin].
        now apply (before_report_no_results _ _ Hfront) in Hin.
Qed.

(** The summary is on disk, the prints fail: the run returns [False]. *)
Example summary_written_run_failed :
  from_script (Demo.run_batch_generation sweep_config spent) (repeat Done 11 ++ [Fails])
  = (Py.Ok false,
     {| script := [];
        trace := [(PrintLine, Done); (MakeDirs, Done);
                  (WriteMetadata 1, Done); (WriteModel 1, Done);
                  (CheckOutput 1, Done); (OutputSize 1, Done);
                  (WriteMetadata 2, Done); (WriteModel 2, Done);
                  (CheckOutput 2, Done); (OutputSize 2, Done);
                  (WriteSummary 2 2 0, Done); (PrintResults, Fails)] |}).
Proof. vm_compute. reflexivity. Qed.


(** ** The simulation runner: finding the installation *)

(** X19. Finding the installation. [_find_comsol] returns the first of the
    three common installation paths that exists, whatever [COMSOL_PATH]
    says; if none exists it returns the value of [COMSOL_PATH] provided it
    is set, not empty and exists; otherwise nothing. A path it returns
    exists. A runner constructed with a path that is not empty keeps it
    without looking at the file system. *)
Theorem find_comsol_spec path_exists comsol_env :
  match Runner._find_comsol path_exists comsol_env with
  | Some path =>
      path_exists path = true
      /\ ((exists earlier later,
             Runner.common_paths = earlier ++ path :: later
             /\ forall p, In p earlier -> path_exists p = false)
          \/ (comsol_env = Some path /\ path <> ""%string
              /\ forall p, In p Runner.common_paths -> path_exists p = false))
  | None =>
      (forall p, In p Runner.common_paths -> path_exists p = false)
      /\ (forall p, comsol_env = Some p -> p = ""%string \/ path_exists p = false)
  end
  /\ (forall path, path <> ""%string ->
        Runner.init (Some path) path_exists comsol_env = Some path).
Proof.
  split.
  - unfold Runner._find_comsol.
    assert (Hfind : forall l,
              match find path_exists l with
              | Some path =>
                  path_exists path = true
                  /\ exists earlier later,
                       l = earlier ++ path :: later
                       /\ forall p, In p earlier -> path_exists p = false
              | None => forall p, In p l -> path_exists p = false
              end).
    { induction l as [|p l IH]; simpl; [intros p []|].
      destruct (path_exists p) eqn:Hp.
      - split; [exact Hp|]. exists [], l. split; [reflexivity|intros q []].
      - destruct (find path_exists l) as [path|].
        + destruct IH as (Hpath & earlier & later & -> & Hnone).
          split; [exact Hpath|]. exists (p :: earlier), later.
          split; [reflexivity|]. intros q [<-|Hq]; auto.
        + intros q [<-|Hq]; auto. }
    specialize (Hfind Runner.common_paths).
    destruct (find path_exists Runner.common_paths) as [path|].
    + destruct Hfind as [Hpath Hfirst]. auto.
    + destruct comsol_env as [path|].
      * destruct (String.eqb_spec path ""); cbn [negb andb].
        -- split; [exact Hfind|]. intros p [= <-]. now left.
        -- destruct (path_exists path) eqn:Hpath.
           ++ split; [exact Hpath|]. right. auto.
           ++ split; [exact Hfind|]. intros p [= <-]. now right.
      * split; [exact Hfind|]. intros p H. discriminate H.
  - intros path Hpath. unfold Runner.init.
    destruct (String.eqb_spec path ""); [contradiction|reflexivity].
Qed.

(** With none of the common paths there, the variable decides. *)
Example find_comsol_by_environment :
  Runner._find_comsol Runner.only_env (Some "/opt/comsol"%string)
  = Some "/opt/comsol"%string
  /\ Runner._find_comsol Runner.only_env (Some ""%string) = None
  /\ Runner._find_comsol Runner.only_env None = None.
Proof. repeat split. Qed.

(** ** The simulation runner: processing the results *)

Lemma split_lines_length (s : str) :
  List.length (Runner.split_lines s) = S (count_occ ascii_dec s Runner.newline).
Proof.
  induction s as [|c s IH]; simpl; [reflexivity|].
  destruct (Ascii.eqb_spec c Runner.newline) as [->|Hne].
  - simpl. rewrite IH. now destruct (ascii_dec Runner.newline Runner.newline).
  - destruct (ascii_dec c Runner.newline) as [E|_]; [contradiction|].
    destruct (Runner.split_lines s); simpl in *; lia.
Qed.

Lemma lstrip_blank (s : str) :
  Forall (fun c => Runner.is_space c = true) s -> Runner.lstrip s = [].
Proof. induction 1 as [|c s Hc _ IH]; simpl; [reflexivity|]. now rewrite Hc. Qed.

Lemma process_files_spec (listing : list (str * Runner.content)) : forall r,
  let r' := fold_left Runner.process_file listing r in
  Runner.files_generated r' = Runner.files_generated r ++ map fst listing
  /\ Runner.mesh_data r' = Runner.mesh_data r
  /\ Runner.read_errors r' = Runner.read_errors r ++ Runner.unreadable listing
  /\ match Runner.last_text listing with
     | Some data =>
         Runner.solution_data r' = Some (firstn 1000 data)
         /\ Runner.data_points r'
            = Some (List.length (Runner.split_lines (Runner.strip data)))
     | None =>
         Runner.solution_data r' = Runner.solution_data r
         /\ Runner.data_points r' = Runner.data_points r
     end.
Proof.
  induction listing as [|[file read] rest IH]; intros r; cbv zeta.
  - simpl. rewrite !app_nil_r. auto.
  - cbn [fold_left]. specialize (IH (Runner.process_file r (file, read))).
    cbv zeta in IH. destruct IH as (Hfiles & Hmesh & Herr & Hlast).
    rewrite Hfiles, Hmesh, Herr. cbn [Runner.last_text].
    unfold Runner.unreadable in *. cbn [flat_map fst snd map].
    unfold Runner.process_file in *.
    destruct (Runner.endswith file (chars ".txt")), read as [data|message];
      cbn [Runner.files_generated Runner.mesh_data Runner.read_errors
           Runner.solution_data Runner.data_points] in *;
      rewrite <- ?app_assoc; cbn [app];
      (split; [reflexivity|]); (split; [reflexivity|]); (split; [reflexivity|]);
      destruct (Runner.last_text rest); exact Hlast.
Qed.

(** X20. Processing the results. [_process_results] lists every file of the
    directory in listing order; it never sets [mesh_data]; it records an
    error entry for each [*.txt] file that cannot be read; and what it
    reports as solution is taken from the last readable [*.txt] file of the
    listing alone: the first 1000 characters of its text, and as data points
    one more than the number of line breaks left after stripping white space
    from both ends, hence at least 1, and exactly 1 for a blank file. *)
Theorem process_results_spec listing :
  let r := Runner._process_results listing in
  Runner.files_generated r = map fst listing
  /\ Runner.mesh_data r = None
  /\ Runner.read_errors r = Runner.unreadable listing
  /\ match Runner.last_text listing with
     | Some data =>
         Runner.solution_data r = Some (firstn 1000 data)
         /\ Runner.data_points r
            = Some (S (count_occ ascii_dec (Runner.strip data) Runner.newline))
         /\ (Forall (fun c => Runner.is_space c = true) data ->
             Runner.data_points r = Some 1)
     | None => Runner.solution_data r = None /\ Runner.data_points r = None
     end.
Proof.
  cbv zeta. unfold Runner._process_results.
  destruct (process_files_spec listing Runner.initial) as (Hfiles & Hmesh & Herr & Hlast).
  split; [exact Hfiles|]. split; [exact Hmesh|]. split; [exact Herr|].
  destruct (Runner.last_text listing) as [data|]; [|exact Hlast].
  destruct Hlast as [Hsol Hpoints]. rewrite split_lines_length in Hpoints.
  split; [exact Hsol|]. split; [exact Hpoints|].
  intros Hblank. rewrite Hpoints. unfold Runner.strip.
  now rewrite (lstrip_blank data Hblank).
Qed.

(** The example directory: the last solution counts, with its two lines. *)
Example example_results :
  Runner._process_results Runner.example_listing
  = {| Runner.files_generated :=
         [chars "run.log"; chars "locked.txt"; chars "first.txt";
          chars "solution_data.txt"];
       Runner.solution_data :=
         Some [ascii_of_nat 10; "x"%char; ascii_of_nat 10; "y"%char; ascii_of_nat 10];
       Runner.mesh_data := None;
       Runner.data_points := Some 2;
       Runner.read_errors := [(chars "locked.txt", chars "Permission denied")] |}.
Proof. reflexivity. Qed.

(** ** The report's data preview *)

Lemma separated_blocks_step (block next : list str) (rest : list (list str)) :
  Runner.separated_blocks (block :: next :: rest)
  = block ++ [[]] ++ Runner.separated_blocks (next :: rest).
Proof. reflexivity. Qed.

Lemma preview_from_blocks (total : nat) (shown : list str) : forall i,
  shown <> [] ->
  i + List.length shown = Nat.min 10 total ->
  Runner.preview_from i shown total
  = Runner.separated_blocks (map Runner.fenced shown).
Proof.
  induction shown as [|line rest IH]; intros i Hne Hlen; [contradiction|].
  cbn [Runner.preview_from map]. destruct rest as [|next rest].
  - cbn [List.length] in Hlen.
    replace (Nat.ltb i (Nat.min 9 (total - 1))) with false
      by (symmetry; apply Nat.ltb_ge; lia).
    reflexivity.
  - cbn [List.length] in Hlen.
    replace (Nat.ltb i (Nat.min 9 (total - 1))) with true
      by (symmetry; apply Nat.ltb_lt; lia).
    rewrite (IH (S i)) by (try discriminate; cbn [List.length]; lia).
    cbn [map]. rewrite separated_blocks_step. reflexivity.
Qed.

Lemma separated_blocks_length (lines : list str) :
  lines <> [] ->
  List.length (Runner.separated_blocks (map Runner.fenced lines))
  = 4 * List.length lines - 1.
Proof.
  induction lines as [|line rest IH]; intros Hne; [contradiction|].
  destruct rest as [|next rest]; [reflexivity|].
  assert (Hrest : List.length (Runner.separated_blocks (map Runner.fenced (next :: rest)))
                  = 4 * List.length (next :: rest) - 1) by (apply IH; discriminate).
  cbn [map] in *. rewrite separated_blocks_step, !length_app.
  unfold str in *. rewrite Hrest.
  cbn [List.length Runner.fenced]. lia.
Qed.

(** X21. The data preview. The preview of the summary report shows the
    first ten lines of the data, or all of them when there are fewer, each
    between two fence lines, with one empty line between neighbouring
    blocks and none after the last: for data of [n] lines, [n] at least 1,
    it has [4 * min(10, n) - 1] lines. *)
Theorem data_preview_blocks (lines : list str) :
  Runner.data_preview lines
  = Runner.separated_blocks (map Runner.fenced (firstn 10 lines))
  /\ (lines <> [] ->
      List.length (Runner.data_preview lines)
      = 4 * Nat.min 10 (List.length lines) - 1).
Proof.
  assert (Hblocks : Runner.data_preview lines
                    = Runner.separated_blocks (map Runner.fenced (firstn 10 lines))).
  { unfold Runner.data_preview. destruct lines as [|line lines]; [reflexivity|].
    apply preview_from_blocks; [discriminate|]. now rewrite length_firstn. }
  split; [exact Hblocks|]. intros Hne. rewrite Hblocks.
  rewrite separated_blocks_length, length_firstn; [reflexivity|].
  destruct lines; [contradiction|discriminate].
Qed.


(** ** The configuration of one sweep step *)

(** X22. The configuration of a sweep step. The update that
    [run_parameter_sweep] applies to the base configuration sets the swept
    parameter to the value inside [parameters], creating [parameters] when
    the configuration has none, and changes nothing else: every other
    top-level entry and every other parameter reads as before. It succeeds
    only on an object whose [parameters] entry is absent or an object, and
    fails (with [TypeError]) only when the configuration is not an object
    or its [parameters] entry is present and not one. *)
Theorem sweep_config_update (config : json) (parameter : string) (value : json) :
  match Runner.update_config config parameter value with
  | Some updated =>
      exists d d' ps',
        config = JDict d /\ updated = JDict d'
        /\ (forall k, k <> "parameters"%string -> Py.get d' k = Py.get d k)
        /\ Py.get d' "parameters" = Some (JDict ps')
        /\ Py.get ps' parameter = Some value
        /\ (forall q, q <> parameter ->
              Py.get ps' q = match Py.get d "parameters" with
                             | Some (JDict ps) => Py.get ps q
                             | _ => None
                             end)
        /\ (Py.get d "parameters" = None
            \/ exists ps, Py.get d "parameters" = Some (JDict ps))
  | None =>
      (forall d, config <> JDict d)
      \/ exists d v, config = JDict d /\ Py.get d "parameters" = Some v
                     /\ forall ps, v <> JDict ps
  end.
Proof.
  destruct config as [| | | | | |d]; cbn [Runner.update_config];
    try (left; intros d H; discriminate H).
  destruct (Py.get d "parameters") as [v|] eqn:Hget.
  - cbv zeta. rewrite Hget. destruct v as [| | | | | |ps]; cbv iota;
      try (right; exists d; eexists; split; [reflexivity|];
           split; [exact Hget|]; intros ps H; discriminate H).
    exists d, (Py.setitem d "parameters" (JDict (Py.setitem ps parameter value))),
      (Py.setitem ps parameter value).
    repeat split.
    + intros k Hk. now apply get_setitem_other, not_eq_sym.
    + apply get_setitem_same.
    + apply get_setitem_same.
    + intros q Hq. rewrite Hget. now apply get_setitem_other, not_eq_sym.
    + right. now exists ps.
  - cbv zeta. rewrite get_setitem_same. cbv iota.
    exists d,
      (Py.setitem (Py.setitem d "parameters" (JDict [])) "parameters"
         (JDict (Py.setitem [] parameter value))),
      (Py.setitem [] parameter value).
    repeat split.
    + intros k Hk. rewrite !get_setitem_other by now apply not_eq_sym. reflexivity.
    + apply get_setitem_same.
    + apply get_setitem_same.
    + intros q Hq. rewrite Hget, get_setitem_other by now apply not_eq_sym.
      reflexivity.
    + now left.
Qed.

(** A base configuration without [parameters] gets one. *)
Example sweep_config_created :
  Runner.update_config (JDict [("model_name"%string, JStr "thermal")])
    "heat_flux" (JInt 1000)
  = Some (JDict [("model_name"%string, JStr "thermal");
                 ("parameters"%string,
                  JDict [("heat_flux"%string, JInt 1000)])]).
Proof. reflexivity. Qed.
